(** * VaultQuest: a shallow embedding of [src/app/contract/Vault.sol]

    The contract keeps a registry of time-boxed deposit pools ("vaults").
    Depositors put principal into a vault; at maturity one pseudo-randomly
    chosen depositor is entitled to the whole interest pot, everybody can
    take the principal back, and the administrator can force-delete a vault,
    paying everybody out.

    Modelling conventions.
    - [uint256] and [address] are [N]; Solidity 0.8 checked arithmetic is
      written out ([checked_add], [checked_sub], [checked_mul]): an overflow
      is the EVM [Panic(0x11)], which aborts the transaction.
    - A Solidity [mapping] is a [gmap] read with the default value of its
      range ([0], or the all-zero struct).
    - A transaction either returns [Ok] with the new storage and the list of
      externally visible effects (events emitted, transfers made), or it
      reverts; a reverted transaction leaves the storage it started from.
    - What lies outside the contract is an oracle carried by the call
      environment [Env]: whether a recipient accepts a native-currency
      send, and what a token contract answers to [transfer],
      [transferFrom] and [balanceOf].  A token call has three outcomes:
      it returns [true], it returns [false], or it reverts.
    - [msg.value] is an argument of the [payable] entry points only.
    - A token contract is an oracle: it answers, it makes no call back into
      the contract, and [balanceOf] always answers.  A recipient of native
      currency runs code.  [deposit] and [withdraw] carry [nonReentrant]:
      the guard stops a recipient that calls back at [deposit] and
      [withdraw], and inside these two the recipient is not followed (that
      it could still reach the entry points reserved to the administrator
      or the owner, if it is one of them, is left out, and so is the
      [_status] word of the guard).  [deleteVault] carries no guard: the
      calls a paid depositor makes back into the contract while
      [deleteVault] is still in its loop are part of the environment
      ([reentry]) and are run, as call frames of their own, at the point
      where the send happens.
    - The loop of [deleteVault] reads the storage afresh on every turn, and
      the calls made back into the contract can change it; the number of
      turns the gas of a transaction pays for is part of the environment
      ([loop_gas]), and a transaction that needs more fails ([OutOfGas]).
    - The contract inherits OpenZeppelin's [Ownable], [ReentrancyGuard] and
      [SafeERC20]; of these the model keeps the owner, the [onlyOwner]
      check, the two ownership entry points and the revert-unless-true
      behaviour of [safeTransfer]. *)

From stdpp Require Import strings numbers gmap fin_maps list.

Local Open Scope string_scope.
Local Open Scope list_scope.
Local Open Scope N_scope.

Abbreviation address := N (only parsing).
Abbreviation uint256 := N (only parsing).

(** ** Transaction results *)

Inductive result (A : Type) : Type :=
| Ok (a : A)
| Revert (reason : string)
| Panic (code : N)
| OutOfGas.
Arguments Ok {A} a.
Arguments Revert {A} reason.
Arguments Panic {A} code.
Arguments OutOfGas {A}.

Definition result_bind {A B : Type} (f : A → result B) (m : result A) : result B :=
  match m with
  | Ok a => f a
  | Revert r => Revert r
  | Panic c => Panic c
  | OutOfGas => OutOfGas
  end.

#[global] Instance result_ret : MRet result := @Ok.
#[global] Instance result_mbind : MBind result := @result_bind.

Definition require (cond : bool) (reason : string) : result unit :=
  if cond then Ok tt else Revert reason.

Definition is_ok {A : Type} (r : result A) : bool :=
  match r with Ok _ => true | _ => false end.

(** ** Checked 256-bit arithmetic *)

Definition MAX_UINT256 : N := 2 ^ 256 - 1.

Definition ARITHMETIC_PANIC : N := 17.      (* Panic(0x11) *)
Definition INDEX_PANIC : N := 50.           (* Panic(0x32) *)

Definition checked_add (a b : uint256) : result uint256 :=
  if a + b <=? MAX_UINT256 then Ok (a + b) else Panic ARITHMETIC_PANIC.

Definition checked_sub (a b : uint256) : result uint256 :=
  if b <=? a then Ok (a - b) else Panic ARITHMETIC_PANIC.

Definition checked_mul (a b : uint256) : result uint256 :=
  if a * b <=? MAX_UINT256 then Ok (a * b) else Panic ARITHMETIC_PANIC.

(** ** Storage *)

(** [struct VaultInfo], lines 11-23. *)
Record VaultInfo : Type := mkVaultInfo {
  name : string;
  token : address;
  totalDeposits : uint256;
  creationTime : uint256;
  duration : uint256;
  interestRate : uint256;
  active : bool;
  winnerSelected : bool;
  winner : address;
  depositors : list address;
  deposits : gmap N N
}.

Definition emptyVault : VaultInfo :=
  mkVaultInfo "" 0 0 0 0 0 false false 0 [] ∅.

(** The state variables, lines 25-29, with the owner of [Ownable] and the
    native balance of the contract.  [claimableAmounts[id][a]] is kept under
    the composite key [(id, a)]. *)
Record State : Type := mkState {
  claimableAmounts : gmap (N * N) N;
  vaults : gmap N VaultInfo;
  vaultCount : uint256;
  adminWallet : address;
  owner : address;
  balance : uint256          (* address(this).balance *)
}.

(** [vaults[_vaultId]] *)
Definition vault_at (s : State) (_vaultId : uint256) : VaultInfo :=
  default emptyVault (vaults s !! _vaultId).

(** [vault.deposits[a]] *)
Definition deposit_of (v : VaultInfo) (a : address) : uint256 :=
  default 0 (deposits v !! a).

(** [claimableAmounts[_vaultId][a]] *)
Definition claimable (s : State) (_vaultId : uint256) (a : address) : uint256 :=
  default 0 (claimableAmounts s !! (_vaultId, a)).

Definition set_vault (s : State) (_vaultId : uint256) (v : VaultInfo) : State :=
  mkState (claimableAmounts s) (<[_vaultId := v]> (vaults s)) (vaultCount s)
          (adminWallet s) (owner s) (balance s).

Definition set_claimable (s : State) (_vaultId : uint256) (a : address) (x : uint256) : State :=
  mkState (<[(_vaultId, a) := x]> (claimableAmounts s)) (vaults s) (vaultCount s)
          (adminWallet s) (owner s) (balance s).

Definition set_balance (s : State) (b : uint256) : State :=
  mkState (claimableAmounts s) (vaults s) (vaultCount s)
          (adminWallet s) (owner s) b.

Definition set_deposit (v : VaultInfo) (a : address) (x : uint256) : VaultInfo :=
  mkVaultInfo (name v) (token v) (totalDeposits v) (creationTime v) (duration v)
              (interestRate v) (active v) (winnerSelected v) (winner v)
              (depositors v) (<[a := x]> (deposits v)).

Definition set_totalDeposits (v : VaultInfo) (x : uint256) : VaultInfo :=
  mkVaultInfo (name v) (token v) x (creationTime v) (duration v)
              (interestRate v) (active v) (winnerSelected v) (winner v)
              (depositors v) (deposits v).

Definition set_depositors (v : VaultInfo) (l : list address) : VaultInfo :=
  mkVaultInfo (name v) (token v) (totalDeposits v) (creationTime v) (duration v)
              (interestRate v) (active v) (winnerSelected v) (winner v)
              l (deposits v).

Definition set_active (v : VaultInfo) (b : bool) : VaultInfo :=
  mkVaultInfo (name v) (token v) (totalDeposits v) (creationTime v) (duration v)
              (interestRate v) b (winnerSelected v) (winner v)
              (depositors v) (deposits v).

(** [vault.winner = w; vault.winnerSelected = true] *)
Definition set_winner (v : VaultInfo) (w : address) : VaultInfo :=
  mkVaultInfo (name v) (token v) (totalDeposits v) (creationTime v) (duration v)
              (interestRate v) (active v) true w
              (depositors v) (deposits v).

(** ** The world outside the contract *)

Inductive CallOutcome : Type :=
| ReturnsTrue
| ReturnsFalse
| Reverts (reason : string).

(** One constructor per state-changing entry point, with its arguments. *)
Inductive Call : Type :=
| CreateVault (_name : string) (_token : address) (_duration _interestRate : uint256)
| Deposit (_vaultId _amount msg_value : uint256)
| Withdraw (_vaultId : uint256)
| DeleteVault (_vaultId : uint256)
| SetAdminWallet (_adminWallet : address)
| FundContract (msg_value : uint256)
| FundContractToken (_token : address) (_amount : uint256)
| Receive (msg_value : uint256)
| TransferOwnership (newOwner : address)
| RenounceOwnership.

(** A call made back into the contract by somebody [deleteVault] is paying:
    who makes it, which entry point it is, and the calls made back in turn
    if this one is a [deleteVault] itself ([deeper i] during turn [i] of its
    loop). *)
#[warnings="-register-all"] Inductive Reentry : Type :=
| Reenter (sender : address) (c : Call) (deeper : nat → list Reentry).

Record Env : Type := mkEnv {
  msg_sender : address;
  block_timestamp : uint256;
  block_prevrandao : uint256;
  (* does [to.call{value: v}("")] succeed on the recipient's side *)
  call_value : address → uint256 → bool;
  (* [IERC20(token).transferFrom(from, to, amount)] *)
  erc20_transferFrom : address → address → address → uint256 → CallOutcome;
  (* [IERC20(token).transfer(to, amount)] *)
  erc20_transfer : address → address → uint256 → CallOutcome;
  (* [IERC20(token).balanceOf(account)] *)
  erc20_balanceOf : address → address → uint256;
  (* [address(this)] *)
  address_this : address;
  (* [uint256(keccak256(abi.encodePacked(a, b, c)))] for three words *)
  keccak256 : uint256 → uint256 → uint256 → uint256;
  (* how many turns of the loop of [deleteVault] the gas pays for *)
  loop_gas : nat;
  (* the calls made back into the contract by the depositor that
     [deleteVault] pays in turn [i] of its loop, in order *)
  reentry : nat → list Reentry
}.

Inductive Event : Type :=
| VaultCreated (vaultId : uint256) (name : string) (token : address)
               (duration interestRate : uint256)
| Deposited (vaultId : uint256) (depositor : address) (amount : uint256)
| Withdrawn (vaultId : uint256) (depositor : address) (amount : uint256)
| WinnerSelected (vaultId : uint256) (winner : address) (totalInterest : uint256)
| VaultDeleted (vaultId : uint256)
| AdminWalletUpdated (oldAdmin newAdmin : address)
| OwnershipTransferred (previousOwner newOwner : address).

(** What a transaction does to the outside: the events it emits and the
    asset transfers it makes.  A raw token call records what it returned. *)
Inductive Effect : Type :=
| Emit (ev : Event)
| SendValue (to : address) (amount : uint256)
| TokenTransfer (token to : address) (amount : uint256) (returned : bool)
| TokenTransferFrom (token from to : address) (amount : uint256) (returned : bool)
| TokenSafeTransfer (token to : address) (amount : uint256).

(** The amounts of the transfers a list of effects makes to [a], in order:
    native sends (a recorded send is one the recipient accepted),
    [safeTransfer]s (recorded only when the token answered [true]) and the
    bare [transfer] calls to which the token answered [true]; a bare
    [transfer] that returned [false] has moved nothing. *)
Definition amount_to (a : address) (eff : Effect) : option uint256 :=
  match eff with
  | SendValue to amount => if to =? a then Some amount else None
  | TokenTransfer _ to amount returned =>
      if returned && (to =? a) then Some amount else None
  | TokenSafeTransfer _ to amount => if to =? a then Some amount else None
  | _ => None
  end.

Definition payments_to (a : address) (effs : list Effect) : list uint256 :=
  omap (amount_to a) effs.

(** ** Interest *)

Definition SECONDS_PER_YEAR : N := 365 * 86400.            (* 365 days *)
Definition INTEREST_DENOMINATOR : N := 10000 * SECONDS_PER_YEAR.

(** [(principal * interestRate * duration) / (10000 * 365 days)], the
    expression of [_calculateTotalInterest] (lines 240-243), [deleteVault]
    (lines 266-267) and [getDepositorBalance] (lines 349-350): two checked
    multiplications, then the division. *)
Definition simpleInterest (principal rate dur : uint256) : result uint256 :=
  x ← checked_mul principal rate;
  y ← checked_mul x dur;
  Ok (y / INTEREST_DENOMINATOR).

(** The loop of [_calculateTotalInterest], lines 237-244. *)
Fixpoint totalInterest_loop (v : VaultInfo) (ds : list address) (totalInterest : uint256)
  : result uint256 :=
  match ds with
  | [] => Ok totalInterest
  | depositor :: ds' =>
      i ← simpleInterest (deposit_of v depositor) (interestRate v) (duration v);
      totalInterest' ← checked_add totalInterest i;
      totalInterest_loop v ds' totalInterest'
  end.

(** [_calculateTotalInterest], lines 230-246. *)
Definition _calculateTotalInterest (s : State) (_vaultId : uint256) : result uint256 :=
  let vault := vault_at s _vaultId in
  totalInterest_loop vault (depositors vault) 0.

(** ** Modifiers and construction *)

(** [modifier onlyAdmin], lines 60-63. *)
Definition onlyAdmin (s : State) (e : Env) : result unit :=
  require (msg_sender e =? adminWallet s) "Caller is not the admin".

(** [onlyOwner] of the inherited OpenZeppelin [Ownable]: a custom error,
    reported here by its name. *)
Definition onlyOwner (s : State) (e : Env) : result unit :=
  require (msg_sender e =? owner s) "OwnableUnauthorizedAccount".

(** [constructor() Ownable(msg.sender) { adminWallet = msg.sender; }],
    lines 65-67. *)
Definition constructor (deployer : address) : State :=
  mkState ∅ ∅ 0 deployer deployer 0.

(** ** State-changing entry points *)

(** [setAdminWallet], lines 69-74. *)
Definition setAdminWallet (s : State) (e : Env) (_adminWallet : address)
  : result (State * list Effect) :=
  onlyOwner s e;;
  require (negb (_adminWallet =? 0)) "Invalid address";;
  let oldAdmin := adminWallet s in
  Ok (mkState (claimableAmounts s) (vaults s) (vaultCount s) _adminWallet (owner s) (balance s),
      [Emit (AdminWalletUpdated oldAdmin _adminWallet)]).

(** [createVault], lines 76-94.  [vaults[vaultId]] is a storage reference:
    the fields that are not assigned keep what the slot held. *)
Definition createVault (s : State) (e : Env) (_name : string) (_token : address)
    (_duration _interestRate : uint256) : result (State * list Effect) :=
  onlyAdmin s e;;
  require (0 <? _interestRate) "Interest rate must be greater than 0";;
  let vaultId := vaultCount s in
  vaultCount' ← checked_add (vaultCount s) 1;
  let old := vault_at s vaultId in
  let newVault :=
    mkVaultInfo _name _token (totalDeposits old) (block_timestamp e) _duration
                _interestRate true (winnerSelected old) (winner old)
                (depositors old) (deposits old) in
  Ok (mkState (claimableAmounts s) (<[vaultId := newVault]> (vaults s)) vaultCount'
               (adminWallet s) (owner s) (balance s),
      [Emit (VaultCreated vaultId _name _token _duration _interestRate)]).

(** An unchecked call through the [IERC20] interface: a revert of the callee
    bubbles up, the returned boolean is handed to the caller. *)
Definition interface_call (o : CallOutcome) : result bool :=
  match o with
  | ReturnsTrue => Ok true
  | ReturnsFalse => Ok false
  | Reverts r => Revert r
  end.

(** [SafeERC20.safeTransfer]: reverts unless the token returned [true]. *)
Definition safe_call (o : CallOutcome) : result unit :=
  match o with
  | ReturnsTrue => Ok tt
  | ReturnsFalse => Revert "SafeERC20FailedOperation"
  | Reverts r => Revert r
  end.

(** [deposit], lines 96-136. *)
Definition deposit (s : State) (e : Env) (_vaultId _amount msg_value : uint256)
  : result (State * list Effect) :=
  let vault := vault_at s _vaultId in
  require (active vault) "Vault is not active";;
  endTime ← checked_add (creationTime vault) (duration vault);
  require (block_timestamp e <? endTime) "Vault deposit period has ended";;
  '(depositAmount, calls) ←
    (if token vault =? 0 then
       require (0 <? msg_value) "Cannot deposit 0";;
       Ok (msg_value, [])
     else
       require (0 <? _amount) "Cannot deposit 0";;
       require (msg_value =? 0) "Don't send ETH for token deposits";;
       returned ← interface_call
         (erc20_transferFrom e (token vault) (msg_sender e) (address_this e) _amount);
       Ok (_amount,
           [TokenTransferFrom (token vault) (msg_sender e) (address_this e) _amount returned]));
  let depositors' :=
    if deposit_of vault (msg_sender e) =? 0
    then depositors vault ++ [msg_sender e]
    else depositors vault in
  newDeposit ← checked_add (deposit_of vault (msg_sender e)) depositAmount;
  newTotal ← checked_add (totalDeposits vault) depositAmount;
  let vault' :=
    set_totalDeposits
      (set_deposit (set_depositors vault depositors') (msg_sender e) newDeposit)
      newTotal in
  Ok (set_balance (set_vault s _vaultId vault') (balance s + msg_value),
      calls ++ [Emit (Deposited _vaultId (msg_sender e) depositAmount)]).

(** The loop of [_selectWinner] that fills [claimableAmounts], lines
    161-171. *)
Fixpoint setClaimable_loop (vault : VaultInfo) (_vaultId : uint256) (totalInterest : uint256)
    (ds : list address) (claims : gmap (N * N) N) : result (gmap (N * N) N) :=
  match ds with
  | [] => Ok claims
  | depositor :: ds' =>
      let principal := deposit_of vault depositor in
      amount ← (if depositor =? winner vault
                then checked_add principal totalInterest
                else Ok principal);
      setClaimable_loop vault _vaultId totalInterest ds'
                        (<[(_vaultId, depositor) := amount]> claims)
  end.

(** [_selectWinner], lines 140-174. *)
Definition _selectWinner (s : State) (e : Env) (_vaultId : uint256)
  : result (State * list Effect) :=
  let vault := vault_at s _vaultId in
  require (negb (winnerSelected vault)) "Winner already selected";;
  require (0 <? length (depositors vault))%nat "No depositors";;
  let randomSeed := keccak256 e (block_prevrandao e) _vaultId (block_timestamp e) in
  let winnerIndex := randomSeed mod N.of_nat (length (depositors vault)) in
  match depositors vault !! N.to_nat winnerIndex with
  | None => Panic INDEX_PANIC
  | Some w =>
      let vault1 := set_winner vault w in
      let s1 := set_vault s _vaultId vault1 in
      totalInterest ← _calculateTotalInterest s1 _vaultId;
      claims ← setClaimable_loop vault1 _vaultId totalInterest (depositors vault1)
                                 (claimableAmounts s1);
      Ok (mkState claims (vaults s1) (vaultCount s1) (adminWallet s1) (owner s1) (balance s1),
          [Emit (WinnerSelected _vaultId w totalInterest)])
  end.

(** The loop of [_removeDepositor], lines 289-298: the first index holding
    [_depositor]. *)
Fixpoint find_depositor (ds : list address) (_depositor : address) (i : nat) : option nat :=
  match ds with
  | [] => None
  | d :: ds' => if d =? _depositor then Some i else find_depositor ds' _depositor (S i)
  end.

(** [depositors[i] = depositors[length - 1]; depositors.pop()] *)
Definition swap_and_pop (ds : list address) (i : nat) : list address :=
  match list.last ds with
  | Some l => take (pred (length ds)) (<[i := l]> ds)
  | None => ds
  end.

(** [_removeDepositor], lines 287-299. *)
Definition _removeDepositor (s : State) (_vaultId : uint256) (_depositor : address) : State :=
  let vault := vault_at s _vaultId in
  match find_depositor (depositors vault) _depositor 0 with
  | Some i => set_vault s _vaultId (set_depositors vault (swap_and_pop (depositors vault) i))
  | None => s
  end.

(** [withdraw], lines 178-227. *)
Definition withdraw (s : State) (e : Env) (_vaultId : uint256)
  : result (State * list Effect) :=
  let vault := vault_at s _vaultId in
  require (active vault) "Vault inactive";;
  require (0 <? deposit_of vault (msg_sender e)) "No deposit";;
  endTime ← checked_add (creationTime vault) (duration vault);
  '(s1, effs1) ←
    (if (endTime <=? block_timestamp e) && negb (winnerSelected vault)
     then _selectWinner s e _vaultId
     else Ok (s, []));
  let vault1 := vault_at s1 _vaultId in
  let amountToClaim :=
    if claimable s1 _vaultId (msg_sender e) =? 0
    then deposit_of vault1 (msg_sender e)
    else claimable s1 _vaultId (msg_sender e) in
  (if token vault1 =? 0
   then require (amountToClaim <=? balance s1) "Insufficient contract ETH"
   else require (amountToClaim <=? erc20_balanceOf e (token vault1) (address_this e))
                "Insufficient contract tokens");;
  let principal := deposit_of vault1 (msg_sender e) in
  newTotal ← checked_sub (totalDeposits vault1) principal;
  let vault2 := set_totalDeposits (set_deposit vault1 (msg_sender e) 0) newTotal in
  let s2 := set_claimable (set_vault s1 _vaultId vault2) _vaultId (msg_sender e) 0 in
  let s3 := _removeDepositor s2 _vaultId (msg_sender e) in
  if token vault1 =? 0 then
    require (call_value e (msg_sender e) amountToClaim) "Transfer failed";;
    Ok (set_balance s3 (balance s3 - amountToClaim),
        effs1 ++ [SendValue (msg_sender e) amountToClaim;
                  Emit (Withdrawn _vaultId (msg_sender e) amountToClaim)])
  else
    safe_call (erc20_transfer e (token vault1) (msg_sender e) amountToClaim);;
    Ok (s3,
        effs1 ++ [TokenSafeTransfer (token vault1) (msg_sender e) amountToClaim;
                  Emit (Withdrawn _vaultId (msg_sender e) amountToClaim)]).

(** [block.timestamp >= vault.creationTime + vault.duration] *)
Definition matured (e : Env) (vault : VaultInfo) : result bool :=
  endTime ← checked_add (creationTime vault) (duration vault);
  Ok (endTime <=? block_timestamp e).

(** What the depositors paid by [deleteVault] do, as its loop sees it: the
    depositor paid in turn [i] is handed the storage as it is then, and the
    calls it makes back leave a storage and a list of effects. *)
Definition Reenter_handler : Type := nat → State → State * list Effect.

(** The loop of [deleteVault], lines 255-282,
    [for (i = 0; i < vault.depositors.length; i++)].  Every turn reads the
    vault from the storage.  A native send fails when the balance does not
    cover it or the recipient's side fails; when it goes through, the
    recipient has been paid first and has then made its calls back into the
    contract ([reenter i]).  A turn takes one unit of [gas]. *)
Fixpoint deleteVault_loop (reenter : Reenter_handler) (e : Env) (_vaultId : uint256)
    (gas : nat) (i : nat) (s : State) (effs : list Effect)
  : result (State * list Effect) :=
  match gas with
  | O => OutOfGas
  | S gas' =>
      let vault := vault_at s _vaultId in
      match depositors vault !! i with
      | None => Ok (s, effs)
      | Some depositor =>
          let amount := deposit_of vault depositor in
          if 0 <? amount then
            let vault1 := set_deposit vault depositor 0 in
            let s1 := set_vault s _vaultId vault1 in
            isMatured ← matured e vault1;
            interest ← (if isMatured : bool
                        then simpleInterest amount (interestRate vault1) (duration vault1)
                        else Ok 0);
            totalAmount ← checked_add amount interest;
            if token vault1 =? 0 then
              require ((totalAmount <=? balance s1) && call_value e depositor totalAmount)
                      "Transfer failed";;
              let paid := reenter i (set_balance s1 (balance s1 - totalAmount)) in
              deleteVault_loop reenter e _vaultId gas' (S i) paid.1
                               (effs ++ SendValue depositor totalAmount :: paid.2)
            else
              returned ← interface_call (erc20_transfer e (token vault1) depositor totalAmount);
              deleteVault_loop reenter e _vaultId gas' (S i) s1
                               (effs ++ [TokenTransfer (token vault1) depositor totalAmount returned])
          else deleteVault_loop reenter e _vaultId gas' (S i) s effs
      end
  end.

(** The body of [deleteVault], lines 248-285, given what the paid
    depositors do. *)
Definition deleteVault_body (reenter : Reenter_handler) (s : State) (e : Env)
    (_vaultId : uint256) : result (State * list Effect) :=
  onlyAdmin s e;;
  let vault := vault_at s _vaultId in
  require (active vault) "Vault is not active";;
  let s0 := set_vault s _vaultId (set_active vault false) in
  '(s', effs) ← deleteVault_loop reenter e _vaultId (loop_gas e) 0 s0 [];
  Ok (s', effs ++ [Emit (VaultDeleted _vaultId)]).

(** [fundContract], lines 398-400, and [fundContractToken], lines 403-409. *)
Definition fundContract (s : State) (e : Env) (msg_value : uint256)
  : result (State * list Effect) :=
  onlyAdmin s e;;
  Ok (set_balance s (balance s + msg_value), []).

Definition fundContractToken (s : State) (e : Env) (_token : address) (_amount : uint256)
  : result (State * list Effect) :=
  onlyAdmin s e;;
  require (negb (_token =? 0)) "Invalid token address";;
  returned ← interface_call (erc20_transferFrom e _token (msg_sender e) (address_this e) _amount);
  Ok (s, [TokenTransferFrom _token (msg_sender e) (address_this e) _amount returned]).

(** [receive() external payable], lines 411-413. *)
Definition receive (s : State) (e : Env) (msg_value : uint256)
  : result (State * list Effect) :=
  Revert "Direct deposits not allowed, use deposit function".

(** The two entry points inherited from OpenZeppelin's [Ownable]. *)
Definition transferOwnership (s : State) (e : Env) (newOwner : address)
  : result (State * list Effect) :=
  onlyOwner s e;;
  require (negb (newOwner =? 0)) "OwnableInvalidOwner";;
  Ok (mkState (claimableAmounts s) (vaults s) (vaultCount s) (adminWallet s) newOwner (balance s),
      [Emit (OwnershipTransferred (owner s) newOwner)]).

Definition renounceOwnership (s : State) (e : Env) : result (State * list Effect) :=
  onlyOwner s e;;
  Ok (mkState (claimableAmounts s) (vaults s) (vaultCount s) (adminWallet s) 0 (balance s),
      [Emit (OwnershipTransferred (owner s) 0)]).

(** ** Views *)

(** The tuple [getVaultInfo] returns. *)
Record VaultSummary : Type := mkVaultSummary {
  sum_name : string;
  sum_token : address;
  sum_totalDeposits : uint256;
  sum_creationTime : uint256;
  sum_duration : uint256;
  sum_interestRate : uint256;
  sum_active : bool;
  sum_timeLeft : uint256;
  sum_depositorCount : uint256
}.

(** [getVaultInfo], lines 301-333. *)
Definition getVaultInfo (s : State) (e : Env) (_vaultId : uint256) : result VaultSummary :=
  let vault := vault_at s _vaultId in
  endTime ← checked_add (creationTime vault) (duration vault);
  let currentTime := block_timestamp e in
  let _timeLeft := if endTime <=? currentTime then 0 else endTime - currentTime in
  Ok (mkVaultSummary (name vault) (token vault) (totalDeposits vault) (creationTime vault)
                     (duration vault) (interestRate vault) (active vault) _timeLeft
                     (N.of_nat (length (depositors vault)))).

(** [getDepositorBalance], lines 335-356. *)
Definition getDepositorBalance (s : State) (e : Env) (_vaultId : uint256) (_depositor : address)
  : result (uint256 * uint256) :=
  let vault := vault_at s _vaultId in
  let principal := deposit_of vault _depositor in
  if 0 <? principal then
    isMatured ← matured e vault;
    if isMatured : bool then
      currentInterest ← simpleInterest principal (interestRate vault) (duration vault);
      Ok (principal, currentInterest)
    else Ok (principal, 0)
  else Ok (principal, 0).

(** [getVaultDepositors], [isDepositor], [getWinnerInfo] and [hasWinner],
    lines 358-395. *)
Definition getVaultDepositors (s : State) (_vaultId : uint256) : list address :=
  depositors (vault_at s _vaultId).

Definition isDepositor (s : State) (_vaultId : uint256) (_depositor : address) : bool :=
  0 <? deposit_of (vault_at s _vaultId) _depositor.


Definition hasWinner (s : State) (_vaultId : uint256) : bool :=
  winnerSelected (vault_at s _vaultId).

(** ** Transactions and reachable states *)

(** The entry point a call names, run in the call frame [e]; [reenter] is
    what the depositors paid by [deleteVault] do. *)
Definition exec_call (reenter : Reenter_handler) (s : State) (e : Env) (c : Call)
  : result (State * list Effect) :=
  match c with
  | CreateVault n t d r => createVault s e n t d r
  | Deposit id a v => deposit s e id a v
  | Withdraw id => withdraw s e id
  | DeleteVault id => deleteVault_body reenter s e id
  | SetAdminWallet a => setAdminWallet s e a
  | FundContract v => fundContract s e v
  | FundContractToken t a => fundContractToken s e t a
  | Receive v => receive s e v
  | TransferOwnership a => transferOwnership s e a
  | RenounceOwnership => renounceOwnership s e
  end.

(** The call frame of a call made back into the contract during the
    transaction of [e]: the same block and the same outside world, another
    caller, and its own calls back. *)
Definition frame (e : Env) (sender : address) (deeper : nat → list Reentry) : Env :=
  mkEnv sender (block_timestamp e) (block_prevrandao e) (call_value e)
        (erc20_transferFrom e) (erc20_transfer e) (erc20_balanceOf e) (address_this e)
        (keccak256 e) (loop_gas e) deeper.

(** One call made back into the contract.  The calls a depositor makes
    while it is being paid run one after the other on the storage as it is
    then; one that fails is undone alone (its caller sees [false] and goes
    on), the others stay. *)
Fixpoint exec_frame (e : Env) (n : Reentry) (s : State) {struct n}
  : result (State * list Effect) :=
  match n with
  | Reenter sender c deeper =>
      exec_call
        (λ i st,
           (fix run (l : list Reentry) (st : State) {struct l} : State * list Effect :=
              match l with
              | [] => (st, [])
              | n' :: l' =>
                  match exec_frame e n' st with
                  | Ok (st', effs) => let rest := run l' st' in (rest.1, effs ++ rest.2)
                  | _ => run l' st
                  end
              end) (deeper i) st)
        s (frame e sender deeper) c
  end.

Definition run_frames (e : Env) : list Reentry → State → State * list Effect :=
  fix run (l : list Reentry) (st : State) {struct l} : State * list Effect :=
    match l with
    | [] => (st, [])
    | n' :: l' =>
        match exec_frame e n' st with
        | Ok (st', effs) => let rest := run l' st' in (rest.1, effs ++ rest.2)
        | _ => run l' st
        end
    end.

(** [deleteVault], lines 248-285, as the entry point of a transaction. *)
Definition deleteVault (s : State) (e : Env) (_vaultId : uint256)
  : result (State * list Effect) :=
  deleteVault_body (λ i st, run_frames e (reentry e i) st) s e _vaultId.

(** A transaction: the entry point it calls, in the environment [e]. *)
Definition exec (s : State) (e : Env) (c : Call) : result (State * list Effect) :=
  exec_call (λ i st, run_frames e (reentry e i) st) s e c.

(** The storage after a transaction: a reverted one changes nothing. *)
Definition step (s : State) (e : Env) (c : Call) : State :=
  match exec s e c with
  | Ok (s', _) => s'
  | _ => s
  end.

Definition run (s : State) (tr : list (Env * Call)) : State :=
  foldl (λ st ec, step st ec.1 ec.2) s tr.

(** Block timestamps never go back along a history that starts at [t]. *)
Fixpoint time_ordered (t : uint256) (tr : list (Env * Call)) : bool :=
  match tr with
  | [] => true
  | (e, _) :: tr' => (t <=? block_timestamp e) && time_ordered (block_timestamp e) tr'
  end.

(** [reachable s now]: the contract can be in storage [s] when the latest
    block seen has timestamp [now]. *)
Inductive reachable : State → uint256 → Prop :=
| reach_deploy deployer now :
    reachable (constructor deployer) now
| reach_call s now e c :
    reachable s now →
    now ≤ block_timestamp e →
    reachable (step s e c) (block_timestamp e).

(** ** The entry points in parts *)

(** The vault after [who] has been credited [x]: the body of [deposit]
    after the funds have come in. *)
Definition credit (v : VaultInfo) (who : address) (x : uint256) : VaultInfo :=
  set_totalDeposits
    (set_deposit
       (set_depositors v (if deposit_of v who =? 0
                          then depositors v ++ [who] else depositors v))
       who (deposit_of v who + x))
    (totalDeposits v + x).

(** [withdraw] in two parts: the settlement it may trigger, and the claim
    proper (everything after the call of [_selectWinner]). *)
Definition settle_if_due (s : State) (e : Env) (_vaultId : uint256)
  : result (State * list Effect) :=
  let vault := vault_at s _vaultId in
  endTime ← checked_add (creationTime vault) (duration vault);
  if (endTime <=? block_timestamp e) && negb (winnerSelected vault)
  then _selectWinner s e _vaultId
  else Ok (s, []).

Definition amountToClaim (s1 : State) (_vaultId : uint256) (who : address) : uint256 :=
  if claimable s1 _vaultId who =? 0
  then deposit_of (vault_at s1 _vaultId) who
  else claimable s1 _vaultId who.

(** The vault once the principal of [who] is taken off the books. *)
Definition debit (v : VaultInfo) (who : address) : VaultInfo :=
  set_totalDeposits (set_deposit v who 0) (totalDeposits v - deposit_of v who).

(** The storage after the "update state" block of [withdraw]. *)
Definition after_withdraw (s1 : State) (_vaultId : uint256) (who : address) : State :=
  _removeDepositor
    (set_claimable (set_vault s1 _vaultId (debit (vault_at s1 _vaultId) who)) _vaultId who 0)
    _vaultId who.

Definition claim_and_pay (s1 : State) (e : Env) (_vaultId : uint256) (effs1 : list Effect)
  : result (State * list Effect) :=
  let vault1 := vault_at s1 _vaultId in
  let amount := amountToClaim s1 _vaultId (msg_sender e) in
  (if token vault1 =? 0
   then require (amount <=? balance s1) "Insufficient contract ETH"
   else require (amount <=? erc20_balanceOf e (token vault1) (address_this e))
                "Insufficient contract tokens");;
  checked_sub (totalDeposits vault1) (deposit_of vault1 (msg_sender e));;
  let s3 := after_withdraw s1 _vaultId (msg_sender e) in
  if token vault1 =? 0 then
    require (call_value e (msg_sender e) amount) "Transfer failed";;
    Ok (set_balance s3 (balance s3 - amount),
        effs1 ++ [SendValue (msg_sender e) amount;
                  Emit (Withdrawn _vaultId (msg_sender e) amount)])
  else
    safe_call (erc20_transfer e (token vault1) (msg_sender e) amount);;
    Ok (s3,
        effs1 ++ [TokenSafeTransfer (token vault1) (msg_sender e) amount;
                  Emit (Withdrawn _vaultId (msg_sender e) amount)]).

(** The transfer [withdraw] makes: a native send or a [safeTransfer]. *)
Definition payout_effect (tok who : address) (amount : uint256) : Effect :=
  if tok =? 0 then SendValue who amount else TokenSafeTransfer tok who amount.

(** The two conditions under which the transfer of [withdraw] goes through:
    the contract holds the amount, and the recipient (or the token) accepts
    the transfer. *)
Definition can_pay (s : State) (e : Env) (tok who : address) (amount : uint256) : bool :=
  if tok =? 0
  then (amount <=? balance s) && call_value e who amount
  else (amount <=? erc20_balanceOf e tok (address_this e))
       && match erc20_transfer e tok who amount with
          | ReturnsTrue => true
          | _ => false
          end.

(** ** Invariants *)

(** [Σ deposits[d]] over a list of addresses. *)
Definition sum_deposits (v : VaultInfo) (ds : list address) : uint256 :=
  foldr (λ d acc, deposit_of v d + acc) 0 ds.

(** The bookkeeping of one vault is consistent. *)
Record vault_ok (v : VaultInfo) : Prop := mk_vault_ok {
  ok_nodup : NoDup (depositors v);
  ok_listed : ∀ a, a ∈ depositors v ↔ 0 < deposit_of v a;
  ok_total : totalDeposits v = sum_deposits v (depositors v)
}.

(** [floor(p * r * d / (10000 * secondsPerYear))] *)
Definition interest_floor (principal rate dur : uint256) : uint256 :=
  principal * rate * dur / INTEREST_DENOMINATOR.

Definition vault_interest (v : VaultInfo) (a : address) : uint256 :=
  interest_floor (deposit_of v a) (interestRate v) (duration v).

Definition sum_interest (v : VaultInfo) (ds : list address) : uint256 :=
  foldr (λ d acc, vault_interest v d + acc) 0 ds.

(** The products of the interest expression fit in 256 bits. *)
Definition interest_fits (principal rate dur : uint256) : Prop :=
  principal * rate ≤ MAX_UINT256 ∧ principal * rate * dur ≤ MAX_UINT256.

(** The interest pot of a vault can be computed without overflow. *)
Definition interest_ok (v : VaultInfo) : Prop :=
  Forall (λ d, interest_fits (deposit_of v d) (interestRate v) (duration v)) (depositors v)
  ∧ sum_interest v (depositors v) ≤ MAX_UINT256.

(** What [deleteVault] owes a depositor: the principal, plus the depositor's
    own simple interest once the vault has matured. *)
Definition deletion_payout (e : Env) (v : VaultInfo) (a : address) : uint256 :=
  deposit_of v a
  + (if creationTime v + duration v <=? block_timestamp e then vault_interest v a else 0).

(** What holds of the vault [id] of a storage [s] once the latest block has
    timestamp [now]. *)
Record vault_inv (s : State) (now : uint256) (id : uint256) : Prop := mk_vault_inv {
  inv_ok : active (vault_at s id) = true → vault_ok (vault_at s id);
  inv_created : active (vault_at s id) = true → id < vaultCount s;
  inv_fresh : vaultCount s ≤ id →
              vault_at s id = emptyVault ∧ ∀ a, claimable s id a = 0;
  inv_unsettled : active (vault_at s id) = true →
                  winnerSelected (vault_at s id) = false →
                  ∀ a, claimable s id a = 0;
  inv_settled_time : active (vault_at s id) = true →
                     winnerSelected (vault_at s id) = true →
                     creationTime (vault_at s id) + duration (vault_at s id) ≤ now;
  inv_settled_interest : active (vault_at s id) = true →
                         winnerSelected (vault_at s id) = true →
                         is_ok (_calculateTotalInterest s id) = true;
  inv_endtime : active (vault_at s id) = true →
                ∀ a, 0 < deposit_of (vault_at s id) a →
                creationTime (vault_at s id) + duration (vault_at s id) ≤ MAX_UINT256
}.

Definition state_inv (s : State) (now : uint256) : Prop :=
  ∀ id, vault_inv s now id.

(** ** Histories and their effects *)

(** The timestamp of the last transaction of a history that starts at [t]. *)
Definition end_time (t : uint256) (tr : list (Env * Call)) : uint256 :=
  foldl (λ _ ec, block_timestamp ec.1) t tr.

(** The effects of a history of transactions, reverted ones contributing
    nothing. *)
Definition effects_of (s : State) (e : Env) (c : Call) : list Effect :=
  match exec s e c with
  | Ok (_, effs) => effs
  | _ => []
  end.

Fixpoint history_effects (s : State) (tr : list (Env * Call)) : list Effect :=
  match tr with
  | [] => []
  | (e, c) :: tr' => effects_of s e c ++ history_effects (step s e c) tr'
  end.

(** How many times a [WinnerSelected] event for vault [id] occurs. *)
Definition is_selection (id : uint256) (eff : Effect) : bool :=
  match eff with
  | Emit (WinnerSelected id' _ _) => id' =? id
  | _ => false
  end.

Definition selections (id : uint256) (effs : list Effect) : nat :=
  foldr (λ eff n, if is_selection id eff then S n else n) 0%nat effs.

(** ** Example data for the closed statements *)

Definition demo_env (sender now : N) (tokenAnswer : CallOutcome) : Env :=
  mkEnv sender now 0 (λ _ _, true) (λ _ _ _ _, tokenAnswer) (λ _ _ _, tokenAnswer)
        (λ _ _, 1000000) 999 (λ a b c, a + b + c) 100 (λ _, []).

Definition demo_admin : address := 1.
Definition alice : address := 7.
Definition bob : address := 8.
Definition demo_token : address := 5.

(** A native-currency vault, created at time 10 for 1000 seconds at 500
    basis points, into which Alice has put 100 and Bob 50. *)
Definition demo_trace : list (Env * Call) :=
  [ (demo_env demo_admin 10 ReturnsTrue, CreateVault "pool" 0 1000 500);
    (demo_env alice 20 ReturnsTrue, Deposit 0 0 100);
    (demo_env bob 20 ReturnsTrue, Deposit 0 0 50) ].

Definition demo_open : State := run (constructor demo_admin) demo_trace.

(** The same vault after the administrator has deleted it at time 30. *)
Definition demo_deleted : State :=
  step demo_open (demo_env demo_admin 30 ReturnsTrue) (DeleteVault 0).

(** A token vault with no deposit yet. *)
Definition demo_token_open : State :=
  run (constructor demo_admin)
      [ (demo_env demo_admin 10 ReturnsTrue, CreateVault "tokens" demo_token 1000 500) ].

(** The token vault after Alice has deposited 100 tokens. *)
Definition demo_token_funded : State :=
  step demo_token_open (demo_env alice 20 ReturnsTrue) (Deposit 0 100 0).

(** A one-year native vault at 500 basis points holding 1000 from Alice. *)
Definition demo_year : State :=
  run (constructor demo_admin)
      [ (demo_env demo_admin 10 ReturnsTrue, CreateVault "year" 0 SECONDS_PER_YEAR 500);
        (demo_env alice 20 ReturnsTrue, Deposit 0 0 1000) ].

(** The one-year vault after the administrator has put 100 aside for the
    interest, and after it has then been deleted past its maturity. *)
Definition demo_year_funded : State :=
  step demo_year (demo_env demo_admin 30 ReturnsTrue) (FundContract 100).

Definition demo_year_deleted : State :=
  step demo_year_funded (demo_env demo_admin (20 + SECONDS_PER_YEAR) ReturnsTrue)
       (DeleteVault 0).

(** The first vault once it has matured and Alice has withdrawn, which
    settles it, and then once it has been deleted. *)
Definition demo_settled : State :=
  step (step demo_open (demo_env demo_admin 1500 ReturnsTrue) (FundContract 1000))
       (demo_env alice 2000 ReturnsTrue) (Withdraw 0).

Definition demo_settled_deleted : State :=
  step demo_settled (demo_env demo_admin 2100 ReturnsTrue) (DeleteVault 0).

(** ** Notions for the further properties *)

(** Once a vault is settled, what [claimableAmounts] holds for it: never
    less than the principal, and exactly the principal for everybody but
    the winner. *)
Definition settled_ok (s : State) (id : uint256) : Prop :=
  active (vault_at s id) = true →
  winnerSelected (vault_at s id) = true →
  ∀ a, deposit_of (vault_at s id) a ≤ claimable s id a
       ∧ (a ≠ winner (vault_at s id) → claimable s id a = deposit_of (vault_at s id) a).

(** The demo vault at time 2000, past its maturity, with 1000 put aside by
    the administrator and nobody having withdrawn yet. *)
Definition demo_matured : State :=
  step demo_open (demo_env demo_admin 1500 ReturnsTrue) (FundContract 1000).

(** A result that, if it is a failure, is the arithmetic panic. *)
Definition fails_only_by_overflow {A : Type} (r : result A) : Prop :=
  match r with
  | Ok _ => True
  | Revert _ => False
  | Panic c => c = ARITHMETIC_PANIC
  | OutOfGas => False
  end.

(** The one-year vault just past its maturity, nobody having withdrawn. *)
Definition demo_year_env : Env := demo_env alice (20 + SECONDS_PER_YEAR) ReturnsTrue.


Definition is_deleteVault (c : Call) : bool :=
  match c with
  | DeleteVault _ => true
  | _ => false
  end.

(** Two native vaults, Alice holding 100 in the first and 50 in the second;
    and a transaction of the administrator in which Alice, when she is paid
    in the first turn of the loop of [deleteVault], calls [withdraw(1)] from
    her [receive] function. *)
Definition demo_two_vaults : State :=
  run (constructor demo_admin)
      [ (demo_env demo_admin 10 ReturnsTrue, CreateVault "pool" 0 1000 500);
        (demo_env demo_admin 10 ReturnsTrue, CreateVault "second" 0 1000 500);
        (demo_env alice 20 ReturnsTrue, Deposit 0 0 100);
        (demo_env alice 20 ReturnsTrue, Deposit 1 0 50) ].

Definition demo_reentrant_env : Env :=
  mkEnv demo_admin 30 0 (λ _ _, true) (λ _ _ _ _, ReturnsTrue) (λ _ _ _, ReturnsTrue)
        (λ _ _, 1000000) 999 (λ a b c, a + b + c) 100
        (λ i, match i with
              | O => [Reenter alice (Withdraw 1) (λ _, [])]
              | S _ => []
              end).

(** ** Notions for the calls made back into the contract *)

(** Every call frame of [n], the nested ones included, is made by an
    address in [Q]. *)
Inductive frames_ok (Q : address → Prop) : Reentry → Prop :=
| frames_ok_intro sender c deeper :
    Q sender →
    (∀ i n, n ∈ deeper i → frames_ok Q n) →
    frames_ok Q (Reenter sender c deeper).

(** What no execution undoes: [vaultCount] does not decrease, a settled
    vault stays settled with the same winner, a created vault that is
    inactive stays inactive, and a created vault keeps its terms. *)
Record evolves (s s' : State) : Prop := mk_evolves {
  ev_count : vaultCount s ≤ vaultCount s';
  ev_winner : ∀ id, winnerSelected (vault_at s id) = true →
                    winnerSelected (vault_at s' id) = true
                    ∧ winner (vault_at s' id) = winner (vault_at s id);
  ev_inactive : ∀ id, active (vault_at s id) = false → id < vaultCount s →
                      active (vault_at s' id) = false;
  ev_terms : ∀ id, id < vaultCount s →
                   name (vault_at s' id) = name (vault_at s id)
                   ∧ token (vault_at s' id) = token (vault_at s id)
                   ∧ creationTime (vault_at s' id) = creationTime (vault_at s id)
                   ∧ duration (vault_at s' id) = duration (vault_at s id)
                   ∧ interestRate (vault_at s' id) = interestRate (vault_at s id)
}.

(** What the calls made back during one turn of [deleteVault] are asked
    for, when a property [P] of the storage and a relation [R] between the
    storage before, the effects and the storage after are to be shown of
    every transaction; [J id] is what the loop on vault [id] relies on. *)
Definition handler_ok (P : State → Prop) (R : State → list Effect → State → Prop)
    (J : uint256 → State → Prop) (reenter : Reenter_handler) : Prop :=
  ∀ i st, P st →
    P (reenter i st).1
    ∧ R st (reenter i st).2 (reenter i st).1
    ∧ ∀ id, J id st → J id (reenter i st).1.

(** An execution with effects [effs] from [s] to [s'] selects a winner for
    vault [id] at most once, and only by taking [winnerSelected] from false
    to true; it never resets the flag. *)
Definition selects_once (id : uint256) (s : State) (effs : list Effect) (s' : State) : Prop :=
  (winnerSelected (vault_at s id) = true → winnerSelected (vault_at s' id) = true)
  ∧ (selections id effs = 0%nat
     ∨ (selections id effs = 1%nat
        ∧ winnerSelected (vault_at s id) = false
        ∧ winnerSelected (vault_at s' id) = true)).

(** [deleteVault] has handed [amount] over for [a]: it has sent it, in a
    native vault, and it has called [transfer] of the token with it,
    whatever the token answered, in a token vault. *)
Definition handed_over (tok a : address) (amount : uint256) (effs : list Effect) : Prop :=
  if tok =? 0
  then SendValue a amount ∈ effs
  else ∃ returned, TokenTransfer tok a amount returned ∈ effs.

(** Every active vault has been created. *)
Definition created_inv (s : State) : Prop :=
  ∀ id, active (vault_at s id) = true → id < vaultCount s.

(** The vault [id] has been created and is not active. *)
Definition closed (id : uint256) (s : State) : Prop :=
  active (vault_at s id) = false ∧ id < vaultCount s.


(** * Proofs *)

(** ** The result monad *)

Lemma bind_Ok {A B : Type} (m : result A) (f : A → result B) (b : B) :
  m ≫= f = Ok b → ∃ a, m = Ok a ∧ f a = Ok b.
Proof. destruct m as [a| | |]; simpl; intros H; try discriminate. by exists a. Qed.

Lemma require_Ok (c : bool) (r : string) (u : unit) : require c r = Ok u → c = true.
Proof. by destruct c. Qed.

Lemma checked_add_Ok (a b c : N) : checked_add a b = Ok c ↔ c = a + b ∧ a + b ≤ MAX_UINT256.
Proof.
  unfold checked_add. destruct (N.leb_spec (a + b) MAX_UINT256); split.
  - intros [= <-]. done.
  - by intros [-> _].
  - discriminate.
  - intros [_ ?]. lia.
Qed.

Lemma checked_sub_Ok (a b c : N) : checked_sub a b = Ok c ↔ c = a - b ∧ b ≤ a.
Proof.
  unfold checked_sub. destruct (N.leb_spec b a); split.
  - intros [= <-]. done.
  - by intros [-> _].
  - discriminate.
  - intros [_ ?]. lia.
Qed.

Lemma checked_mul_Ok (a b c : N) : checked_mul a b = Ok c ↔ c = a * b ∧ a * b ≤ MAX_UINT256.
Proof.
  unfold checked_mul. destruct (N.leb_spec (a * b) MAX_UINT256); split.
  - intros [= <-]. done.
  - by intros [-> _].
  - discriminate.
  - intros [_ ?]. lia.
Qed.

(** Peel the binds and [require]s of a hypothesis [m = Ok x]. *)
Ltac inv_ok H :=
  repeat match type of H with
  | _ ≫= _ = Ok _ =>
      let a := fresh "x" in let Ha := fresh "E" in
      apply bind_Ok in H as (a & Ha & H);
      try match type of Ha with
          | require _ _ = Ok _ => apply require_Ok in Ha; destruct a
          | checked_add _ _ = Ok _ => apply checked_add_Ok in Ha as [-> Ha]
          | checked_sub _ _ = Ok _ => apply checked_sub_Ok in Ha as [-> Ha]
          | checked_mul _ _ = Ok _ => apply checked_mul_Ok in Ha as [-> Ha]
          end
  end.

Lemma step_reverted (s : State) (e : Env) (c : Call) :
  is_ok (exec s e c) = false → step s e c = s.
Proof. unfold step. by destruct (exec s e c) as [[? ?]| | |]. Qed.

(** ** Interest *)

Lemma simpleInterest_Ok (p r d x : N) :
  simpleInterest p r d = Ok x ↔ interest_fits p r d ∧ x = interest_floor p r d.
Proof.
  unfold simpleInterest, interest_fits, interest_floor. split.
  - intros H. inv_ok H. by injection H as <-.
  - intros [[H1 H2] ->].
    assert (checked_mul p r = Ok (p * r)) as -> by by apply checked_mul_Ok.
    simpl.
    assert (checked_mul (p * r) d = Ok (p * r * d)) as -> by by apply checked_mul_Ok.
    done.
Qed.

Lemma totalInterest_loop_Ok (v : VaultInfo) (ds : list address) (acc t : N) :
  acc ≤ MAX_UINT256 →
  totalInterest_loop v ds acc = Ok t ↔
    Forall (λ d, interest_fits (deposit_of v d) (interestRate v) (duration v)) ds
    ∧ t = acc + sum_interest v ds ∧ t ≤ MAX_UINT256.
Proof.
  revert acc. induction ds as [|d ds IH]; intros acc Hacc; simpl.
  - split.
    + intros [= <-]. split; [constructor | lia].
    + intros (_ & -> & _). f_equal. lia.
  - split.
    + intros H. inv_ok H. apply simpleInterest_Ok in E as [Hfit ->].
      apply IH in H as (HF & -> & Ht); [|done].
      fold (vault_interest v d) in *.
      split; [by constructor | lia].
    + intros (HF & -> & Ht). inversion HF as [|? ? Hd HF']; subst.
      assert (simpleInterest (deposit_of v d) (interestRate v) (duration v)
              = Ok (vault_interest v d)) as -> by by apply simpleInterest_Ok.
      simpl.
      assert (checked_add acc (vault_interest v d) = Ok (acc + vault_interest v d)) as ->
        by (apply checked_add_Ok; split; [done | lia]).
      simpl. apply IH; [lia|]. split; [done | lia].
Qed.

Lemma MAX_UINT256_pos : 0 ≤ MAX_UINT256.
Proof. lia. Qed.

Lemma calculateTotalInterest_Ok (s : State) (id t : N) :
  _calculateTotalInterest s id = Ok t ↔
  interest_ok (vault_at s id) ∧ t = sum_interest (vault_at s id) (depositors (vault_at s id)).
Proof.
  unfold _calculateTotalInterest, interest_ok.
  rewrite totalInterest_loop_Ok by apply MAX_UINT256_pos.
  rewrite N.add_0_l. split.
  - intros (? & -> & ?). done.
  - intros ((? & ?) & ->). done.
Qed.

Lemma calculateTotalInterest_is_ok (s : State) (id : N) :
  is_ok (_calculateTotalInterest s id) = true ↔ interest_ok (vault_at s id).
Proof.
  split.
  - destruct (_calculateTotalInterest s id) as [t| | |] eqn:E; try discriminate.
    intros _. by apply calculateTotalInterest_Ok in E as [? _].
  - intros H.
    assert (_calculateTotalInterest s id
            = Ok (sum_interest (vault_at s id) (depositors (vault_at s id)))) as ->
      by by apply calculateTotalInterest_Ok.
    done.
Qed.

(** ** Removing a depositor by swap-and-pop *)

Lemma find_depositor_Some (ds : list address) (a : address) (i j : nat) :
  find_depositor ds a i = Some j →
  ∃ k, j = (i + k)%nat ∧ ds !! k = Some a.
Proof.
  revert i. induction ds as [|d ds IH]; intros i; simpl; [done|].
  destruct (N.eqb_spec d a) as [->|Hne].
  - intros [= <-]. exists 0%nat. split; [lia | done].
  - intros H. apply IH in H as (k & -> & Hk). exists (S k). split; [lia | done].
Qed.

Lemma find_depositor_None (ds : list address) (a : address) (i : nat) :
  find_depositor ds a i = None → a ∉ ds.
Proof.
  revert i. induction ds as [|d ds IH]; intros i; simpl.
  - intros _. apply not_elem_of_nil.
  - destruct (N.eqb_spec d a) as [->|Hne]; [done|].
    intros H. apply IH in H. rewrite elem_of_cons. intros [?|?]; congruence.
Qed.

Lemma swap_and_pop_perm (ds : list address) (i : nat) (a : address) :
  ds !! i = Some a → ds ≡ₚ a :: swap_and_pop ds i.
Proof.
  intros Hi. unfold swap_and_pop.
  destruct (list_elem_of_split_length ds i a Hi) as (l1 & l2 & -> & ->).
  destruct (decide (l2 = [])) as [->|Hl2].
  - rewrite last_snoc. rewrite list_insert_id by done.
    rewrite length_app. simpl.
    replace (pred (length l1 + 1)) with (length l1) by lia.
    rewrite take_app_length. symmetry. apply Permutation_cons_append.
  - destruct (exists_last Hl2) as (l2' & z & ->).
    replace (l1 ++ a :: l2' ++ [z]) with ((l1 ++ a :: l2') ++ [z])
      by (by rewrite <- app_assoc).
    rewrite last_snoc.
    rewrite <- (app_assoc l1 (a :: l2') [z]).
    rewrite insert_app_r_alt by lia.
    replace (length l1 - length l1)%nat with 0%nat by lia. simpl.
    replace (l1 ++ z :: l2' ++ [z]) with ((l1 ++ z :: l2') ++ [z])
      by (by rewrite <- app_assoc).
    rewrite !length_app. simpl. rewrite length_app. simpl.
    replace (pred (length l1 + S (length l2' + 1))) with (length (l1 ++ z :: l2'))
      by (rewrite length_app; simpl; lia).
    rewrite take_app_length.
    rewrite <- !Permutation_middle. by rewrite app_nil_r.
Qed.

(** ** Sums over the depositors *)

Lemma sum_deposits_perm (v : VaultInfo) (l1 l2 : list address) :
  l1 ≡ₚ l2 → sum_deposits v l1 = sum_deposits v l2.
Proof. induction 1; simpl; lia. Qed.

Lemma sum_interest_perm (v : VaultInfo) (l1 l2 : list address) :
  l1 ≡ₚ l2 → sum_interest v l1 = sum_interest v l2.
Proof. induction 1; simpl; lia. Qed.

Lemma sum_deposits_ext (v v' : VaultInfo) (ds : list address) :
  (∀ d, d ∈ ds → deposit_of v' d = deposit_of v d) →
  sum_deposits v' ds = sum_deposits v ds.
Proof.
  induction ds as [|d ds IH]; intros H; simpl; [done|].
  rewrite H by apply list_elem_of_here.
  rewrite IH; [done|]. intros d' Hd'. apply H. by apply list_elem_of_further.
Qed.

Lemma sum_interest_ext (v v' : VaultInfo) (ds : list address) :
  interestRate v' = interestRate v → duration v' = duration v →
  (∀ d, d ∈ ds → deposit_of v' d = deposit_of v d) →
  sum_interest v' ds = sum_interest v ds.
Proof.
  intros Hr Hd. induction ds as [|d ds IH]; intros H; simpl; [done|].
  unfold vault_interest at 1. rewrite Hr, Hd, H by apply list_elem_of_here.
  fold (vault_interest v d).
  rewrite IH; [done|]. intros d' Hd'. apply H. by apply list_elem_of_further.
Qed.

Lemma sum_deposits_app (v : VaultInfo) (l1 l2 : list address) :
  sum_deposits v (l1 ++ l2) = sum_deposits v l1 + sum_deposits v l2.
Proof. induction l1 as [|d l1 IH]; simpl; lia. Qed.

Lemma sum_deposits_elem (v : VaultInfo) (ds : list address) (a : address) :
  a ∈ ds → deposit_of v a ≤ sum_deposits v ds.
Proof.
  induction ds as [|d ds IH]; [by intros ?%elem_of_nil|].
  rewrite elem_of_cons. intros [->|H]; simpl; [lia|]. specialize (IH H). lia.
Qed.

(** ** Reading the storage after an update *)

Lemma vault_at_set_vault (s : State) (id id' : N) (v : VaultInfo) :
  vault_at (set_vault s id v) id' = if decide (id = id') then v else vault_at s id'.
Proof.
  unfold vault_at, set_vault. simpl. rewrite lookup_insert.
  by destruct (decide (id = id')).
Qed.

Lemma vault_at_set_vault_eq (s : State) (id : N) (v : VaultInfo) :
  vault_at (set_vault s id v) id = v.
Proof. rewrite vault_at_set_vault. by rewrite decide_True. Qed.

Lemma vault_at_set_vault_ne (s : State) (id id' : N) (v : VaultInfo) :
  id ≠ id' → vault_at (set_vault s id v) id' = vault_at s id'.
Proof. intros. rewrite vault_at_set_vault. by rewrite decide_False. Qed.

Lemma deposit_of_set_deposit (v : VaultInfo) (a a' : address) (x : N) :
  deposit_of (set_deposit v a x) a' = if decide (a = a') then x else deposit_of v a'.
Proof.
  unfold deposit_of, set_deposit. simpl. rewrite lookup_insert.
  by destruct (decide (a = a')).
Qed.

Lemma claimable_set_claimable (s : State) (id id' : N) (a a' : address) (x : N) :
  claimable (set_claimable s id a x) id' a'
  = if decide (id = id' ∧ a = a') then x else claimable s id' a'.
Proof.
  unfold claimable, set_claimable. simpl. rewrite lookup_insert.
  destruct (decide ((id, a) = (id', a'))) as [[= -> ->]|Hne].
  - by rewrite decide_True.
  - rewrite decide_False; [done|]. intros [-> ->]. done.
Qed.

Lemma set_balance_same (s : State) : set_balance s (balance s) = s.
Proof. by destruct s. Qed.

(** ** Effects *)

Lemma payments_to_app (a : address) (l1 l2 : list Effect) :
  payments_to a (l1 ++ l2) = payments_to a l1 ++ payments_to a l2.
Proof. apply omap_app. Qed.

Lemma payments_to_payout (tok who : address) (amount : N) (ev : Event) :
  payments_to who [payout_effect tok who amount; Emit ev] = [amount].
Proof.
  unfold payout_effect, payments_to. destruct (tok =? 0); simpl; by rewrite N.eqb_refl.
Qed.

Lemma selections_app (id : N) (l1 l2 : list Effect) :
  selections id (l1 ++ l2) = (selections id l1 + selections id l2)%nat.
Proof.
  induction l1 as [|eff l1 IH]; simpl; [done|].
  destruct (is_selection id eff); simpl; lia.
Qed.

(** ** [createVault] and [deposit] *)

Lemma createVault_Ok (s : State) (e : Env) (n : string) (t d r : N)
    (s' : State) (effs : list Effect) :
  createVault s e n t d r = Ok (s', effs) →
  msg_sender e = adminWallet s ∧ 0 < r ∧
  let old := vault_at s (vaultCount s) in
  s' = mkState (claimableAmounts s)
         (<[vaultCount s :=
              mkVaultInfo n t (totalDeposits old) (block_timestamp e) d r true
                          (winnerSelected old) (winner old) (depositors old) (deposits old)]>
            (vaults s))
         (vaultCount s + 1) (adminWallet s) (owner s) (balance s).
Proof.
  unfold createVault, onlyAdmin. intros H. inv_ok H. injection H as <- <-.
  apply N.eqb_eq in E. apply N.ltb_lt in E0. done.
Qed.

Lemma deposit_Ok (s : State) (e : Env) (id amt val : N) (s' : State) (effs : list Effect) :
  deposit s e id amt val = Ok (s', effs) →
  let v := vault_at s id in
  ∃ x : N,
    active v = true
    ∧ creationTime v + duration v ≤ MAX_UINT256
    ∧ block_timestamp e < creationTime v + duration v
    ∧ 0 < x
    ∧ x = (if token v =? 0 then val else amt)
    ∧ s' = set_balance (set_vault s id (credit v (msg_sender e) x)) (balance s + val).
Proof.
  intros H v. unfold deposit in H. fold v in H.
  inv_ok H. destruct x as [x calls]. inv_ok H. injection H as <- <-.
  exists x. apply N.ltb_lt in E1.
  assert (0 < x ∧ x = (if token v =? 0 then val else amt)) as [Hx Hx'].
  { destruct (token v =? 0); inv_ok E2; injection E2 as <- <-;
      match goal with Hpos : (0 <? _) = true |- _ => apply N.ltb_lt in Hpos end; done. }
  done.
Qed.

Lemma deposit_of_credit (v : VaultInfo) (who a : address) (x : N) :
  deposit_of (credit v who x) a
  = if decide (who = a) then deposit_of v who + x else deposit_of v a.
Proof.
  unfold credit, deposit_of. simpl. rewrite lookup_insert.
  by destruct (decide (who = a)).
Qed.

Lemma depositors_credit (v : VaultInfo) (who : address) (x : N) :
  depositors (credit v who x)
  = if deposit_of v who =? 0 then depositors v ++ [who] else depositors v.
Proof. reflexivity. Qed.

Lemma totalDeposits_credit (v : VaultInfo) (who : address) (x : N) :
  totalDeposits (credit v who x) = totalDeposits v + x.
Proof. reflexivity. Qed.

Lemma credit_ok (v : VaultInfo) (who : address) (x : N) :
  0 < x → vault_ok v → vault_ok (credit v who x).
Proof.
  intros Hx [Hnd Hl Ht].
  assert (∀ l, who ∉ l → sum_deposits (credit v who x) l = sum_deposits v l) as Hframe.
  { intros l Hl'. apply sum_deposits_ext. intros d Hd.
    rewrite deposit_of_credit, decide_False; [done | congruence]. }
  constructor; rewrite ?depositors_credit, ?totalDeposits_credit.
  - destruct (N.eqb_spec (deposit_of v who) 0) as [Hz|Hnz]; [|done].
    apply NoDup_app. split_and!; [done| |apply NoDup_singleton].
    intros a Ha ->%list_elem_of_singleton. apply Hl in Ha. lia.
  - intros a. rewrite deposit_of_credit.
    destruct (N.eqb_spec (deposit_of v who) 0) as [Hz|Hnz].
    + rewrite elem_of_app, list_elem_of_singleton, Hl.
      destruct (decide (who = a)) as [->|Hne]; [split; [lia | by right]|].
      split; [intros [?|?]; [done | congruence] | by left].
    + rewrite Hl. destruct (decide (who = a)) as [->|Hne]; [lia | done].
  - destruct (N.eqb_spec (deposit_of v who) 0) as [Hz|Hnz].
    + rewrite sum_deposits_app. simpl. rewrite deposit_of_credit, decide_True by done.
      rewrite Hframe; [lia|]. rewrite Hl. lia.
    + assert (who ∈ depositors v) as Hin by (rewrite Hl; lia).
      apply list_elem_of_split in Hin as (l1 & l2 & Hsplit).
      rewrite Hsplit in *. rewrite Ht.
      apply NoDup_app in Hnd as (_ & Hnd1 & [Hnd2 _]%NoDup_cons).
      rewrite !sum_deposits_app. simpl.
      rewrite deposit_of_credit, decide_True by done.
      rewrite !Hframe; [lia | done |].
      intros Hin. apply (Hnd1 who Hin). apply list_elem_of_here.
Qed.

Lemma deposit_inactive (s : State) (e : Env) (id amt val : N) :
  active (vault_at s id) = false → deposit s e id amt val = Revert "Vault is not active".
Proof. intros H. unfold deposit. by rewrite H. Qed.

(** ** [_selectWinner] and the settlement step of [withdraw] *)

Lemma setClaimable_loop_other (v : VaultInfo) (id t : N) (ds : list address)
    (c c' : gmap (N * N) N) (id' : N) (a : address) :
  setClaimable_loop v id t ds c = Ok c' → id' ≠ id → c' !! (id', a) = c !! (id', a).
Proof.
  revert c. induction ds as [|d ds IH]; intros c; simpl.
  - by intros [= <-].
  - intros H Hne. inv_ok H. rewrite (IH _ H Hne).
    rewrite lookup_insert_ne; [done|]. intros [= -> _]. done.
Qed.

Lemma selectWinner_Ok (s : State) (e : Env) (id : N) (s1 : State) (effs : list Effect) :
  _selectWinner s e id = Ok (s1, effs) →
  let v := vault_at s id in
  winnerSelected v = false ∧
  ∃ (w t : N) (claims : gmap (N * N) N),
    depositors v
      !! N.to_nat (keccak256 e (block_prevrandao e) id (block_timestamp e)
                   mod N.of_nat (length (depositors v))) = Some w
    ∧ _calculateTotalInterest (set_vault s id (set_winner v w)) id = Ok t
    ∧ setClaimable_loop (set_winner v w) id t (depositors v) (claimableAmounts s) = Ok claims
    ∧ s1 = mkState claims (<[id := set_winner v w]> (vaults s)) (vaultCount s)
                   (adminWallet s) (owner s) (balance s)
    ∧ effs = [Emit (WinnerSelected id w t)].
Proof.
  intros H v. unfold _selectWinner in H. fold v in H. inv_ok H.
  apply negb_true_iff in E. split; [done|].
  destruct (depositors v !! _) as [w|] eqn:Hw; [|done].
  inv_ok H. injection H as <- <-.
  exists w, x, x0. done.
Qed.

Lemma set_winner_ok (v : VaultInfo) (w : address) : vault_ok v → vault_ok (set_winner v w).
Proof. intros [H1 H2 H3]. by constructor. Qed.

Lemma settle_if_due_vault (s : State) (e : Env) (id : N) (s1 : State) (effs : list Effect) :
  settle_if_due s e id = Ok (s1, effs) →
  (s1 = s ∧ effs = []) ∨
  (∃ w, vault_at s1 id = set_winner (vault_at s id) w
        ∧ winnerSelected (vault_at s id) = false
        ∧ creationTime (vault_at s id) + duration (vault_at s id) ≤ block_timestamp e).
Proof.
  intros H. unfold settle_if_due in H. inv_ok H.
  destruct (N.leb_spec (creationTime (vault_at s id) + duration (vault_at s id))
                       (block_timestamp e)) as [Hdue|Hearly]; simpl in H.
  - destruct (winnerSelected (vault_at s id)) eqn:Hw; simpl in H.
    + injection H as <- <-. by left.
    + right. apply selectWinner_Ok in H as (_ & w & t & claims & _ & _ & _ & -> & _).
      exists w. split; [|done]. unfold vault_at at 1. simpl. by rewrite lookup_insert_eq.
  - injection H as <- <-. by left.
Qed.

Lemma settle_if_due_other (s : State) (e : Env) (id id' : N) (s1 : State)
    (effs : list Effect) :
  settle_if_due s e id = Ok (s1, effs) → id ≠ id' → vault_at s1 id' = vault_at s id'.
Proof.
  intros H Hne. unfold settle_if_due in H. inv_ok H.
  destruct (_ && _).
  - apply selectWinner_Ok in H as (_ & w & t & claims & _ & _ & _ & -> & _).
    unfold vault_at. simpl. by rewrite lookup_insert_ne.
  - by injection H as <- <-.
Qed.

Lemma settle_if_due_vaultCount (s : State) (e : Env) (id : N) (s1 : State)
    (effs : list Effect) :
  settle_if_due s e id = Ok (s1, effs) → vaultCount s1 = vaultCount s.
Proof.
  intros H. unfold settle_if_due in H. inv_ok H.
  destruct (_ && _).
  - by apply selectWinner_Ok in H as (_ & w & t & claims & _ & _ & _ & -> & _).
  - by injection H as <- <-.
Qed.

Lemma settle_if_due_effects (s : State) (e : Env) (id : N) (s1 : State)
    (effs : list Effect) :
  settle_if_due s e id = Ok (s1, effs) →
  (s1 = s ∧ effs = []) ∨
  (∃ w t, effs = [Emit (WinnerSelected id w t)]
          ∧ winnerSelected (vault_at s id) = false
          ∧ vault_at s1 id = set_winner (vault_at s id) w).
Proof.
  intros H. unfold settle_if_due in H. inv_ok H.
  destruct (_ && _).
  - right. apply selectWinner_Ok in H as (Hw & w & t & claims & _ & _ & _ & -> & ->).
    exists w, t. split_and!; [done..|].
    unfold vault_at at 1. simpl. by rewrite lookup_insert_eq.
  - left. by injection H as <- <-.
Qed.

(** ** [withdraw] *)

Lemma withdraw_unfold (s : State) (e : Env) (id : N) :
  withdraw s e id =
  (require (active (vault_at s id)) "Vault inactive";;
   require (0 <? deposit_of (vault_at s id) (msg_sender e)) "No deposit";;
   '(s1, effs1) ← settle_if_due s e id;
   claim_and_pay s1 e id effs1).
Proof.
  unfold withdraw, settle_if_due, claim_and_pay, after_withdraw, debit, amountToClaim.
  destruct (active (vault_at s id)); [|done]. simpl.
  destruct (0 <? deposit_of (vault_at s id) (msg_sender e)); [|done]. simpl.
  destruct (checked_add (creationTime (vault_at s id)) (duration (vault_at s id)))
    as [endTime| | |]; [|done..]. simpl.
  destruct ((endTime <=? block_timestamp e) && negb (winnerSelected (vault_at s id)));
    simpl.
  - destruct (_selectWinner s e id) as [[s1 effs1]| | |]; [|done..]. simpl.
    destruct (token (vault_at s1 id) =? 0);
      match goal with |- context [require ?c ?r] => destruct c end; simpl; try done;
      unfold checked_sub;
      by destruct (deposit_of (vault_at s1 id) (msg_sender e) <=? totalDeposits (vault_at s1 id)).
  - destruct (token (vault_at s id) =? 0);
      match goal with |- context [require ?c ?r] => destruct c end; simpl; try done;
      unfold checked_sub;
      by destruct (deposit_of (vault_at s id) (msg_sender e) <=? totalDeposits (vault_at s id)).
Qed.

Lemma withdraw_Ok (s : State) (e : Env) (id : N) (s' : State) (effs : list Effect) :
  withdraw s e id = Ok (s', effs) →
  active (vault_at s id) = true
  ∧ 0 < deposit_of (vault_at s id) (msg_sender e)
  ∧ ∃ s1 effs1, settle_if_due s e id = Ok (s1, effs1)
                ∧ claim_and_pay s1 e id effs1 = Ok (s', effs).
Proof.
  rewrite withdraw_unfold. intros H. inv_ok H. destruct x as [s1 effs1].
  apply N.ltb_lt in E0. eauto 10.
Qed.

Lemma withdraw_inactive (s : State) (e : Env) (id : N) :
  active (vault_at s id) = false → withdraw s e id = Revert "Vault inactive".
Proof. intros H. unfold withdraw. by rewrite H. Qed.

Lemma after_withdraw_vault (s1 : State) (id : N) (who : address) :
  let v1 := vault_at s1 id in
  who ∈ depositors v1 →
  ∃ ds', vault_at (after_withdraw s1 id who) id = set_depositors (debit v1 who) ds'
         ∧ depositors v1 ≡ₚ who :: ds'.
Proof.
  intros v1 Hin. unfold after_withdraw, _removeDepositor.
  set (s2 := set_claimable (set_vault s1 id (debit (vault_at s1 id) who)) id who 0).
  assert (vault_at s2 id = debit v1 who) as Hv2.
  { unfold s2, vault_at, set_claimable. simpl. by rewrite lookup_insert_eq. }
  rewrite Hv2. change (depositors (debit v1 who)) with (depositors v1).
  destruct (find_depositor (depositors v1) who 0) as [i|] eqn:Hfind.
  - apply find_depositor_Some in Hfind as (k & -> & Hk). simpl.
    exists (swap_and_pop (depositors v1) k). split.
    + unfold vault_at, set_vault. simpl. by rewrite lookup_insert_eq.
    + by apply swap_and_pop_perm.
  - by apply find_depositor_None in Hfind.
Qed.

Lemma after_withdraw_vault_any (s1 : State) (id : N) (who : address) :
  ∃ ds', vault_at (after_withdraw s1 id who) id
         = set_depositors (debit (vault_at s1 id) who) ds'.
Proof.
  unfold after_withdraw, _removeDepositor.
  set (s2 := set_claimable (set_vault s1 id (debit (vault_at s1 id) who)) id who 0).
  assert (vault_at s2 id = debit (vault_at s1 id) who) as Hv2.
  { unfold s2, vault_at, set_claimable. simpl. by rewrite lookup_insert_eq. }
  rewrite Hv2. destruct (find_depositor _ who 0) as [i|].
  - eexists. by rewrite vault_at_set_vault_eq.
  - exists (depositors (vault_at s1 id)). rewrite Hv2. by destruct (vault_at s1 id).
Qed.

Lemma after_withdraw_other (s1 : State) (id id' : N) (who : address) :
  id ≠ id' → vault_at (after_withdraw s1 id who) id' = vault_at s1 id'.
Proof.
  intros Hne. unfold after_withdraw, _removeDepositor.
  set (s2 := set_claimable (set_vault s1 id (debit (vault_at s1 id) who)) id who 0).
  assert (vault_at s2 id' = vault_at s1 id') as Hv2.
  { unfold s2, vault_at, set_claimable. simpl. by rewrite lookup_insert_ne. }
  destruct (find_depositor _ who 0); [|done].
  by rewrite vault_at_set_vault_ne.
Qed.

Lemma after_withdraw_claimable (s1 : State) (id id' : N) (who a : address) :
  claimable (after_withdraw s1 id who) id' a
  = if decide (id = id' ∧ who = a) then 0 else claimable s1 id' a.
Proof.
  unfold after_withdraw, _removeDepositor.
  destruct (find_depositor _ who 0).
  - change (claimable (set_vault ?s ?i ?v) id' a) with (claimable s id' a).
    by rewrite claimable_set_claimable.
  - by rewrite claimable_set_claimable.
Qed.

Lemma after_withdraw_vaultCount (s1 : State) (id : N) (who : address) :
  vaultCount (after_withdraw s1 id who) = vaultCount s1.
Proof. unfold after_withdraw, _removeDepositor. by destruct (find_depositor _ who 0). Qed.

Lemma after_withdraw_balance (s1 : State) (id : N) (who : address) :
  balance (after_withdraw s1 id who) = balance s1.
Proof. unfold after_withdraw, _removeDepositor. by destruct (find_depositor _ who 0). Qed.

Lemma deposit_of_debit (v : VaultInfo) (who a : address) (ds' : list address) :
  deposit_of (set_depositors (debit v who) ds') a
  = if decide (who = a) then 0 else deposit_of v a.
Proof.
  unfold debit, deposit_of. simpl. rewrite lookup_insert. by destruct (decide (who = a)).
Qed.

Lemma debit_ok (v : VaultInfo) (who : address) (ds' : list address) :
  vault_ok v → depositors v ≡ₚ who :: ds' → vault_ok (set_depositors (debit v who) ds').
Proof.
  intros [Hnd Hl Ht] Hperm.
  assert (NoDup (who :: ds')) as [Hnotin Hnd']%NoDup_cons by by rewrite <- Hperm.
  assert (∀ a, deposit_of (set_depositors (debit v who) ds') a
               = if decide (who = a) then 0 else deposit_of v a) as Hdep.
  { intros a. apply deposit_of_debit. }
  constructor; simpl.
  - done.
  - intros a. rewrite Hdep. destruct (decide (who = a)) as [<-|Hne].
    + split; [done | lia].
    + rewrite <- Hl, Hperm, elem_of_cons. split; [by right | intros [?|?]; [congruence | done]].
  - rewrite Ht, (sum_deposits_perm v _ _ Hperm). simpl.
    rewrite (sum_deposits_ext v (set_depositors (debit v who) ds') ds'); [lia|].
    intros d Hd. rewrite Hdep, decide_False; [done | congruence].
Qed.

Lemma debit_interest_ok (v : VaultInfo) (who : address) (ds' : list address) :
  NoDup (depositors v) → interest_ok v → depositors v ≡ₚ who :: ds' →
  interest_ok (set_depositors (debit v who) ds').
Proof.
  intros Hnd [HF Hsum] Hperm.
  assert (NoDup (who :: ds')) as [Hnotin Hnd']%NoDup_cons by by rewrite <- Hperm.
  assert (∀ d, d ∈ ds' → deposit_of (set_depositors (debit v who) ds') d = deposit_of v d)
    as Hdep.
  { intros d Hd. rewrite deposit_of_debit, decide_False; [done | congruence]. }
  split; simpl.
  - rewrite Hperm in HF. apply Forall_cons in HF as [_ HF].
    rewrite Forall_forall in HF. apply Forall_forall. intros d Hd.
    change (interest_fits (deposit_of (set_depositors (debit v who) ds') d)
                          (interestRate v) (duration v)).
    rewrite Hdep by done. by apply HF.
  - rewrite (sum_interest_perm v _ _ Hperm) in Hsum. simpl in Hsum.
    rewrite (sum_interest_ext v (set_depositors (debit v who) ds') ds');
      [lia | done | done | done].
Qed.

Lemma claim_and_pay_Ok (s1 : State) (e : Env) (id : N) (effs1 : list Effect)
    (s' : State) (effs : list Effect) :
  claim_and_pay s1 e id effs1 = Ok (s', effs) →
  let v1 := vault_at s1 id in
  let who := msg_sender e in
  let amount := amountToClaim s1 id who in
  deposit_of v1 who ≤ totalDeposits v1
  ∧ (∃ b, s' = set_balance (after_withdraw s1 id who) b
          ∧ (token v1 = 0 → amount ≤ balance s1 ∧ b = balance s1 - amount)
          ∧ (token v1 ≠ 0 → b = balance s1))
  ∧ effs = effs1 ++ [payout_effect (token v1) who amount; Emit (Withdrawn id who amount)].
Proof.
  intros H v1 who amount. unfold claim_and_pay in H.
  fold v1 who in H. fold amount in H. unfold payout_effect.
  inv_ok H. split; [done|].
  destruct (N.eqb_spec (token v1) 0) as [Htok|Htok].
  - inv_ok H. injection H as <- <-. apply require_Ok, N.leb_le in E.
    split; [|done]. eexists. split; [reflexivity|].
    rewrite after_withdraw_balance. split; [done|]. intros ?. done.
  - inv_ok H. injection H as <- <-.
    split; [|done]. exists (balance s1). split_and!; [|done|done].
    by rewrite <- (after_withdraw_balance s1 id who), set_balance_same.
Qed.

Lemma claim_and_pay_is_ok (s1 : State) (e : Env) (id : N) (effs1 : list Effect) :
  deposit_of (vault_at s1 id) (msg_sender e) ≤ totalDeposits (vault_at s1 id) →
  is_ok (claim_and_pay s1 e id effs1)
  = can_pay s1 e (token (vault_at s1 id)) (msg_sender e) (amountToClaim s1 id (msg_sender e)).
Proof.
  intros Hle. unfold claim_and_pay, can_pay, checked_sub.
  apply N.leb_le in Hle. rewrite Hle.
  destruct (token (vault_at s1 id) =? 0).
  - destruct (_ <=? balance s1); simpl; [|done].
    by destruct (call_value e _ _).
  - destruct (_ <=? erc20_balanceOf e _ _); simpl; [|done].
    by destruct (erc20_transfer e _ _ _).
Qed.

(** What the sibling path does: [withdraw] goes through only if its transfer
    went through, a native send that the recipient accepted or a
    [safeTransfer] to which the token answered [true]; in every other case
    the transaction reverts and the storage stays as it was. *)
Lemma withdraw_needs_successful_transfer (s : State) (e : Env) (id : N) (s' : State)
    (effs : list Effect) :
  withdraw s e id = Ok (s', effs) →
  ∃ amount,
    payments_to (msg_sender e) effs = [amount]
    ∧ if token (vault_at s id) =? 0
      then call_value e (msg_sender e) amount = true
      else erc20_transfer e (token (vault_at s id)) (msg_sender e) amount = ReturnsTrue.
Proof.
  intros H. apply withdraw_Ok in H as (_ & _ & s1 & effs1 & Hsettle & Hpay).
  assert (token (vault_at s1 id) = token (vault_at s id)) as Htok.
  { by destruct (settle_if_due_vault s e id s1 effs1 Hsettle) as [[-> _]|(w & -> & _)]. }
  assert (payments_to (msg_sender e) effs1 = []) as Hnone.
  { by destruct (settle_if_due_effects s e id s1 effs1 Hsettle)
      as [[_ ->]|(w & t & -> & _)]. }
  exists (amountToClaim s1 id (msg_sender e)). split.
  - apply claim_and_pay_Ok in Hpay as (_ & _ & ->).
    by rewrite payments_to_app, Hnone, payments_to_payout.
  - unfold claim_and_pay in Hpay. rewrite Htok in Hpay. inv_ok Hpay.
    destruct (token (vault_at s id) =? 0); inv_ok Hpay; [done|].
    by destruct (erc20_transfer e _ _ _).
Qed.

(** ** [deleteVault] and the calls made back into the contract *)

Lemma exec_call_flat (reenter : Reenter_handler) (s : State) (e : Env) (c : Call) :
  is_deleteVault c = false → exec_call reenter s e c = exec s e c.
Proof. by destruct c. Qed.

Lemma exec_frame_unfold (e : Env) (sender : address) (c : Call)
    (deeper : nat → list Reentry) (s : State) :
  exec_frame e (Reenter sender c deeper) s
  = exec_call (λ i st, run_frames e (deeper i) st) s (frame e sender deeper) c.
Proof. reflexivity. Qed.

(** Induction on the call frames, the nested ones first. *)
Lemma Reentry_nested_ind (P : Reentry → Prop) :
  (∀ sender c deeper, (∀ i, Forall P (deeper i)) → P (Reenter sender c deeper)) →
  ∀ n, P n.
Proof.
  intros H. fix IH 1. intros [sender c deeper]. apply H. intros i.
  induction (deeper i) as [|n l IHl]; constructor; [apply IH | exact IHl].
Qed.

Lemma frames_ok_any (n : Reentry) : frames_ok (λ _, True) n.
Proof.
  induction n as [sender c deeper IH] using Reentry_nested_ind.
  constructor; [done|]. intros i n Hin.
  specialize (IH i). rewrite Forall_forall in IH. by apply IH.
Qed.

Lemma deleteVault_body_Ok (reenter : Reenter_handler) (s : State) (e : Env) (id : N)
    (s' : State) (effs : list Effect) :
  deleteVault_body reenter s e id = Ok (s', effs) →
  msg_sender e = adminWallet s
  ∧ active (vault_at s id) = true
  ∧ ∃ effs0,
      deleteVault_loop reenter e id (loop_gas e) 0
                       (set_vault s id (set_active (vault_at s id) false)) []
      = Ok (s', effs0)
      ∧ effs = effs0 ++ [Emit (VaultDeleted id)].
Proof.
  unfold deleteVault_body, onlyAdmin. intros H. inv_ok H.
  destruct x as [s1 effs0]. injection H as <- <-.
  apply N.eqb_eq in E. eauto 10.
Qed.

(** One turn of the loop of [deleteVault]. *)
Lemma deleteVault_loop_turn (reenter : Reenter_handler) (e : Env) (id : N) (gas i : nat)
    (s : State) (effs : list Effect) (s' : State) (effs' : list Effect) :
  deleteVault_loop reenter e id (S gas) i s effs = Ok (s', effs') →
  (depositors (vault_at s id) !! i = None ∧ s' = s ∧ effs' = effs)
  ∨ ∃ d, depositors (vault_at s id) !! i = Some d ∧
      ( (deposit_of (vault_at s id) d = 0
         ∧ deleteVault_loop reenter e id gas (S i) s effs = Ok (s', effs'))
      ∨ ∃ total s1,
          0 < deposit_of (vault_at s id) d
          ∧ s1 = set_vault s id (set_deposit (vault_at s id) d 0)
          ∧ ( (token (vault_at s id) = 0
               ∧ total ≤ balance s
               ∧ call_value e d total = true
               ∧ ∃ s2, s2 = set_balance s1 (balance s - total)
                       ∧ deleteVault_loop reenter e id gas (S i) (reenter i s2).1
                           (effs ++ SendValue d total :: (reenter i s2).2)
                         = Ok (s', effs'))
            ∨ (token (vault_at s id) ≠ 0
               ∧ ∃ returned,
                   deleteVault_loop reenter e id gas (S i) s1
                     (effs ++ [TokenTransfer (token (vault_at s id)) d total returned])
                   = Ok (s', effs')) ) ).
Proof.
  intros H. cbn [deleteVault_loop] in H.
  destruct (depositors (vault_at s id) !! i) as [d|]; [|injection H as <- <-; by left].
  right. exists d. split; [done|].
  destruct (N.ltb_spec 0 (deposit_of (vault_at s id) d)) as [Hpos|Hzero].
  - right. inv_ok H. cbn [token set_deposit balance set_vault] in H.
    exists (deposit_of (vault_at s id) d + x0), (set_vault s id (set_deposit (vault_at s id) d 0)).
    split; [done|]. split; [done|].
    destruct (N.eqb_spec (token (vault_at s id)) 0) as [Htok|Htok].
    + left. inv_ok H. apply andb_true_iff in E2 as [Hle Hcall]. apply N.leb_le in Hle.
      split_and!; [done..|]. eexists. split; [reflexivity|]. exact H.
    + right. inv_ok H. split; [done|]. by exists x1.
  - left. split; [lia | done].
Qed.

(** ** A proof principle for transactions with calls back

    To show that every transaction takes a storage in [P] to a storage in
    [P], related to the first by [R] together with the effects, it is enough
    to show it for the entry points that make no call out without the guard,
    and for the assignments [deleteVault] makes itself; the calls made back
    into the contract during [deleteVault] are covered by induction on the
    call frames.  [J id] is what the loop of [deleteVault id] relies on
    between two turns. *)
Section Sound.
Context (P : State → Prop) (R : State → list Effect → State → Prop).
Context (Eok : Env → Prop) (Q : address → Prop) (J : uint256 → State → Prop).

Hypothesis R_refl : ∀ s, R s [] s.
Hypothesis R_trans : ∀ s1 l1 s2 l2 s3, R s1 l1 s2 → R s2 l2 s3 → R s1 (l1 ++ l2) s3.
Hypothesis Eok_frame : ∀ e a d, Eok e → Q a → Eok (frame e a d).
Hypothesis J_frame : ∀ e n s s' effs id,
  exec_frame e n s = Ok (s', effs) → J id s → J id s'.
Hypothesis flat_ok : ∀ s e c s' effs,
  Eok e → P s → is_deleteVault c = false → exec s e c = Ok (s', effs) →
  P s' ∧ R s effs s'.
Hypothesis deactivate_ok : ∀ s e id,
  Eok e → P s → msg_sender e = adminWallet s → active (vault_at s id) = true →
  P (set_vault s id (set_active (vault_at s id) false))
  ∧ R s [] (set_vault s id (set_active (vault_at s id) false))
  ∧ J id (set_vault s id (set_active (vault_at s id) false)).
Hypothesis zero_ok : ∀ s id d,
  P s → J id s →
  P (set_vault s id (set_deposit (vault_at s id) d 0))
  ∧ R s [] (set_vault s id (set_deposit (vault_at s id) d 0))
  ∧ J id (set_vault s id (set_deposit (vault_at s id) d 0)).
Hypothesis send_ok : ∀ s id d amount,
  P s → J id s → amount ≤ balance s →
  P (set_balance s (balance s - amount))
  ∧ R s [SendValue d amount] (set_balance s (balance s - amount))
  ∧ J id (set_balance s (balance s - amount)).
Hypothesis token_ok : ∀ s tok d amount returned,
  P s → R s [TokenTransfer tok d amount returned] s.
Hypothesis deleted_ok : ∀ s id, P s → R s [Emit (VaultDeleted id)] s.

Lemma deleteVault_loop_sound (reenter : Reenter_handler) (e : Env) (id : N) (gas i : nat)
    (s : State) (effs : list Effect) (s' : State) (effs' : list Effect) :
  handler_ok P R J reenter →
  P s → J id s →
  deleteVault_loop reenter e id gas i s effs = Ok (s', effs') →
  ∃ added, effs' = effs ++ added ∧ P s' ∧ R s added s' ∧ J id s'.
Proof.
  intros Hre. revert i s effs.
  induction gas as [|gas IH]; intros i s effs HP HJ H; [done|].
  apply deleteVault_loop_turn in H
    as [(_ & -> & ->)|(d & _ & [(_ & H)|(total & s1 & _ & -> & Hpay)])].
  - exists []. by rewrite app_nil_r.
  - by apply IH in H.
  - destruct (zero_ok s id d HP HJ) as (HP1 & HR1 & HJ1).
    destruct Hpay as [(_ & Hle & _ & s2 & -> & H)|(_ & returned & H)].
    + destruct (send_ok _ id d total HP1 HJ1 Hle) as (HP2 & HR2 & HJ2).
      destruct (Hre i _ HP2) as (HP3 & HR3 & HJ3).
      apply IH in H as (added & -> & HP' & HR' & HJ'); [|done | by apply HJ3].
      exists (SendValue d total :: (reenter i (set_balance
                (set_vault s id (set_deposit (vault_at s id) d 0))
                (balance s - total))).2 ++ added).
      split; [by rewrite <- app_assoc|]. split; [done|]. split; [|done].
      apply (R_trans _ [] _ _ _ HR1).
      apply (R_trans _ [SendValue d total] _ _ _ HR2).
      by apply (R_trans _ _ _ _ _ HR3).
    + apply IH in H as (added & -> & HP' & HR' & HJ'); [|done..].
      exists (TokenTransfer (token (vault_at s id)) d total returned :: added).
      split; [by rewrite <- app_assoc|]. split; [done|]. split; [|done].
      apply (R_trans _ [] _ _ _ HR1).
      by apply (R_trans _ [TokenTransfer _ _ _ _] _ _ _ (token_ok _ _ _ _ _ HP1)).
Qed.

Lemma deleteVault_body_sound (reenter : Reenter_handler) (s : State) (e : Env) (id : N)
    (s' : State) (effs : list Effect) :
  handler_ok P R J reenter → Eok e → P s →
  deleteVault_body reenter s e id = Ok (s', effs) →
  P s' ∧ R s effs s' ∧ J id s'.
Proof.
  intros Hre He HP H.
  apply deleteVault_body_Ok in H as (Hadmin & Hact & effs0 & Hloop & ->).
  destruct (deactivate_ok s e id He HP Hadmin Hact) as (HP0 & HR0 & HJ0).
  apply deleteVault_loop_sound in Hloop as (added & -> & HP' & HR' & HJ'); [|done..].
  split; [done|]. split; [|done]. simpl.
  apply (R_trans _ [] _ _ _ HR0). apply (R_trans _ _ _ _ _ HR'). by apply deleted_ok.
Qed.

Lemma run_frames_sound (e : Env) (l : list Reentry) :
  Forall (λ n, ∀ s s' effs, P s → exec_frame e n s = Ok (s', effs) → P s' ∧ R s effs s') l →
  ∀ st, P st →
    P (run_frames e l st).1
    ∧ R st (run_frames e l st).2 (run_frames e l st).1
    ∧ ∀ id, J id st → J id (run_frames e l st).1.
Proof.
  induction 1 as [|n l Hn Hl IH]; intros st HP; cbn [run_frames].
  - by split_and!.
  - fold (run_frames e).
    destruct (exec_frame e n st) as [[st' effs]| | |] eqn:E; [|by apply IH..].
    destruct (Hn st st' effs HP E) as [HP' HR'].
    destruct (IH st' HP') as (HP'' & HR'' & HJ''). simpl.
    split_and!; [done | by apply (R_trans _ _ _ _ _ HR') |].
    intros id HJ. apply HJ''. by apply (J_frame e n st st' effs).
Qed.

Theorem exec_frame_sound (e : Env) (n : Reentry) :
  Eok e → frames_ok Q n →
  ∀ s s' effs, P s → exec_frame e n s = Ok (s', effs) → P s' ∧ R s effs s'.
Proof.
  intros He. induction n as [sender c deeper IH] using Reentry_nested_ind.
  intros Hok s s' effs HP H. inversion Hok as [? ? ? Hsender Hdeeper]; subst.
  rewrite exec_frame_unfold in H.
  assert (Eok (frame e sender deeper)) as He' by by apply Eok_frame.
  destruct (is_deleteVault c) eqn:Hc.
  - destruct c; try done. cbn [exec_call] in H.
    apply deleteVault_body_sound in H as (? & ? & _); [done| |done..].
    intros i st HPst. apply run_frames_sound; [|done].
    specialize (IH i). rewrite Forall_forall in IH |- *.
    intros n Hin. apply IH; [done|]. by apply (Hdeeper i).
  - rewrite exec_call_flat in H by done. by apply (flat_ok s (frame e sender deeper) c).
Qed.

Lemma reentry_handler_ok (e : Env) :
  Eok e → (∀ i n, n ∈ reentry e i → frames_ok Q n) →
  handler_ok P R J (λ i st, run_frames e (reentry e i) st).
Proof.
  intros He Hok i st HP. apply run_frames_sound; [|done].
  rewrite Forall_forall. intros n Hin. apply exec_frame_sound; [done|].
  by apply (Hok i).
Qed.

Theorem exec_sound (s : State) (e : Env) (c : Call) (s' : State) (effs : list Effect) :
  Eok e → (is_deleteVault c = true → ∀ i n, n ∈ reentry e i → frames_ok Q n) →
  P s → exec s e c = Ok (s', effs) → P s' ∧ R s effs s'.
Proof.
  intros He Hok HP H.
  destruct (is_deleteVault c) eqn:Hc; [|by apply (flat_ok s e c)].
  destruct c; try done. unfold exec in H. cbn [exec_call] in H.
  apply deleteVault_body_sound in H as (? & ? & _); [done| |done..].
  apply reentry_handler_ok; [done | by apply Hok].
Qed.

Theorem deleteVault_sound (s : State) (e : Env) (id : N) (s' : State)
    (effs : list Effect) :
  Eok e → (∀ i n, n ∈ reentry e i → frames_ok Q n) →
  P s → deleteVault s e id = Ok (s', effs) → P s' ∧ R s effs s' ∧ J id s'.
Proof.
  intros He Hok HP H. unfold deleteVault in H.
  apply deleteVault_body_sound in H; [done| |done..].
  by apply reentry_handler_ok.
Qed.
End Sound.

(** ** What one transaction can do to one vault *)

Lemma exec_vault_cases (s : State) (e : Env) (c : Call) (s' : State) (effs : list Effect)
    (id : N) :
  is_deleteVault c = false →
  exec s e c = Ok (s', effs) →
  vaultCount s ≤ vaultCount s' ∧
  ( vault_at s' id = vault_at s id
  ∨ (id = vaultCount s ∧ vaultCount s < vaultCount s' ∧
     ∃ n t d r, vault_at s' id
                = mkVaultInfo n t (totalDeposits (vault_at s id)) (block_timestamp e) d r true
                    (winnerSelected (vault_at s id)) (winner (vault_at s id))
                    (depositors (vault_at s id)) (deposits (vault_at s id)))
  ∨ (active (vault_at s id) = true ∧
     ∃ x, vault_at s' id = credit (vault_at s id) (msg_sender e) x)
  ∨ (active (vault_at s id) = true ∧
     ∃ v1 ds', (v1 = vault_at s id
                ∨ (winnerSelected (vault_at s id) = false
                   ∧ ∃ w, v1 = set_winner (vault_at s id) w))
               ∧ vault_at s' id = set_depositors (debit v1 (msg_sender e)) ds') ).
Proof.
  intros Hflat. destruct c; try done; unfold exec; simpl; intros H.
  - apply createVault_Ok in H as (_ & _ & ->). simpl. split; [lia|].
    destruct (decide (vaultCount s = id)) as [<-|Hne].
    + right; left. split; [done|]. split; [lia|]. unfold vault_at at 1. simpl.
      rewrite lookup_insert_eq. simpl. eauto.
    + left. unfold vault_at. simpl. by rewrite lookup_insert_ne.
  - apply deposit_Ok in H as (x & Hact & _ & _ & _ & _ & ->). simpl. split; [lia|].
    destruct (decide (_vaultId = id)) as [<-|Hne].
    + right; right; left. split; [done|]. exists x. apply vault_at_set_vault_eq.
    + left. by apply vault_at_set_vault_ne.
  - apply withdraw_Ok in H as (Hact & _ & s1 & effs1 & Hsettle & Hpay).
    apply claim_and_pay_Ok in Hpay as (_ & (b & -> & _) & _). simpl.
    rewrite after_withdraw_vaultCount, (settle_if_due_vaultCount _ _ _ _ _ Hsettle).
    split; [lia|].
    destruct (decide (_vaultId = id)) as [<-|Hne].
    + right; right; right. split; [done|].
      destruct (after_withdraw_vault_any s1 _vaultId (msg_sender e)) as (ds' & Hds').
      exists (vault_at s1 _vaultId), ds'. split; [|done].
      destruct (settle_if_due_vault _ _ _ _ _ Hsettle) as [[-> _]|(w & -> & Hw & _)];
        [by left | right; eauto].
    + left. change (vault_at (after_withdraw s1 _vaultId (msg_sender e)) id = vault_at s id).
      rewrite after_withdraw_other by done.
      by apply (settle_if_due_other s e _vaultId id s1 effs1).
  - unfold setAdminWallet in H. inv_ok H. injection H as <- <-. simpl.
    split; [lia | by left].
  - unfold fundContract in H. inv_ok H. injection H as <- <-. simpl.
    split; [lia | by left].
  - unfold fundContractToken in H. inv_ok H. injection H as <- <-.
    split; [lia | by left].
  - unfold transferOwnership in H. inv_ok H. injection H as <- <-. simpl.
    split; [lia | by left].
  - unfold renounceOwnership in H. inv_ok H. injection H as <- <-. simpl.
    split; [lia | by left].
Qed.

(** ** What no execution undoes *)

Lemma evolves_refl (s : State) : evolves s s.
Proof. constructor; [lia | done..]. Qed.

Lemma evolves_trans (s1 s2 s3 : State) : evolves s1 s2 → evolves s2 s3 → evolves s1 s3.
Proof.
  intros [Hc1 Hw1 Ha1 Ht1] [Hc2 Hw2 Ha2 Ht2]. constructor.
  - lia.
  - intros id Hw. destruct (Hw1 id Hw) as [Hw' Heq].
    destruct (Hw2 id Hw') as [? ?]. split; [done | congruence].
  - intros id Hoff Hid. apply Ha2; [by apply Ha1 | lia].
  - intros id Hid. destruct (Ht1 id Hid) as (<- & <- & <- & <- & <-).
    apply Ht2. lia.
Qed.

(** The assignments of [deleteVault] to the vault it deletes: the [active]
    flag is cleared, a principal is zeroed. *)
Lemma evolves_set_vault (s : State) (id : N) (v : VaultInfo) :
  winnerSelected v = winnerSelected (vault_at s id) →
  winner v = winner (vault_at s id) →
  (active v = true → active (vault_at s id) = true) →
  name v = name (vault_at s id) → token v = token (vault_at s id) →
  creationTime v = creationTime (vault_at s id) →
  duration v = duration (vault_at s id) →
  interestRate v = interestRate (vault_at s id) →
  evolves s (set_vault s id v).
Proof.
  intros Hws Hw Hact Hn Ht Hc Hd Hr.
  constructor; [simpl; lia|..]; intros id'; rewrite vault_at_set_vault;
    destruct (decide (id = id')) as [<-|Hne]; try done.
  - intros ?. split; congruence.
  - intros Hoff _. destruct (active v); [|done]. rewrite Hact in Hoff; done.
Qed.

Lemma evolves_set_balance (s : State) (b : N) : evolves s (set_balance s b).
Proof. constructor; [simpl; lia | done..]. Qed.

Lemma flat_evolves (s : State) (e : Env) (c : Call) (s' : State) (effs : list Effect) :
  is_deleteVault c = false → exec s e c = Ok (s', effs) → evolves s s'.
Proof.
  intros Hflat H.
  constructor.
  - by destruct (exec_vault_cases s e c s' effs 0 Hflat H) as [? _].
  - intros id Hw.
    destruct (exec_vault_cases s e c s' effs id Hflat H)
      as [_ [->|[(_ & _ & n & t & d & r & ->)|[(_ & x & ->)|(_ & v1 & ds' & Hv1 & ->)]]]];
      simpl; try done.
    destruct Hv1 as [->|[Hfalse _]]; [done | congruence].
  - intros id Hoff Hid.
    destruct (exec_vault_cases s e c s' effs id Hflat H)
      as [_ [->|[(-> & _)|[(Hon & _)|(Hon & _)]]]]; try congruence; lia.
  - intros id Hid.
    destruct (exec_vault_cases s e c s' effs id Hflat H)
      as [_ [->|[(-> & _)|[(_ & x & ->)|(_ & v1 & ds' & Hv1 & ->)]]]]; try done; [lia|].
    by destruct Hv1 as [->|(_ & w & ->)].
Qed.

(** ** A deleted vault is closed *)

Lemma flat_created (s : State) (e : Env) (c : Call) (s' : State) (effs : list Effect) :
  created_inv s → is_deleteVault c = false → exec s e c = Ok (s', effs) →
  created_inv s' ∧ True.
Proof.
  intros Hinv Hflat H. split; [|done]. intros id.
  destruct (exec_vault_cases s e c s' effs id Hflat H)
    as [Hcount [->|[(-> & Hlt & _)|[(Hon & _)|(Hon & _)]]]]; intros Hact.
  - specialize (Hinv id Hact). lia.
  - done.
  - specialize (Hinv id Hon). lia.
  - specialize (Hinv id Hon). lia.
Qed.

Lemma created_inv_closed_vault (s : State) (id : N) (v : VaultInfo) :
  created_inv s → active v = false → created_inv (set_vault s id v).
Proof.
  intros Hinv Hoff id'. rewrite vault_at_set_vault.
  destruct (decide (id = id')) as [<-|Hne]; [by rewrite Hoff | apply Hinv].
Qed.

Lemma exec_frame_evolves (e : Env) (n : Reentry) (s s' : State) (effs : list Effect) :
  exec_frame e n s = Ok (s', effs) → evolves s s'.
Proof.
  intros H.
  apply (exec_frame_sound (λ _, True) (λ st _ st', evolves st st') (λ _, True) (λ _, True)
           (λ _ _, True)) with (e := e) (n := n) (effs := effs).
  - intros. apply evolves_refl.
  - intros s1 l1 s2 l2 s3. apply evolves_trans.
  - done.
  - done.
  - intros st e' c st' effs' _ _ Hflat Hc. split; [done|].
    by apply (flat_evolves st e' c st' effs').
  - intros st e' id _ _ _ _. split_and!; [done| |done]. by apply evolves_set_vault.
  - intros st id d _ _. split_and!; [done| |done]. by apply evolves_set_vault.
  - intros st id d amount _ _ _. split_and!; [done| |done]. apply evolves_set_balance.
  - intros. apply evolves_refl.
  - intros. apply evolves_refl.
  - done.
  - apply frames_ok_any.
  - done.
  - done.
Qed.

Lemma exec_evolves (s : State) (e : Env) (c : Call) (s' : State) (effs : list Effect) :
  exec s e c = Ok (s', effs) → evolves s s'.
Proof.
  intros H.
  apply (exec_sound (λ _, True) (λ st _ st', evolves st st') (λ _, True) (λ _, True)
           (λ _ _, True)) with (e := e) (c := c) (effs := effs).
  - intros. apply evolves_refl.
  - intros s1 l1 s2 l2 s3. apply evolves_trans.
  - done.
  - done.
  - intros st e' c' st' effs' _ _ Hflat Hc. split; [done|].
    by apply (flat_evolves st e' c' st' effs').
  - intros st e' id _ _ _ _. split_and!; [done| |done]. by apply evolves_set_vault.
  - intros st id d _ _. split_and!; [done| |done]. by apply evolves_set_vault.
  - intros st id d amount _ _ _. split_and!; [done| |done]. apply evolves_set_balance.
  - intros. apply evolves_refl.
  - intros. apply evolves_refl.
  - done.
  - intros _ i n _. apply frames_ok_any.
  - done.
  - done.
Qed.

Lemma step_evolves (s : State) (e : Env) (c : Call) : evolves s (step s e c).
Proof.
  unfold step. destruct (exec s e c) as [[s' effs]| | |] eqn:E; try apply evolves_refl.
  by apply (exec_evolves s e c s' effs).
Qed.

Lemma closed_evolves (s s' : State) (id : N) : evolves s s' → closed id s → closed id s'.
Proof.
  intros [Hc _ Ha _] [Hoff Hid]. split; [by apply Ha | lia].
Qed.

Lemma exec_frame_closed (e : Env) (n : Reentry) (s s' : State) (effs : list Effect) (id : N) :
  exec_frame e n s = Ok (s', effs) → closed id s → closed id s'.
Proof. intros H. apply closed_evolves. by apply (exec_frame_evolves e n s s' effs). Qed.

Lemma closed_set_deposit (s : State) (id : N) (d : address) :
  closed id s → closed id (set_vault s id (set_deposit (vault_at s id) d 0)).
Proof. intros [Hoff Hid]. split; [by rewrite vault_at_set_vault_eq | done]. Qed.

Lemma deleteVault_closes (s : State) (e : Env) (id : N) (s' : State) (effs : list Effect) :
  created_inv s → deleteVault s e id = Ok (s', effs) → created_inv s' ∧ closed id s'.
Proof.
  intros Hinv H.
  destruct (deleteVault_sound created_inv (λ _ _ _, True) (λ _, True) (λ _, True) closed)
    with (s := s) (e := e) (id := id) (s' := s') (effs := effs) as (? & _ & ?).
  - done.
  - done.
  - done.
  - apply exec_frame_closed.
  - intros st e' c' st' effs' _. apply flat_created.
  - intros st e' id' _ Hst _ Hact.
    split_and!; [by apply created_inv_closed_vault | done |].
    split; [by rewrite vault_at_set_vault_eq | by apply Hst].
  - intros st id' d Hst [Hoff Hid].
    split_and!; [by apply created_inv_closed_vault | done | by apply closed_set_deposit].
  - done.
  - done.
  - done.
  - done.
  - intros i n _. apply frames_ok_any.
  - done.
  - done.
  - done.
Qed.

Lemma step_winner_kept (s : State) (e : Env) (c : Call) (id : N) :
  winnerSelected (vault_at s id) = true →
  winnerSelected (vault_at (step s e c) id) = true
  ∧ winner (vault_at (step s e c) id) = winner (vault_at s id).
Proof. apply (ev_winner _ _ (step_evolves s e c)). Qed.

Lemma run_winner_kept (s : State) (tr : list (Env * Call)) (id : N) :
  winnerSelected (vault_at s id) = true →
  winnerSelected (vault_at (run s tr) id) = true
  ∧ winner (vault_at (run s tr) id) = winner (vault_at s id).
Proof.
  revert s. induction tr as [|[e c] tr IH]; intros s Hw; simpl; [done|].
  destruct (step_winner_kept s e c id Hw) as [Hw' Heq].
  destruct (IH _ Hw') as [? ?]. split; [done | congruence].
Qed.

Lemma step_inactive_kept (s : State) (e : Env) (c : Call) (id : N) :
  active (vault_at s id) = false → id < vaultCount s →
  active (vault_at (step s e c) id) = false ∧ id < vaultCount (step s e c).
Proof.
  intros Hoff Hid. by apply (closed_evolves s (step s e c) id (step_evolves s e c)).
Qed.

Lemma run_inactive_kept (s : State) (tr : list (Env * Call)) (id : N) :
  active (vault_at s id) = false → id < vaultCount s →
  active (vault_at (run s tr) id) = false.
Proof.
  revert s. induction tr as [|[e c] tr IH]; intros s Hoff Hid; simpl; [done|].
  destruct (step_inactive_kept s e c id Hoff Hid) as [? ?]. by apply IH.
Qed.

(** ** Every transaction preserves the invariant *)

Lemma vault_inv_frame (s s' : State) (now now' id : N) :
  vault_at s' id = vault_at s id →
  (∀ a, claimable s' id a = claimable s id a) →
  vaultCount s' = vaultCount s →
  now ≤ now' →
  vault_inv s now id → vault_inv s' now' id.
Proof.
  intros Hv Hc Hn Hle [H1 H2 H3 H4 H5 H6 H7].
  constructor; rewrite ?Hv, ?Hn; try done.
  - intros Hid. destruct (H3 Hid) as [? ?]. split; [done|]. intros a. by rewrite Hc.
  - intros Ha Hw a. rewrite Hc. by apply H4.
  - intros Ha Hw. specialize (H5 Ha Hw). lia.
  - intros Ha Hw. rewrite calculateTotalInterest_is_ok, Hv.
    rewrite <- calculateTotalInterest_is_ok. by apply H6.
Qed.

Lemma state_inv_later (s : State) (now now' : N) :
  now ≤ now' → state_inv s now → state_inv s now'.
Proof. intros Hle H id. by apply (vault_inv_frame s s now now' id). Qed.

(** The entry points that leave every vault and every claimable amount as
    they are. *)
Lemma state_inv_same_vaults (s s' : State) (now now' : N) :
  vaults s' = vaults s → claimableAmounts s' = claimableAmounts s →
  vaultCount s' = vaultCount s → now ≤ now' →
  state_inv s now → state_inv s' now'.
Proof.
  intros Hv Hc Hn Hle Hinv id.
  apply (vault_inv_frame s s' now now' id); try done.
  - unfold vault_at. by rewrite Hv.
  - intros a. unfold claimable. by rewrite Hc.
Qed.

Lemma createVault_inv (s : State) (e : Env) (n : string) (t d r : N)
    (s' : State) (effs : list Effect) (now : N) :
  state_inv s now → now ≤ block_timestamp e →
  createVault s e n t d r = Ok (s', effs) →
  state_inv s' (block_timestamp e).
Proof.
  intros Hinv Hnow Hc id.
  apply createVault_Ok in Hc as (_ & _ & ->).
  destruct (decide (vaultCount s = id)) as [<-|Hne].
  - destruct (Hinv (vaultCount s)) as [_ _ H3 _ _ _ _].
    destruct H3 as [Hempty Hclaim]; [lia|].
    rewrite Hempty. simpl.
    constructor; unfold vault_at; simpl; rewrite lookup_insert_eq; simpl.
    + intros _. constructor; simpl.
      * apply NoDup_nil_2.
      * intros a. rewrite elem_of_nil. unfold deposit_of. simpl.
        rewrite lookup_empty. simpl. lia.
      * done.
    + lia.
    + lia.
    + intros _ _ a. apply Hclaim.
    + done.
    + done.
    + intros _ a. unfold deposit_of. simpl. rewrite lookup_empty. simpl. lia.
  - destruct (Hinv id) as [H1 H2 H3 H4 H5 H6 H7].
    assert (vault_at
              (mkState (claimableAmounts s)
                 (<[vaultCount s :=
                      mkVaultInfo n t (totalDeposits (vault_at s (vaultCount s)))
                        (block_timestamp e) d r true
                        (winnerSelected (vault_at s (vaultCount s)))
                        (winner (vault_at s (vaultCount s)))
                        (depositors (vault_at s (vaultCount s)))
                        (deposits (vault_at s (vaultCount s)))]> (vaults s))
                 (vaultCount s + 1) (adminWallet s) (owner s) (balance s)) id
            = vault_at s id) as Hv.
    { unfold vault_at. simpl. by rewrite lookup_insert_ne. }
    constructor; rewrite ?Hv; simpl.
    + done.
    + intros Ha. specialize (H2 Ha). lia.
    + intros Hid. apply H3. lia.
    + done.
    + intros Ha Hw. specialize (H5 Ha Hw). lia.
    + intros Ha Hw. rewrite calculateTotalInterest_is_ok, Hv.
      rewrite <- calculateTotalInterest_is_ok. by apply H6.
    + done.
Qed.

Lemma deposit_inv (s : State) (e : Env) (id amt val : N) (s' : State) (effs : list Effect)
    (now : N) :
  state_inv s now → now ≤ block_timestamp e →
  deposit s e id amt val = Ok (s', effs) →
  state_inv s' (block_timestamp e).
Proof.
  intros Hinv Hnow Hdep id'.
  apply deposit_Ok in Hdep as (x & Hact & Hend & Htime & Hx & _ & ->).
  destruct (decide (id = id')) as [<-|Hne].
  - destruct (Hinv id) as [H1 H2 H3 H4 H5 H6 H7].
    assert (winnerSelected (vault_at s id) = false) as Hunsettled.
    { destruct (winnerSelected (vault_at s id)) eqn:Hw; [|done].
      specialize (H5 Hact eq_refl). lia. }
    set (v' := credit (vault_at s id) (msg_sender e) x).
    assert (vault_at (set_balance (set_vault s id v') (balance s + val)) id = v') as Hv'
      by apply vault_at_set_vault_eq.
    constructor; rewrite ?Hv'; simpl.
    + intros _. apply credit_ok; [done | by apply H1].
    + intros _. by apply H2.
    + intros Hfresh. specialize (H2 Hact). lia.
    + intros _ _ a. by apply H4.
    + unfold v'; simpl. congruence.
    + unfold v'; simpl. congruence.
    + done.
  - apply (vault_inv_frame s _ now); try done.
    apply vault_at_set_vault_ne. done.
Qed.

Lemma selectWinner_inv (s : State) (e : Env) (id : N) (s1 : State) (effs : list Effect)
    (now : N) :
  state_inv s now → now ≤ block_timestamp e →
  creationTime (vault_at s id) + duration (vault_at s id) ≤ block_timestamp e →
  _selectWinner s e id = Ok (s1, effs) →
  state_inv s1 (block_timestamp e).
Proof.
  intros Hinv Hnow Hdue Hsel id'.
  apply selectWinner_Ok in Hsel as (Hw & w & t & claims & Hidx & Hcalc & Hloop & -> & _).
  destruct (decide (id = id')) as [<-|Hne].
  - destruct (Hinv id) as [H1 H2 H3 H4 H5 H6 H7].
    assert (∀ st, vault_at (mkState st (<[id := set_winner (vault_at s id) w]> (vaults s))
                     (vaultCount s) (adminWallet s) (owner s) (balance s)) id
                  = set_winner (vault_at s id) w) as Hv.
    { intros st. unfold vault_at. simpl. by rewrite lookup_insert_eq. }
    constructor; rewrite ?Hv; simpl.
    + intros Ha. apply set_winner_ok. by apply H1.
    + done.
    + intros Hid. destruct (H3 Hid) as [Hempty _].
      rewrite Hempty in Hidx. simpl in Hidx. by rewrite lookup_nil in Hidx.
    + done.
    + done.
    + intros _ _. apply calculateTotalInterest_is_ok. rewrite Hv.
      apply calculateTotalInterest_Ok in Hcalc as [Hok _].
      by rewrite vault_at_set_vault_eq in Hok.
    + done.
  - apply (vault_inv_frame s _ now); try done.
    + unfold vault_at. simpl. by rewrite lookup_insert_ne.
    + intros a. unfold claimable. simpl.
      by rewrite (setClaimable_loop_other _ _ _ _ _ _ _ _ Hloop).
Qed.

Lemma settle_if_due_inv (s : State) (e : Env) (id : N) (s1 : State) (effs : list Effect)
    (now : N) :
  state_inv s now → now ≤ block_timestamp e →
  settle_if_due s e id = Ok (s1, effs) →
  state_inv s1 (block_timestamp e).
Proof.
  intros Hinv Hnow H. unfold settle_if_due in H. inv_ok H.
  destruct (N.leb_spec (creationTime (vault_at s id) + duration (vault_at s id))
                       (block_timestamp e)) as [Hdue|Hearly]; simpl in H.
  - destruct (winnerSelected (vault_at s id)); simpl in H.
    + injection H as <- <-. by apply (state_inv_later s now).
    + by apply (selectWinner_inv s e id s1 effs now).
  - injection H as <- <-. by apply (state_inv_later s now).
Qed.

Lemma claim_and_pay_inv (s1 : State) (e : Env) (id : N) (effs1 : list Effect)
    (s' : State) (effs : list Effect) (now : N) :
  state_inv s1 now →
  active (vault_at s1 id) = true →
  0 < deposit_of (vault_at s1 id) (msg_sender e) →
  claim_and_pay s1 e id effs1 = Ok (s', effs) →
  state_inv s' now.
Proof.
  intros Hinv Hact Hdep H id'.
  apply claim_and_pay_Ok in H as (_ & (b & -> & _) & _).
  destruct (decide (id = id')) as [<-|Hne].
  - destruct (Hinv id) as [H1 H2 H3 H4 H5 H6 H7].
    specialize (H1 Hact).
    assert (msg_sender e ∈ depositors (vault_at s1 id)) as Hin by by apply H1.
    destruct (after_withdraw_vault s1 id (msg_sender e) Hin) as (ds' & Hv & Hperm).
    assert (vault_at (set_balance (after_withdraw s1 id (msg_sender e)) b) id
            = set_depositors (debit (vault_at s1 id) (msg_sender e)) ds') as Hv' by done.
    constructor; rewrite ?Hv'; simpl.
    + intros _. by apply debit_ok.
    + intros _. rewrite after_withdraw_vaultCount. by apply H2.
    + rewrite after_withdraw_vaultCount. specialize (H2 Hact). lia.
    + intros _ Hw a.
      change (claimable (after_withdraw s1 id (msg_sender e)) id a = 0).
      rewrite after_withdraw_claimable. destruct (decide _); [done|]. by apply H4.
    + done.
    + intros _ Hw. apply calculateTotalInterest_is_ok. rewrite Hv'.
      apply debit_interest_ok; [apply H1 | | done].
      apply calculateTotalInterest_is_ok. by apply H6.
    + intros _ a. rewrite deposit_of_debit. destruct (decide _); [lia|]. by apply H7.
  - apply (vault_inv_frame s1 _ now); try done.
    + change (vault_at (after_withdraw s1 id (msg_sender e)) id' = vault_at s1 id').
      by apply after_withdraw_other.
    + intros a.
      change (claimable (after_withdraw s1 id (msg_sender e)) id' a = claimable s1 id' a).
      rewrite after_withdraw_claimable, decide_False; [done|]. intros [? _]. done.
    + apply after_withdraw_vaultCount.
Qed.

Lemma withdraw_inv (s : State) (e : Env) (id : N) (s' : State) (effs : list Effect)
    (now : N) :
  state_inv s now → now ≤ block_timestamp e →
  withdraw s e id = Ok (s', effs) →
  state_inv s' (block_timestamp e).
Proof.
  intros Hinv Hnow H.
  apply withdraw_Ok in H as (Hact & Hdep & s1 & effs1 & Hsettle & Hpay).
  pose proof (settle_if_due_inv s e id s1 effs1 now Hinv Hnow Hsettle) as Hinv1.
  apply (claim_and_pay_inv s1 e id effs1 s' effs); try done.
  - by destruct (settle_if_due_vault s e id s1 effs1 Hsettle)
      as [[-> _]|(w & -> & _)].
  - by destruct (settle_if_due_vault s e id s1 effs1 Hsettle)
      as [[-> _]|(w & -> & _)].
Qed.

(** Writing an inactive record to a created vault keeps the invariant:
    nothing is asked of an inactive vault. *)
Lemma state_inv_closed_vault (s : State) (id : N) (v : VaultInfo) (now : N) :
  state_inv s now → id < vaultCount s → active v = false →
  state_inv (set_vault s id v) now.
Proof.
  intros Hinv Hid Hoff id'.
  destruct (decide (id = id')) as [<-|Hne].
  - constructor; rewrite vault_at_set_vault_eq, ?Hoff; try done.
    simpl. lia.
  - apply (vault_inv_frame s _ now); try done.
    by apply vault_at_set_vault_ne.
Qed.

Lemma setAdminWallet_inv (s : State) (e : Env) (a : address) (s' : State)
    (effs : list Effect) (now : N) :
  state_inv s now → now ≤ block_timestamp e →
  setAdminWallet s e a = Ok (s', effs) → state_inv s' (block_timestamp e).
Proof.
  unfold setAdminWallet. intros Hinv Hnow H. inv_ok H. injection H as <- <-.
  by apply (state_inv_same_vaults s _ now).
Qed.

Lemma fundContract_inv (s : State) (e : Env) (val : N) (s' : State)
    (effs : list Effect) (now : N) :
  state_inv s now → now ≤ block_timestamp e →
  fundContract s e val = Ok (s', effs) → state_inv s' (block_timestamp e).
Proof.
  unfold fundContract. intros Hinv Hnow H. inv_ok H. injection H as <- <-.
  by apply (state_inv_same_vaults s _ now).
Qed.

Lemma fundContractToken_inv (s : State) (e : Env) (t amt : N) (s' : State)
    (effs : list Effect) (now : N) :
  state_inv s now → now ≤ block_timestamp e →
  fundContractToken s e t amt = Ok (s', effs) → state_inv s' (block_timestamp e).
Proof.
  unfold fundContractToken. intros Hinv Hnow H. inv_ok H. injection H as <- <-.
  by apply (state_inv_later s now).
Qed.

Lemma transferOwnership_inv (s : State) (e : Env) (a : address) (s' : State)
    (effs : list Effect) (now : N) :
  state_inv s now → now ≤ block_timestamp e →
  transferOwnership s e a = Ok (s', effs) → state_inv s' (block_timestamp e).
Proof.
  unfold transferOwnership. intros Hinv Hnow H. inv_ok H. injection H as <- <-.
  by apply (state_inv_same_vaults s _ now).
Qed.

Lemma renounceOwnership_inv (s : State) (e : Env) (s' : State)
    (effs : list Effect) (now : N) :
  state_inv s now → now ≤ block_timestamp e →
  renounceOwnership s e = Ok (s', effs) → state_inv s' (block_timestamp e).
Proof.
  unfold renounceOwnership. intros Hinv Hnow H. inv_ok H. injection H as <- <-.
  by apply (state_inv_same_vaults s _ now).
Qed.

Lemma flat_inv (s : State) (e : Env) (c : Call) (s' : State) (effs : list Effect) (now : N) :
  state_inv s now → now ≤ block_timestamp e →
  is_deleteVault c = false →
  exec s e c = Ok (s', effs) →
  state_inv s' (block_timestamp e).
Proof.
  intros Hinv Hnow Hflat. destruct c; try done; unfold exec; simpl.
  - by apply createVault_inv with (now := now).
  - by apply deposit_inv with (now := now).
  - by apply withdraw_inv with (now := now).
  - by apply setAdminWallet_inv with (now := now).
  - by apply fundContract_inv with (now := now).
  - by apply fundContractToken_inv with (now := now).
  - by apply transferOwnership_inv with (now := now).
  - by apply renounceOwnership_inv with (now := now).
Qed.

(** The assignments of [deleteVault] keep the invariant. *)
Lemma inv_deactivate (T : N) (s : State) (id : N) :
  state_inv s T → active (vault_at s id) = true →
  state_inv (set_vault s id (set_active (vault_at s id) false)) T
  ∧ True
  ∧ closed id (set_vault s id (set_active (vault_at s id) false)).
Proof.
  intros Hinv Hact.
  assert (id < vaultCount s) as Hid by by apply (Hinv id).
  split_and!; [by apply state_inv_closed_vault | done |].
  split; [by rewrite vault_at_set_vault_eq | done].
Qed.

Lemma inv_zero (T : N) (s : State) (id : N) (d : address) :
  state_inv s T → closed id s →
  state_inv (set_vault s id (set_deposit (vault_at s id) d 0)) T
  ∧ True
  ∧ closed id (set_vault s id (set_deposit (vault_at s id) d 0)).
Proof.
  intros Hinv [Hoff Hid].
  split_and!; [by apply state_inv_closed_vault | done | by apply closed_set_deposit].
Qed.

Lemma inv_send (T : N) (s : State) (id : N) (amount : N) :
  state_inv s T → closed id s →
  state_inv (set_balance s (balance s - amount)) T
  ∧ True
  ∧ closed id (set_balance s (balance s - amount)).
Proof.
  intros Hinv Hclosed.
  split_and!; [by apply (state_inv_same_vaults s _ T) | done | done].
Qed.

Lemma inv_flat (T : N) (s : State) (e : Env) (c : Call) (s' : State) (effs : list Effect) :
  block_timestamp e = T → state_inv s T → is_deleteVault c = false →
  exec s e c = Ok (s', effs) → state_inv s' T ∧ True.
Proof.
  intros <- Hinv Hflat H. split; [|done].
  apply (flat_inv s e c s' effs (block_timestamp e)); [done | lia | done..].
Qed.

Lemma exec_inv (s : State) (e : Env) (c : Call) (s' : State) (effs : list Effect) (now : N) :
  state_inv s now → now ≤ block_timestamp e →
  exec s e c = Ok (s', effs) →
  state_inv s' (block_timestamp e).
Proof.
  intros Hinv Hnow H.
  apply (exec_sound (λ st, state_inv st (block_timestamp e)) (λ _ _ _, True)
           (λ e', block_timestamp e' = block_timestamp e) (λ _, True) closed)
    with (s := s) (e := e) (c := c) (effs := effs).
  - done.
  - done.
  - done.
  - apply exec_frame_closed.
  - intros st e' c' st' effs'. apply inv_flat.
  - intros st e' id _ Hst _. by apply inv_deactivate.
  - intros st id d. apply inv_zero.
  - intros st id d amount Hst Hclosed _. by apply inv_send.
  - done.
  - done.
  - done.
  - intros _ i n _. apply frames_ok_any.
  - by apply (state_inv_later s now).
  - done.
Qed.

Lemma step_inv (s : State) (e : Env) (c : Call) (now : N) :
  state_inv s now → now ≤ block_timestamp e →
  state_inv (step s e c) (block_timestamp e).
Proof.
  intros Hinv Hnow. unfold step.
  destruct (exec s e c) as [[s' effs]| | |] eqn:E.
  - by apply (exec_inv s e c s' effs now).
  - by apply (state_inv_later s now).
  - by apply (state_inv_later s now).
  - by apply (state_inv_later s now).
Qed.

Lemma constructor_inv (deployer now : N) : state_inv (constructor deployer) now.
Proof.
  intros id. constructor; done.
Qed.

Lemma reachable_inv (s : State) (now : N) : reachable s now → state_inv s now.
Proof.
  induction 1 as [deployer now|s now e c Hreach IH Hnow].
  - apply constructor_inv.
  - by apply step_inv with (now := now).
Qed.

Lemma reachable_run (s : State) (now : N) (tr : list (Env * Call)) :
  reachable s now → time_ordered now tr = true → reachable (run s tr) (end_time now tr).
Proof.
  revert s now. induction tr as [|[e c] tr IH]; intros s now Hreach Hord; simpl in *.
  - done.
  - apply andb_true_iff in Hord as [Hle Hord]. apply N.leb_le in Hle.
    apply IH; [|done]. by apply reach_call with (now := now).
Qed.

(** ** Winner selections along an execution *)

(** One transaction emits at most one [WinnerSelected] for a vault, and only
    when it takes [winnerSelected] from false to true. *)
Lemma flat_selections (s : State) (e : Env) (c : Call) (s' : State) (effs : list Effect)
    (id : N) :
  is_deleteVault c = false →
  exec s e c = Ok (s', effs) →
  selections id effs = 0%nat
  ∨ (selections id effs = 1%nat
     ∧ winnerSelected (vault_at s id) = false
     ∧ winnerSelected (vault_at s' id) = true).
Proof.
  intros Hflat. destruct c; try done; unfold exec; simpl; intros H.
  - unfold createVault in H. inv_ok H. injection H as <- <-. by left.
  - unfold deposit in H. inv_ok H. destruct x as [x calls]. inv_ok H.
    injection H as <- <-. left. rewrite selections_app.
    destruct (token (vault_at s _vaultId) =? 0); inv_ok E2; by injection E2 as <- <-.
  - apply withdraw_Ok in H as (_ & _ & s1 & effs1 & Hsettle & Hpay).
    apply claim_and_pay_Ok in Hpay as (_ & (b & -> & _) & ->).
    rewrite selections_app.
    assert (∀ tok who amount ev,
              selections id [payout_effect tok who amount; Emit (Withdrawn _vaultId who ev)]
              = 0%nat) as ->.
    { intros tok who amount ev. unfold payout_effect. by destruct (tok =? 0). }
    destruct (settle_if_due_effects s e _vaultId s1 effs1 Hsettle)
      as [[-> ->]|(w & t & -> & Hfalse & Hv1)]; [by left|].
    simpl. destruct (N.eqb_spec _vaultId id) as [->|Hne]; [|by left].
    right. split_and!; [done..|].
    destruct (after_withdraw_vault_any s1 id (msg_sender e)) as (ds' & Hv).
    change (winnerSelected (vault_at (after_withdraw s1 id (msg_sender e)) id) = true).
    rewrite Hv, Hv1. done.
  - unfold setAdminWallet in H. inv_ok H. injection H as <- <-. by left.
  - unfold fundContract in H. inv_ok H. injection H as <- <-. by left.
  - unfold fundContractToken in H. inv_ok H. injection H as <- <-. by left.
  - unfold transferOwnership in H. inv_ok H. injection H as <- <-. by left.
  - unfold renounceOwnership in H. inv_ok H. injection H as <- <-. by left.
Qed.

Lemma selects_once_refl (id : N) (s : State) : selects_once id s [] s.
Proof. split; [done | by left]. Qed.

Lemma selects_once_trans (id : N) (s1 : State) (l1 : list Effect) (s2 : State)
    (l2 : list Effect) (s3 : State) :
  selects_once id s1 l1 s2 → selects_once id s2 l2 s3 → selects_once id s1 (l1 ++ l2) s3.
Proof.
  intros [Hk1 H1] [Hk2 H2]. split; [by intros ?%Hk1%Hk2|].
  rewrite selections_app.
  destruct H1 as [->|(-> & Hf1 & Ht1)], H2 as [->|(-> & Hf2 & Ht2)].
  - by left.
  - right. split_and!; [done | | done].
    destruct (winnerSelected (vault_at s1 id)); [|done]. rewrite Hk1 in Hf2; done.
  - right. split_and!; [done..|]. by apply Hk2.
  - congruence.
Qed.

(** An effect or an assignment that selects nothing. *)
Lemma selects_once_quiet (id : N) (s : State) (effs : list Effect) (s' : State) :
  selections id effs = 0%nat →
  winnerSelected (vault_at s' id) = winnerSelected (vault_at s id) →
  selects_once id s effs s'.
Proof. intros H0 Hw. split; [congruence | by left]. Qed.

Lemma winnerSelected_set_vault (s : State) (id id' : N) (v : VaultInfo) :
  winnerSelected v = winnerSelected (vault_at s id) →
  winnerSelected (vault_at (set_vault s id v) id') = winnerSelected (vault_at s id').
Proof.
  intros Hv. rewrite vault_at_set_vault. by destruct (decide (id = id')) as [<-|?].
Qed.

Lemma exec_selects_once (s : State) (e : Env) (c : Call) (s' : State) (effs : list Effect)
    (id : N) :
  exec s e c = Ok (s', effs) → selects_once id s effs s'.
Proof.
  intros H.
  apply (exec_sound (λ _, True) (selects_once id) (λ _, True) (λ _, True) (λ _ _, True))
    with (e := e) (c := c).
  - apply selects_once_refl.
  - apply selects_once_trans.
  - done.
  - done.
  - intros st e' c' st' effs' _ _ Hflat Hc. split; [done|]. split.
    + apply (ev_winner _ _ (flat_evolves st e' c' st' effs' Hflat Hc)).
    + by apply (flat_selections st e' c' st' effs' id).
  - intros st e' id' _ _ _ _. split_and!; [done| |done].
    apply selects_once_quiet; [done|]. by apply winnerSelected_set_vault.
  - intros st id' d _ _. split_and!; [done| |done].
    apply selects_once_quiet; [done|]. by apply winnerSelected_set_vault.
  - intros st id' d amount _ _ _. split_and!; [done| |done].
    by apply selects_once_quiet.
  - intros. by apply selects_once_quiet.
  - intros. by apply selects_once_quiet.
  - done.
  - intros _ i n _. apply frames_ok_any.
  - done.
  - done.
Qed.

Lemma exec_selections (s : State) (e : Env) (c : Call) (s' : State) (effs : list Effect)
    (id : N) :
  exec s e c = Ok (s', effs) →
  selections id effs = 0%nat
  ∨ (selections id effs = 1%nat
     ∧ winnerSelected (vault_at s id) = false
     ∧ winnerSelected (vault_at s' id) = true).
Proof. intros H. by destruct (exec_selects_once s e c s' effs id H). Qed.

Lemma history_selections (s : State) (tr : list (Env * Call)) (id : N) :
  (selections id (history_effects s tr) ≤ 1)%nat
  ∧ (winnerSelected (vault_at s id) = true → selections id (history_effects s tr) = 0%nat).
Proof.
  revert s. induction tr as [|[e c] tr IH]; intros s; simpl; [split; [lia | done]|].
  rewrite selections_app.
  destruct (IH (step s e c)) as [IHle IHzero].
  pose proof (step_winner_kept s e c id) as Hkept.
  unfold effects_of, step in *.
  destruct (exec s e c) as [[s' effs]| | |] eqn:E; simpl; [|split; [lia | done]..].
  destruct (exec_selections s e c s' effs id E) as [->|(-> & Hfalse & Htrue)].
  - split; [lia|]. intros Hw. destruct (Hkept Hw) as [Hw' _]. by rewrite IHzero.
  - rewrite IHzero by done. split; [lia | congruence].
Qed.

(** ** The example histories *)

Lemma demo_open_reachable : reachable demo_open 20.
Proof.
  apply (reachable_run (constructor demo_admin) 0 demo_trace); [apply reach_deploy | done].
Qed.

Lemma demo_year_funded_reachable : reachable demo_year_funded 30.
Proof.
  apply (reach_call demo_year 20 (demo_env demo_admin 30 ReturnsTrue) (FundContract 100));
    [|by vm_compute].
  apply (reachable_run (constructor demo_admin) 0
           [ (demo_env demo_admin 10 ReturnsTrue, CreateVault "year" 0 SECONDS_PER_YEAR 500);
             (demo_env alice 20 ReturnsTrue, Deposit 0 0 1000) ]);
    [apply reach_deploy | done].
Qed.


Lemma demo_token_funded_reachable : reachable demo_token_funded 20.
Proof.
  apply (reach_call demo_token_open 10 (demo_env alice 20 ReturnsTrue) (Deposit 0 100 0));
    [|by vm_compute].
  apply (reachable_run (constructor demo_admin) 0
           [ (demo_env demo_admin 10 ReturnsTrue, CreateVault "tokens" demo_token 1000 500) ]);
    [apply reach_deploy | done].
Qed.

Lemma demo_settled_reachable : reachable demo_settled 2000.
Proof.
  apply (reach_call _ 1500 (demo_env alice 2000 ReturnsTrue) (Withdraw 0)); [|by vm_compute].
  apply (reach_call _ 20 (demo_env demo_admin 1500 ReturnsTrue) (FundContract 1000));
    [apply demo_open_reachable | by vm_compute].
Qed.

(** * The claims *)

(** While a vault is active its books balance: [totalDeposits] is the sum of
    the listed depositors' principals, and the list holds exactly the
    addresses with a positive principal, each once.  This is what
    [createVault], [deposit] and [withdraw] maintain. *)
Theorem books_balance_while_active (s : State) (now id : N) :
  reachable s now → active (vault_at s id) = true → vault_ok (vault_at s id).
Proof. intros Hreach Hact. by apply (reachable_inv s now Hreach id). Qed.

(** C1, evaluated where it fails.  The claim asks that [totalDeposits] equal
    the sum of [deposits[d]] over the depositors after every operation,
    [deleteVault] included.  On the demo vault (Alice 100, Bob 50) a
    successful [deleteVault] zeroes both principals and leaves
    [totalDeposits] at 150, while before the call the books balanced. *)
Theorem C1_deleteVault_keeps_stale_total :
  totalDeposits (vault_at demo_open 0)
    = sum_deposits (vault_at demo_open 0) (depositors (vault_at demo_open 0))
  ∧ is_ok (exec demo_open (demo_env demo_admin 30 ReturnsTrue) (DeleteVault 0)) = true
  ∧ totalDeposits (vault_at demo_deleted 0) = 150
  ∧ sum_deposits (vault_at demo_deleted 0) (depositors (vault_at demo_deleted 0)) = 0.
Proof. by vm_compute. Qed.

(** C2, evaluated where it fails.  The claim asks that a failed transfer
    abort the operation with no state change.  [deposit] and [deleteVault]
    call the token through the bare interface and drop the boolean it
    returns: when the token answers [false] the deposit is credited all the
    same, and a deletion zeroes the principals and deactivates the vault
    although nothing was paid. *)
Theorem C2_unchecked_token_transfer_mutates_state :
  let e := demo_env alice 20 ReturnsFalse in
  let s' := step demo_token_open e (Deposit 0 100 0) in
  exec demo_token_open e (Deposit 0 100 0)
    = Ok (s', [TokenTransferFrom demo_token alice 999 100 false;
               Emit (Deposited 0 alice 100)])
  ∧ deposit_of (vault_at demo_token_open 0) alice = 0
  ∧ deposit_of (vault_at s' 0) alice = 100
  ∧ totalDeposits (vault_at s' 0) = 100
  ∧ depositors (vault_at s' 0) = [alice]
  ∧ let e' := demo_env demo_admin 30 ReturnsFalse in
    let s'' := step demo_token_funded e' (DeleteVault 0) in
    exec demo_token_funded e' (DeleteVault 0)
      = Ok (s'', [TokenTransfer demo_token alice 100 false; Emit (VaultDeleted 0)])
    ∧ deposit_of (vault_at demo_token_funded 0) alice = 100
    ∧ deposit_of (vault_at s'' 0) alice = 0
    ∧ active (vault_at s'' 0) = false.
Proof. by vm_compute. Qed.

(** C3, evaluated where it fails.  The claim asks that the depositors list
    hold exactly the addresses with a positive principal after every
    operation, [deleteVault] included.  After a successful [deleteVault] of
    the demo vault Alice and Bob are still listed and their principals are
    zero. *)
Theorem C3_deleteVault_keeps_stale_depositors :
  is_ok (exec demo_open (demo_env demo_admin 30 ReturnsTrue) (DeleteVault 0)) = true
  ∧ getVaultDepositors demo_deleted 0 = [alice; bob]
  ∧ deposit_of (vault_at demo_deleted 0) alice = 0
  ∧ deposit_of (vault_at demo_deleted 0) bob = 0
  ∧ isDepositor demo_deleted 0 alice = false.
Proof. by vm_compute. Qed.

(** C4.  Winner selection happens at most once per vault.  Along any history
    of transactions from any storage, the [WinnerSelected] event of a vault
    is emitted at most once.  Once [winnerSelected] is true, an attempt to
    select again fails with "Winner already selected", the settlement step
    of [withdraw] no longer runs the selection, no further selection is
    recorded, and after any further history (whatever its transactions,
    reverted or not) [winnerSelected] is still true and the stored winner is
    the same address. *)
Theorem C4_winner_selected_once (s : State) (id : N) :
  (∀ tr, (selections id (history_effects s tr) ≤ 1)%nat)
  ∧ (winnerSelected (vault_at s id) = true →
     (∀ e, _selectWinner s e id = Revert "Winner already selected")
     ∧ (∀ e s1 effs, settle_if_due s e id = Ok (s1, effs) → s1 = s ∧ effs = [])
     ∧ (∀ tr, selections id (history_effects s tr) = 0%nat
              ∧ winnerSelected (vault_at (run s tr) id) = true
              ∧ winner (vault_at (run s tr) id) = winner (vault_at s id))).
Proof.
  split; [intros tr; apply history_selections|].
  intros Hw. split_and!.
  - intros e. unfold _selectWinner. by rewrite Hw.
  - intros e s1 effs H.
    destruct (settle_if_due_vault s e id s1 effs H) as [?|(w & _ & Hfalse & _)];
      [done | congruence].
  - intros tr. split; [by apply history_selections | by apply run_winner_kept].
Qed.

(** On the settled demo vault nothing selects again. *)
Lemma C4_witness :
  winnerSelected (vault_at demo_settled 0) = true
  ∧ (∀ e, _selectWinner demo_settled e 0 = Revert "Winner already selected")
  ∧ (∀ tr, winnerSelected (vault_at (run demo_settled tr) 0) = true
           ∧ winner (vault_at (run demo_settled tr) 0) = winner (vault_at demo_settled 0)).
Proof.
  assert (winnerSelected (vault_at demo_settled 0) = true) as Hw by (vm_compute; reflexivity).
  destruct (C4_winner_selected_once demo_settled 0) as [_ Hafter].
  destruct (Hafter Hw) as (Hagain & _ & Hkept).
  split_and!; [exact Hw | exact Hagain |].
  intros tr. exact (proj2 (Hkept tr)).
Defined.

(** C5, evaluated where it fails.  The claim asks that a successful
    [deleteVault] pay every current depositor the principal (plus the
    depositor's interest once the vault has matured).  In a token vault
    [deleteVault] calls [IERC20.transfer] through the bare interface and
    drops the boolean it returns (line 279).  On the demo token vault, where
    Alice is the one listed depositor with a principal of 100, and with a
    token that answers [false], [deleteVault] succeeds: the one transfer it
    attempted has moved nothing, so Alice has been paid nothing, while her
    principal is zeroed and the vault is closed, so that she cannot withdraw
    either.  The sibling [withdraw], which goes through [safeTransfer],
    reverts on the same answer. *)
Theorem C5_deleteVault_leaves_a_depositor_unpaid :
  let e := demo_env demo_admin 30 ReturnsFalse in
  let s' := step demo_token_funded e (DeleteVault 0) in
  reachable demo_token_funded 20
  ∧ getVaultDepositors demo_token_funded 0 = [alice]
  ∧ deposit_of (vault_at demo_token_funded 0) alice = 100
  ∧ deleteVault demo_token_funded e 0
    = Ok (s', [TokenTransfer demo_token alice 100 false; Emit (VaultDeleted 0)])
  ∧ payments_to alice [TokenTransfer demo_token alice 100 false; Emit (VaultDeleted 0)] = []
  ∧ deposit_of (vault_at s' 0) alice = 0
  ∧ active (vault_at s' 0) = false
  ∧ withdraw s' (demo_env alice 40 ReturnsTrue) 0 = Revert "Vault inactive"
  ∧ withdraw demo_token_funded (demo_env alice 30 ReturnsFalse) 0
    = Revert "SafeERC20FailedOperation".
Proof.
  split; [apply demo_token_funded_reachable|]. by vm_compute.
Qed.

(** C6.  A depositor with a non-zero principal who withdraws from an active
    vault before maturity ([block.timestamp < creationTime + duration]) is
    paid exactly the recorded principal and no interest, whoever else is in
    the vault: a withdrawal that goes through makes one transfer, of the
    principal, to the caller; and it goes through exactly when the contract
    holds the principal and the transfer is accepted. *)
Theorem C6_early_withdraw_pays_principal (s : State) (now : N) (e : Env) (id : N) :
  let v := vault_at s id in
  let who := msg_sender e in
  reachable s now → now ≤ block_timestamp e →
  active v = true →
  0 < deposit_of v who →
  block_timestamp e < creationTime v + duration v →
  (∀ s' effs, withdraw s e id = Ok (s', effs) →
     effs = [payout_effect (token v) who (deposit_of v who);
             Emit (Withdrawn id who (deposit_of v who))]
     ∧ payments_to who effs = [deposit_of v who])
  ∧ is_ok (withdraw s e id) = can_pay s e (token v) who (deposit_of v who).
Proof.
  intros v who Hreach Hnow Hact Hdep Hearly.
  destruct (reachable_inv s now Hreach id) as [H1 _ _ H4 H5 _ H7].
  fold v in H1, H4, H5, H7.
  assert (winnerSelected v = false) as Hunsettled.
  { destruct (winnerSelected v) eqn:Hw; [|done]. specialize (H5 Hact eq_refl). lia. }
  assert (settle_if_due s e id = Ok (s, [])) as Hsettle.
  { unfold settle_if_due. fold v.
    assert (checked_add (creationTime v) (duration v) = Ok (creationTime v + duration v)) as ->
      by (apply checked_add_Ok; split; [done | by apply (H7 Hact who)]).
    simpl. apply N.leb_gt in Hearly. by rewrite Hearly. }
  assert (amountToClaim s id who = deposit_of v who) as Hamount.
  { unfold amountToClaim. by rewrite (H4 Hact Hunsettled who). }
  assert (deposit_of v who ≤ totalDeposits v) as Hle.
  { destruct (H1 Hact) as [_ Hlisted ->]. by apply sum_deposits_elem, Hlisted. }
  assert (withdraw s e id = claim_and_pay s e id []) as Hw.
  { rewrite withdraw_unfold. fold v who. rewrite Hact. simpl.
    apply N.ltb_lt in Hdep. rewrite Hdep. simpl. by rewrite Hsettle. }
  split.
  - intros s' effs H. rewrite Hw in H.
    apply claim_and_pay_Ok in H as (_ & _ & ->). fold v who.
    rewrite Hamount, app_nil_l. split; [done | apply payments_to_payout].
  - rewrite Hw, claim_and_pay_is_ok by done. fold v who. by rewrite Hamount.
Qed.

Lemma C6_witness :
  (∀ s' effs, withdraw demo_open (demo_env alice 25 ReturnsTrue) 0 = Ok (s', effs) →
     effs = [SendValue alice 100; Emit (Withdrawn 0 alice 100)]
     ∧ payments_to alice effs = [100])
  ∧ is_ok (withdraw demo_open (demo_env alice 25 ReturnsTrue) 0) = true.
Proof.
  assert (20 ≤ block_timestamp (demo_env alice 25 ReturnsTrue)) as Hnow
    by (vm_compute; discriminate).
  assert (active (vault_at demo_open 0) = true) as Hact by (vm_compute; reflexivity).
  assert (0 < deposit_of (vault_at demo_open 0) (msg_sender (demo_env alice 25 ReturnsTrue)))
    as Hdep by (vm_compute; reflexivity).
  assert (block_timestamp (demo_env alice 25 ReturnsTrue)
          < creationTime (vault_at demo_open 0) + duration (vault_at demo_open 0)) as Hearly
    by (vm_compute; reflexivity).
  destruct (C6_early_withdraw_pays_principal demo_open 20 (demo_env alice 25 ReturnsTrue) 0
              demo_open_reachable Hnow Hact Hdep Hearly) as [Hpaid Hok].
  split.
  - intros s' effs H. specialize (Hpaid s' effs H). vm_compute in Hpaid. exact Hpaid.
  - vm_compute in Hok. vm_compute. exact Hok.
Defined.

(** C7.  The interest of one depositor is
    [floor(principal * rateBps * durationSeconds / (10000 * secondsPerYear))]:
    whenever the products fit in 256 bits the expression of the contract
    returns that value, and the pot [_calculateTotalInterest] returns is the
    sum of these per-depositor values.  In particular 1000 units at 500
    basis points over 365 days earn exactly 50, and at 1 basis point the
    division rounds down (0 for 1000 and for 9999 units, 1 for 10000 and for
    19999). *)
Theorem C7_interest_is_floor (p r d : N) :
  interest_fits p r d →
  simpleInterest p r d = Ok (p * r * d / (10000 * (365 * 86400)))
  ∧ (∀ s id t, _calculateTotalInterest s id = Ok t →
       t = foldr (λ a acc,
                    deposit_of (vault_at s id) a * interestRate (vault_at s id)
                    * duration (vault_at s id) / (10000 * (365 * 86400)) + acc)
                 0 (depositors (vault_at s id)))
  ∧ simpleInterest 1000 500 (365 * 86400) = Ok 50
  ∧ _calculateTotalInterest demo_year 0 = Ok 50
  ∧ simpleInterest 1000 1 (365 * 86400) = Ok 0
  ∧ simpleInterest 9999 1 (365 * 86400) = Ok 0
  ∧ simpleInterest 10000 1 (365 * 86400) = Ok 1
  ∧ simpleInterest 19999 1 (365 * 86400) = Ok 1.
Proof.
  intros Hfit. split_and!.
  - by apply simpleInterest_Ok.
  - intros s id t H. by apply calculateTotalInterest_Ok in H as [_ ->].
  - by vm_compute.
  - by vm_compute.
  - by vm_compute.
  - by vm_compute.
  - by vm_compute.
  - by vm_compute.
Qed.

Lemma C7_witness :
  interest_fits 1000 500 (365 * 86400)
  ∧ simpleInterest 1000 500 (365 * 86400) = Ok 50.
Proof.
  assert (interest_fits 1000 500 (365 * 86400)) as Hfit by (split; vm_compute; discriminate).
  split; [exact Hfit|].
  destruct (C7_interest_is_floor 1000 500 (365 * 86400) Hfit) as (_ & _ & H & _).
  exact H.
Defined.






(** C10.  In a native-currency vault ([token == address(0)]) the [_amount]
    argument of [deposit] plays no part: the call behaves the same for every
    [_amount], and when it succeeds the caller's principal, [totalDeposits]
    and the contract balance have each grown by exactly [msg.value], with the
    [Deposited] event carrying [msg.value].  It succeeds whenever the vault
    is active and still open, [msg.value] is positive and the sums fit in
    256 bits, whatever [_amount] is. *)
Theorem C10_native_deposit_credits_msg_value (s : State) (e : Env) (id x val : N) :
  let v := vault_at s id in
  token v = 0 →
  (∀ y, deposit s e id y val = deposit s e id x val)
  ∧ (∀ s' effs, deposit s e id x val = Ok (s', effs) →
       deposit_of (vault_at s' id) (msg_sender e) = deposit_of v (msg_sender e) + val
       ∧ totalDeposits (vault_at s' id) = totalDeposits v + val
       ∧ balance s' = balance s + val
       ∧ effs = [Emit (Deposited id (msg_sender e) val)])
  ∧ (active v = true →
     block_timestamp e < creationTime v + duration v →
     creationTime v + duration v ≤ MAX_UINT256 →
     0 < val →
     deposit_of v (msg_sender e) + val ≤ MAX_UINT256 →
     totalDeposits v + val ≤ MAX_UINT256 →
     is_ok (deposit s e id x val) = true).
Proof.
  intros v Htok. subst v. split_and!.
  - intros y. unfold deposit. by rewrite Htok.
  - intros s' effs H.
    pose proof H as H'. apply deposit_Ok in H' as (a & _ & _ & _ & _ & Ha & ->).
    rewrite Htok in Ha. simpl in Ha. subst a.
    change (vault_at (set_balance ?st ?b) id) with (vault_at st id).
    rewrite vault_at_set_vault_eq, deposit_of_credit, decide_True by done.
    split_and!; try done.
    unfold deposit in H. rewrite Htok in H. inv_ok H.
    simpl in E2. inv_ok E2. injection E2 as <-.
    inv_ok H. by injection H as <-.
  - intros Hact Hopen Hend Hval Hdep Htot. unfold deposit.
    rewrite Hact, Htok. simpl.
    assert (checked_add (creationTime (vault_at s id)) (duration (vault_at s id))
            = Ok (creationTime (vault_at s id) + duration (vault_at s id))) as ->
      by by apply checked_add_Ok.
    simpl. apply N.ltb_lt in Hopen, Hval. rewrite Hopen, Hval. simpl.
    assert (checked_add (deposit_of (vault_at s id) (msg_sender e)) val
            = Ok (deposit_of (vault_at s id) (msg_sender e) + val)) as ->
      by by apply checked_add_Ok.
    simpl.
    assert (checked_add (totalDeposits (vault_at s id)) val
            = Ok (totalDeposits (vault_at s id) + val)) as ->
      by by apply checked_add_Ok.
    done.
Qed.

Lemma C10_witness :
  token (vault_at demo_open 0) = 0
  ∧ deposit demo_open (demo_env alice 25 ReturnsTrue) 0 12345 30
    = deposit demo_open (demo_env alice 25 ReturnsTrue) 0 0 30
  ∧ is_ok (deposit demo_open (demo_env alice 25 ReturnsTrue) 0 0 30) = true
  ∧ ∀ s' effs, deposit demo_open (demo_env alice 25 ReturnsTrue) 0 0 30 = Ok (s', effs) →
      deposit_of (vault_at s' 0) alice = 130 ∧ totalDeposits (vault_at s' 0) = 180.
Proof.
  assert (token (vault_at demo_open 0) = 0) as Htok by (vm_compute; reflexivity).
  destruct (C10_native_deposit_credits_msg_value demo_open (demo_env alice 25 ReturnsTrue)
              0 0 30 Htok) as (Hsame & Hcredit & Hok).
  split_and!.
  - exact Htok.
  - exact (Hsame 12345).
  - apply Hok; vm_compute; (reflexivity || discriminate).
  - intros s' effs H. destruct (Hcredit s' effs H) as (Hd & Ht & _ & _).
    vm_compute in Hd, Ht. split; [exact Hd | exact Ht].
Defined.

(** * Further properties of the contract *)

(** ** [_removeDepositor] *)

Lemma find_depositor_elem (ds : list address) (a : address) (i : nat) :
  a ∈ ds → ∃ j, find_depositor ds a i = Some j.
Proof.
  intros Hin. destruct (find_depositor ds a i) as [j|] eqn:E; [by exists j|].
  by apply find_depositor_None in E.
Qed.

(** X1.  Removing a depositor by swap-with-last-and-pop takes exactly one
    entry of that address out of the vault's list and neither drops nor
    duplicates anybody else: the old list is a permutation of the removed
    address followed by the new list, so a duplicate-free list stays
    duplicate-free and no longer holds the address.  Removing an address that
    is not listed changes nothing, and no other vault is touched. *)
Theorem X1_removeDepositor_keeps_the_others (s : State) (id : N) (a : address) :
  (a ∈ depositors (vault_at s id) →
     depositors (vault_at s id) ≡ₚ a :: depositors (vault_at (_removeDepositor s id a) id)
     ∧ length (depositors (vault_at s id))
       = S (length (depositors (vault_at (_removeDepositor s id a) id)))
     ∧ (NoDup (depositors (vault_at s id)) →
        NoDup (depositors (vault_at (_removeDepositor s id a) id))
        ∧ (a ∉ depositors (vault_at (_removeDepositor s id a) id))
        ∧ (∀ b, b ≠ a → (b ∈ depositors (vault_at (_removeDepositor s id a) id)
                          ↔ b ∈ depositors (vault_at s id)))))
  ∧ (a ∉ depositors (vault_at s id) → _removeDepositor s id a = s)
  ∧ (∀ id', id' ≠ id → vault_at (_removeDepositor s id a) id' = vault_at s id').
Proof.
  split_and!.
  - intros Hin. unfold _removeDepositor.
    destruct (find_depositor_elem _ a 0 Hin) as [i Hi]. rewrite Hi.
    apply find_depositor_Some in Hi as (k & -> & Hk).
    rewrite vault_at_set_vault_eq. simpl.
    pose proof (swap_and_pop_perm _ k a Hk) as Hperm.
    set (ds' := swap_and_pop (depositors (vault_at s id)) k) in *.
    split_and!.
    + done.
    + by apply Permutation_length in Hperm.
    + intros Hnd. rewrite Hperm in Hnd. apply NoDup_cons in Hnd as [Hnotin Hnd].
      split_and!; [done..|].
      intros b Hb. rewrite Hperm, elem_of_cons. split; [by right | intros [?|?]; done].
  - intros Hnotin. unfold _removeDepositor.
    destruct (find_depositor _ a 0) as [i|] eqn:Hi; [|done].
    apply find_depositor_Some in Hi as (k & _ & Hk).
    destruct Hnotin. by apply list_elem_of_lookup_2 in Hk.
  - intros id' Hne. unfold _removeDepositor.
    destruct (find_depositor _ a 0); [|done]. by apply vault_at_set_vault_ne.
Qed.

Lemma X1_witness :
  getVaultDepositors (_removeDepositor demo_open 0 alice) 0 = [bob]
  ∧ _removeDepositor demo_open 0 demo_admin = demo_open.
Proof.
  destruct (X1_removeDepositor_keeps_the_others demo_open 0 demo_admin) as (_ & Hout & _).
  split; [vm_compute; reflexivity|].
  apply Hout. vm_compute. intros Hin.
  apply elem_of_cons in Hin as [Heq|Hin]; [discriminate|].
  apply elem_of_cons in Hin as [Heq|Hin]; [discriminate|].
  by apply elem_of_nil in Hin.
Defined.

(** ** [_selectWinner] *)

Lemma setClaimable_loop_value (v : VaultInfo) (id t : N) (ds : list address)
    (c c' : gmap (N * N) N) :
  setClaimable_loop v id t ds c = Ok c' →
  ∀ a, c' !! (id, a)
       = if decide (a ∈ ds)
         then Some (deposit_of v a + (if a =? winner v then t else 0))
         else c !! (id, a).
Proof.
  revert c. induction ds as [|d ds IH]; intros c; cbn [setClaimable_loop].
  - intros [= <-] a. rewrite decide_False; [done|]. apply not_elem_of_nil.
  - intros H a. inv_ok H. rewrite (IH _ H a).
    assert (x = deposit_of v d + (if d =? winner v then t else 0)) as ->.
    { destruct (d =? winner v).
      - by apply checked_add_Ok in E as [-> _].
      - injection E as <-. lia. }
    destruct (decide (a ∈ ds)) as [Hin|Hnotin].
    + rewrite decide_True; [done|]. by apply list_elem_of_further.
    + destruct (decide (a = d)) as [->|Hne].
      * rewrite lookup_insert_eq, decide_True; [done|]. apply list_elem_of_here.
      * rewrite lookup_insert_ne by congruence.
        rewrite decide_False; [done|]. rewrite elem_of_cons. intros [?|?]; done.
Qed.

Lemma bind_overflow {A B : Type} (m : result A) (f : A → result B) :
  fails_only_by_overflow m → (∀ a, fails_only_by_overflow (f a)) →
  fails_only_by_overflow (m ≫= f).
Proof. destruct m; simpl; [by intros _ Hf | done..]. Qed.

Lemma checked_add_overflow (a b : N) : fails_only_by_overflow (checked_add a b).
Proof. unfold checked_add. by destruct (_ <=? _). Qed.

Lemma checked_mul_overflow (a b : N) : fails_only_by_overflow (checked_mul a b).
Proof. unfold checked_mul. by destruct (_ <=? _). Qed.

Lemma simpleInterest_overflow (p r d : N) : fails_only_by_overflow (simpleInterest p r d).
Proof.
  unfold simpleInterest.
  apply bind_overflow; [apply checked_mul_overflow|]. intros x.
  apply bind_overflow; [apply checked_mul_overflow|]. done.
Qed.

Lemma totalInterest_loop_overflow (v : VaultInfo) (ds : list address) (acc : N) :
  fails_only_by_overflow (totalInterest_loop v ds acc).
Proof.
  revert acc. induction ds as [|d ds IH]; intros acc; simpl; [done|].
  apply bind_overflow; [apply simpleInterest_overflow|]. intros i.
  apply bind_overflow; [apply checked_add_overflow|]. intros acc'. apply IH.
Qed.

Lemma setClaimable_loop_overflow (v : VaultInfo) (id t : N) (ds : list address)
    (c : gmap (N * N) N) :
  fails_only_by_overflow (setClaimable_loop v id t ds c).
Proof.
  revert c. induction ds as [|d ds IH]; intros c; simpl; [done|].
  apply bind_overflow; [|intros x; apply IH].
  destruct (d =? winner v); [apply checked_add_overflow | done].
Qed.

Lemma selectWinner_index (s : State) (e : Env) (id : N) :
  depositors (vault_at s id) ≠ [] →
  is_Some (depositors (vault_at s id)
             !! N.to_nat (keccak256 e (block_prevrandao e) id (block_timestamp e)
                          mod N.of_nat (length (depositors (vault_at s id))))).
Proof.
  intros Hne. apply lookup_lt_is_Some_2.
  assert (length (depositors (vault_at s id)) ≠ 0%nat) as Hlen
    by (by destruct (depositors (vault_at s id))).
  pose proof (N.mod_lt (keccak256 e (block_prevrandao e) id (block_timestamp e))
                (N.of_nat (length (depositors (vault_at s id))))) as Hlt.
  lia.
Qed.

Lemma bind_require_true {B : Type} (r : string) (f : unit → result B) :
  require true r ≫= f = f tt.
Proof. reflexivity. Qed.

Lemma selectWinner_panic (s : State) (e : Env) (id c : N) :
  _selectWinner s e id = Panic c → c = ARITHMETIC_PANIC.
Proof.
  unfold _selectWinner.
  destruct (winnerSelected (vault_at s id)); [done|].
  change (negb false) with true. rewrite bind_require_true.
  destruct (0 <? length (depositors (vault_at s id)))%nat eqn:Hlen; [|done].
  rewrite bind_require_true.
  destruct (selectWinner_index s e id) as [w Hw].
  { intros Hnil. rewrite Hnil in Hlen. done. }
  rewrite Hw. intros Heq.
  match type of Heq with ?r = _ => assert (fails_only_by_overflow r) as Hov end.
  { apply bind_overflow; [apply totalInterest_loop_overflow|]. intros t.
    apply bind_overflow; [apply setClaimable_loop_overflow | done]. }
  rewrite Heq in Hov. exact Hov.
Qed.

Lemma selectWinner_picks (s : State) (e : Env) (id : N) :
  _selectWinner s e id ≠ Panic INDEX_PANIC
  ∧ ∀ s' effs, _selectWinner s e id = Ok (s', effs) →
      hasWinner s id = false
      ∧ hasWinner s' id = true
      ∧ winner (vault_at s' id) ∈ getVaultDepositors s id
      ∧ (∀ d, getVaultDepositors s id = [d] → winner (vault_at s' id) = d)
      ∧ getVaultDepositors s' id = getVaultDepositors s id
      ∧ (∀ a, deposit_of (vault_at s' id) a = deposit_of (vault_at s id) a)
      ∧ effs = [Emit (WinnerSelected id (winner (vault_at s' id))
                        (sum_interest (vault_at s id) (depositors (vault_at s id))))].
Proof.
  split.
  - intros Heq. by apply selectWinner_panic in Heq.
  - intros s' effs H.
    apply selectWinner_Ok in H as (Hw & w & t & claims & Hidx & Hcalc & _ & -> & ->).
    unfold hasWinner, getVaultDepositors.
    assert (∀ st, vault_at (mkState st (<[id := set_winner (vault_at s id) w]> (vaults s))
                     (vaultCount s) (adminWallet s) (owner s) (balance s)) id
                  = set_winner (vault_at s id) w) as Hv.
    { intros st. unfold vault_at. simpl. by rewrite lookup_insert_eq. }
    rewrite !Hv. simpl.
    apply calculateTotalInterest_Ok in Hcalc as [_ ->].
    rewrite vault_at_set_vault_eq.
    split_and!; try done.
    + by apply list_elem_of_lookup_2 in Hidx.
    + intros d Hd. rewrite Hd in Hidx. simpl in Hidx.
      rewrite N.mod_1_r in Hidx. simpl in Hidx. by injection Hidx as <-.
Qed.

(** X2.  [_selectWinner] never reads outside the depositors array, and when
    it succeeds the vault was not settled before, is settled after, and the
    winner it stores is one of the vault's depositors at that moment (the
    only one, if there is only one); the list of depositors and every
    principal are left as they were, and the event carries the stored winner
    and the interest pot summed over all depositors. *)
Theorem X2_selectWinner_picks_a_depositor (s : State) (e : Env) (id : N) :
  _selectWinner s e id ≠ Panic INDEX_PANIC
  ∧ ∀ s' effs, _selectWinner s e id = Ok (s', effs) →
      hasWinner s id = false
      ∧ hasWinner s' id = true
      ∧ winner (vault_at s' id) ∈ getVaultDepositors s id
      ∧ (∀ d, getVaultDepositors s id = [d] → winner (vault_at s' id) = d)
      ∧ getVaultDepositors s' id = getVaultDepositors s id
      ∧ (∀ a, deposit_of (vault_at s' id) a = deposit_of (vault_at s id) a)
      ∧ effs = [Emit (WinnerSelected id (winner (vault_at s' id))
                        (sum_interest (vault_at s id) (depositors (vault_at s id))))].
Proof. apply selectWinner_picks. Qed.

Lemma X2_witness :
  is_ok (_selectWinner demo_matured (demo_env alice 2000 ReturnsTrue) 0) = true
  ∧ (∀ s' effs, _selectWinner demo_matured (demo_env alice 2000 ReturnsTrue) 0 = Ok (s', effs) →
       winner (vault_at s' 0) ∈ [alice; bob])
  ∧ (∀ s' effs, _selectWinner demo_year_funded demo_year_env 0 = Ok (s', effs) →
       winner (vault_at s' 0) = alice).
Proof.
  split_and!; [vm_compute; reflexivity | |].
  - intros s' effs H.
    destruct (X2_selectWinner_picks_a_depositor demo_matured (demo_env alice 2000 ReturnsTrue) 0)
      as [_ Hsel].
    destruct (Hsel s' effs H) as (_ & _ & Hin & _).
    vm_compute in Hin. exact Hin.
  - intros s' effs H.
    destruct (X2_selectWinner_picks_a_depositor demo_year_funded demo_year_env 0)
      as [_ Hsel].
    destruct (Hsel s' effs H) as (_ & _ & _ & Hone & _).
    apply Hone. vm_compute. reflexivity.
Defined.

Lemma selectWinner_claimable (s : State) (e : Env) (id : N) (s' : State)
    (effs : list Effect) :
  _selectWinner s e id = Ok (s', effs) →
  (∀ a, a ∈ depositors (vault_at s id) →
        claimable s' id a
        = deposit_of (vault_at s id) a
          + (if a =? winner (vault_at s' id)
             then sum_interest (vault_at s id) (depositors (vault_at s id))
             else 0))
  ∧ (∀ a, a ∉ depositors (vault_at s id) → claimable s' id a = claimable s id a)
  ∧ (∀ id' a, id' ≠ id → claimable s' id' a = claimable s id' a).
Proof.
  intros H.
  apply selectWinner_Ok in H as (Hw & w & t & claims & Hidx & Hcalc & Hloop & -> & _).
  apply calculateTotalInterest_Ok in Hcalc as [_ ->].
  rewrite vault_at_set_vault_eq in Hloop.
  assert (vault_at (mkState claims (<[id := set_winner (vault_at s id) w]> (vaults s))
                     (vaultCount s) (adminWallet s) (owner s) (balance s)) id
          = set_winner (vault_at s id) w) as Hv.
  { unfold vault_at. simpl. by rewrite lookup_insert_eq. }
  rewrite Hv. simpl.
  pose proof (setClaimable_loop_value _ _ _ _ _ _ Hloop) as Hval.
  simpl in Hval.
  split_and!.
  - intros a Ha. unfold claimable at 1. simpl. rewrite Hval, decide_True by done. done.
  - intros a Ha. unfold claimable. simpl. rewrite Hval, decide_False by done. done.
  - intros id' a Hne. unfold claimable. simpl.
    by rewrite (setClaimable_loop_other _ _ _ _ _ _ _ _ Hloop).
Qed.

(** X3.  A successful [_selectWinner] sets the claimable amount of every
    depositor of the vault to the depositor's principal, plus the whole
    interest pot for the winner and nothing for the others; the claimable
    amounts of addresses that are not depositors, and of every other vault,
    stay as they were. *)
Theorem X3_selectWinner_sets_claimable (s : State) (e : Env) (id : N) (s' : State)
    (effs : list Effect) :
  _selectWinner s e id = Ok (s', effs) →
  (∀ a, a ∈ depositors (vault_at s id) →
        claimable s' id a
        = deposit_of (vault_at s id) a
          + (if a =? winner (vault_at s' id)
             then sum_interest (vault_at s id) (depositors (vault_at s id))
             else 0))
  ∧ (∀ a, a ∉ depositors (vault_at s id) → claimable s' id a = claimable s id a)
  ∧ (∀ id' a, id' ≠ id → claimable s' id' a = claimable s id' a).
Proof. apply selectWinner_claimable. Qed.

Lemma X3_witness :
  is_ok (_selectWinner demo_year_funded demo_year_env 0) = true
  ∧ ∀ s' effs, _selectWinner demo_year_funded demo_year_env 0 = Ok (s', effs) →
      claimable s' 0 alice = 1000 + (if alice =? winner (vault_at s' 0) then 50 else 0).
Proof.
  split; [vm_compute; reflexivity|].
  intros s' effs H.
  destruct (X3_selectWinner_sets_claimable demo_year_funded demo_year_env 0 s' effs H)
    as (Hin & _ & _).
  assert (alice ∈ depositors (vault_at demo_year_funded 0)) as Ha
    by (vm_compute; apply list_elem_of_here).
  exact (Hin alice Ha).
Defined.

(** ** Claimable amounts of a settled vault *)

Lemma settle_if_due_cases (s : State) (e : Env) (id : N) (s1 : State) (effs : list Effect) :
  settle_if_due s e id = Ok (s1, effs) →
  (s1 = s ∧ effs = []
   ∧ (winnerSelected (vault_at s id) = true
      ∨ block_timestamp e < creationTime (vault_at s id) + duration (vault_at s id)))
  ∨ (winnerSelected (vault_at s id) = false
     ∧ creationTime (vault_at s id) + duration (vault_at s id) ≤ block_timestamp e
     ∧ _selectWinner s e id = Ok (s1, effs)).
Proof.
  intros H. unfold settle_if_due in H. inv_ok H.
  destruct (N.leb_spec (creationTime (vault_at s id) + duration (vault_at s id))
                       (block_timestamp e)) as [Hdue|Hearly]; simpl in H.
  - destruct (winnerSelected (vault_at s id)) eqn:Hw; simpl in H.
    + injection H as <- <-. left. by eauto.
    + right. done.
  - injection H as <- <-. left. by eauto.
Qed.

Lemma vault_at_insert_eq (c : gmap (N * N) N) (m : gmap N VaultInfo) (n a o b id : N)
    (v : VaultInfo) :
  vault_at (mkState c (<[id := v]> m) n a o b) id = v.
Proof. unfold vault_at. simpl. by rewrite lookup_insert_eq. Qed.

Lemma vault_at_insert_ne (c : gmap (N * N) N) (m : gmap N VaultInfo) (n a o b id id' : N)
    (v : VaultInfo) :
  id ≠ id' →
  vault_at (mkState c (<[id := v]> m) n a o b) id' = default emptyVault (m !! id').
Proof. intros. unfold vault_at. simpl. by rewrite lookup_insert_ne. Qed.

Lemma settled_ok_frame (s s' : State) (id : N) :
  vault_at s' id = vault_at s id →
  (∀ a, claimable s' id a = claimable s id a) →
  settled_ok s id → settled_ok s' id.
Proof.
  intros Hv Hc H. unfold settled_ok. rewrite Hv. intros Ha Hw a. rewrite Hc. by apply H.
Qed.

Lemma selectWinner_settled (s : State) (e : Env) (id : N) (s1 : State) (effs : list Effect)
    (now : N) :
  state_inv s now →
  (∀ id', settled_ok s id') →
  active (vault_at s id) = true →
  _selectWinner s e id = Ok (s1, effs) →
  ∀ id', settled_ok s1 id'.
Proof.
  intros Hinv Hset Hact Hsel id'.
  destruct (selectWinner_picks s e id) as [_ H5].
  destruct (H5 s1 effs Hsel) as (Hunset & _ & _ & _ & _ & Hdep & _).
  destruct (selectWinner_claimable s e id s1 effs Hsel) as (Hin & Hout & Hother).
  destruct (decide (id' = id)) as [->|Hne].
  - destruct (Hinv id) as [H1 _ _ H4 _ _ _].
    destruct (H1 Hact) as [_ Hlisted _].
    intros _ _ a. rewrite Hdep.
    destruct (decide (a ∈ depositors (vault_at s id))) as [Ha|Ha].
    + rewrite (Hin a Ha). split; [lia|].
      intros Hnw. destruct (N.eqb_spec a (winner (vault_at s1 id))); [done | lia].
    + rewrite (Hout a Ha), (H4 Hact Hunset a).
      assert (deposit_of (vault_at s id) a = 0) as ->.
      { destruct (N.eq_0_gt_0_cases (deposit_of (vault_at s id) a)) as [?|Hpos]; [done|].
        by apply Hlisted in Hpos. }
      done.
  - apply (settled_ok_frame s); [|by intros a; apply Hother | done].
    apply selectWinner_Ok in Hsel as (_ & w & t & claims & _ & _ & _ & -> & _).
    unfold vault_at. simpl. by rewrite lookup_insert_ne.
Qed.

Lemma flat_settled (s : State) (e : Env) (c : Call) (s' : State) (effs : list Effect)
    (now : N) :
  state_inv s now → now ≤ block_timestamp e →
  (∀ id, settled_ok s id) →
  is_deleteVault c = false →
  exec s e c = Ok (s', effs) →
  ∀ id, settled_ok s' id.
Proof.
  intros Hinv Hnow Hset Hflat. destruct c; try done; unfold exec; simpl; intros H id.
  - apply createVault_Ok in H as (_ & _ & ->).
    destruct (decide (vaultCount s = id)) as [<-|Hne].
    + destruct (Hinv (vaultCount s)) as [_ _ H3 _ _ _ _].
      destruct H3 as [Hempty _]; [lia|].
      unfold settled_ok. rewrite vault_at_insert_eq, Hempty. done.
    + apply (settled_ok_frame s); [|done|done].
      by rewrite vault_at_insert_ne.
  - apply deposit_Ok in H as (x & Hact & _ & Htime & _ & _ & ->).
    destruct (decide (_vaultId = id)) as [<-|Hne].
    + destruct (Hinv _vaultId) as [_ _ _ _ H5 _ _].
      unfold settled_ok.
      change (vault_at (set_balance ?st ?b) _vaultId) with (vault_at st _vaultId).
      rewrite vault_at_set_vault_eq. simpl. intros _ Hw.
      specialize (H5 Hact Hw). lia.
    + apply (settled_ok_frame s); [|done|done].
      change (vault_at (set_balance ?st ?b) id) with (vault_at st id).
      by apply vault_at_set_vault_ne.
  - apply withdraw_Ok in H as (Hact & _ & s1 & effs1 & Hsettle & Hpay).
    assert (∀ id', settled_ok s1 id') as Hset1.
    { destruct (settle_if_due_cases s e _vaultId s1 effs1 Hsettle)
        as [(-> & _)|(_ & _ & Hsel)]; [done|].
      by apply (selectWinner_settled s e _vaultId s1 effs1 now). }
    apply claim_and_pay_Ok in Hpay as (_ & (b & -> & _) & _).
    destruct (decide (_vaultId = id)) as [<-|Hne].
    + destruct (after_withdraw_vault_any s1 _vaultId (msg_sender e)) as (ds' & Hv).
      unfold settled_ok.
      change (vault_at (set_balance ?st ?b) _vaultId) with (vault_at st _vaultId).
      change (claimable (set_balance ?st ?b) _vaultId) with (claimable st _vaultId).
      rewrite Hv. simpl. intros Ha Hw a.
      rewrite deposit_of_debit, after_withdraw_claimable.
      destruct (decide (msg_sender e = a)) as [->|Hna].
      * rewrite decide_True by done. done.
      * rewrite decide_False by (intros [_ ?]; done). by apply Hset1.
    + apply (settled_ok_frame s1); [| |done].
      * change (vault_at (after_withdraw s1 _vaultId (msg_sender e)) id = vault_at s1 id).
        by apply after_withdraw_other.
      * intros a.
        change (claimable (after_withdraw s1 _vaultId (msg_sender e)) id a
                = claimable s1 id a).
        rewrite after_withdraw_claimable, decide_False; [done|]. intros [? _]. done.
  - unfold setAdminWallet in H. inv_ok H. injection H as <- <-.
    by apply (settled_ok_frame s).
  - unfold fundContract in H. inv_ok H. injection H as <- <-.
    by apply (settled_ok_frame s).
  - unfold fundContractToken in H. inv_ok H. injection H as <- <-. done.
  - unfold transferOwnership in H. inv_ok H. injection H as <- <-.
    by apply (settled_ok_frame s).
  - unfold renounceOwnership in H. inv_ok H. injection H as <- <-.
    by apply (settled_ok_frame s).
Qed.

Lemma settled_ok_closed_vault (s : State) (id : N) (v : VaultInfo) :
  (∀ id', settled_ok s id') → active v = false →
  ∀ id', settled_ok (set_vault s id v) id'.
Proof.
  intros Hset Hoff id'. destruct (decide (id = id')) as [<-|Hne].
  - unfold settled_ok. rewrite vault_at_set_vault_eq, Hoff. done.
  - apply (settled_ok_frame s); [by apply vault_at_set_vault_ne | done | done].
Qed.

Lemma exec_settled (s : State) (e : Env) (c : Call) (s' : State) (effs : list Effect)
    (now : N) :
  state_inv s now → now ≤ block_timestamp e →
  (∀ id, settled_ok s id) →
  exec s e c = Ok (s', effs) →
  ∀ id, settled_ok s' id.
Proof.
  intros Hinv Hnow Hset H.
  apply (exec_sound (λ st, state_inv st (block_timestamp e) ∧ ∀ id, settled_ok st id)
           (λ _ _ _, True) (λ e', block_timestamp e' = block_timestamp e) (λ _, True) closed)
    with (s := s) (e := e) (c := c) (effs := effs).
  - done.
  - done.
  - done.
  - apply exec_frame_closed.
  - intros st e' c' st' effs' He' [Hst Hok] Hflat Hc. split; [|done]. split.
    + rewrite <- He'.
      apply (flat_inv st e' c' st' effs' (block_timestamp e)); [done | lia | done..].
    + apply (flat_settled st e' c' st' effs' (block_timestamp e)); [done | lia | done..].
  - intros st e' id _ [Hst Hok] _ Hact.
    assert (id < vaultCount st) as Hid by by apply (Hst id).
    split; [split | split; [done|]].
    + by apply state_inv_closed_vault.
    + by apply settled_ok_closed_vault.
    + split; [by rewrite vault_at_set_vault_eq | done].
  - intros st id d [Hst Hok] [Hoff Hid].
    split; [split | split; [done|]].
    + by apply state_inv_closed_vault.
    + by apply settled_ok_closed_vault.
    + by apply closed_set_deposit.
  - intros st id d amount [Hst Hok] Hclosed _.
    split; [split | done].
    + by apply (state_inv_same_vaults st _ (block_timestamp e)).
    + intros id'. by apply (settled_ok_frame st).
  - done.
  - done.
  - done.
  - intros _ i n _. apply frames_ok_any.
  - split; [by apply (state_inv_later s now) | done].
  - done.
Qed.

Lemma reachable_settled (s : State) (now : N) :
  reachable s now → ∀ id, settled_ok s id.
Proof.
  induction 1 as [deployer now|s now e c Hreach IH Hnow].
  - intros id. unfold settled_ok. done.
  - pose proof (reachable_inv s now Hreach) as Hinv.
    unfold step. destruct (exec s e c) as [[s' effs]| | |] eqn:E; [|done..].
    by apply (exec_settled s e c s' effs now).
Qed.

(** ** [withdraw] at and after maturity *)

Lemma withdraw_caller_listed (s : State) (now : N) (e : Env) (id : N) :
  reachable s now →
  active (vault_at s id) = true →
  0 < deposit_of (vault_at s id) (msg_sender e) →
  msg_sender e ∈ depositors (vault_at s id).
Proof.
  intros Hreach Hact Hdep.
  destruct (reachable_inv s now Hreach id) as [H1 _ _ _ _ _ _].
  by apply (H1 Hact).
Qed.

(** X4.  The first withdrawal from a vault that has matured and is not yet
    settled settles it: it draws the winner among the depositors present,
    emits [WinnerSelected] with the interest pot summed over all of them,
    and then pays the caller the caller's principal, plus the whole pot if
    the caller is the winner; afterwards the vault has a winner and every
    other depositor's claimable amount is that depositor's principal, plus
    the pot for the winner. *)
Theorem X4_first_withdraw_after_maturity_settles (s : State) (now : N) (e : Env) (id : N)
    (s' : State) (effs : list Effect) :
  reachable s now →
  hasWinner s id = false →
  creationTime (vault_at s id) + duration (vault_at s id) ≤ block_timestamp e →
  withdraw s e id = Ok (s', effs) →
  hasWinner s' id = true
  ∧ winner (vault_at s' id) ∈ getVaultDepositors s id
  ∧ effs = [Emit (WinnerSelected id (winner (vault_at s' id))
                    (sum_interest (vault_at s id) (depositors (vault_at s id))));
            payout_effect (token (vault_at s id)) (msg_sender e)
              (deposit_of (vault_at s id) (msg_sender e)
               + (if msg_sender e =? winner (vault_at s' id)
                  then sum_interest (vault_at s id) (depositors (vault_at s id))
                  else 0));
            Emit (Withdrawn id (msg_sender e)
                    (deposit_of (vault_at s id) (msg_sender e)
                     + (if msg_sender e =? winner (vault_at s' id)
                        then sum_interest (vault_at s id) (depositors (vault_at s id))
                        else 0)))]
  ∧ (∀ a, a ≠ msg_sender e → a ∈ depositors (vault_at s id) →
          claimable s' id a
          = deposit_of (vault_at s id) a
            + (if a =? winner (vault_at s' id)
               then sum_interest (vault_at s id) (depositors (vault_at s id))
               else 0)).
Proof.
  unfold hasWinner, getVaultDepositors. intros Hreach Hunset Hdue H.
  apply withdraw_Ok in H as (Hact & Hdep & s1 & effs1 & Hsettle & Hpay).
  pose proof (withdraw_caller_listed s now e id Hreach Hact Hdep) as Hin.
  destruct (settle_if_due_cases s e id s1 effs1 Hsettle)
    as [(_ & _ & [Hw|Hearly])|(_ & _ & Hsel)]; [congruence | lia |].
  destruct (selectWinner_picks s e id) as [_ H5].
  destruct (H5 s1 effs1 Hsel) as (_ & Hset1 & Hwin & _ & _ & Hsame & ->).
  destruct (selectWinner_claimable s e id s1 _ Hsel) as (Hclaim & _ & _).
  unfold hasWinner, getVaultDepositors in *.
  assert (token (vault_at s1 id) = token (vault_at s id)) as Htok.
  { by destruct (settle_if_due_vault s e id s1 _ Hsettle) as [[-> _]|(w & -> & _)]. }
  apply claim_and_pay_Ok in Hpay as (_ & (b & -> & _) & ->).
  destruct (after_withdraw_vault_any s1 id (msg_sender e)) as (ds' & Hv).
  change (vault_at (set_balance ?st ?b) id) with (vault_at st id).
  change (claimable (set_balance ?st ?b) id) with (claimable st id).
  rewrite Hv. cbn [winnerSelected winner set_depositors debit set_totalDeposits set_deposit].
  assert (amountToClaim s1 id (msg_sender e)
          = deposit_of (vault_at s id) (msg_sender e)
            + (if msg_sender e =? winner (vault_at s1 id)
               then sum_interest (vault_at s id) (depositors (vault_at s id))
               else 0)) as ->.
  { unfold amountToClaim. rewrite (Hclaim _ Hin).
    destruct (N.eqb_spec (deposit_of (vault_at s id) (msg_sender e)
                          + (if msg_sender e =? winner (vault_at s1 id)
                             then sum_interest (vault_at s id) (depositors (vault_at s id))
                             else 0)) 0); [lia | done]. }
  rewrite Htok. split_and!; [done..|].
  intros a Hne Ha. rewrite after_withdraw_claimable, decide_False by (intros [_ ?]; done).
  by apply Hclaim.
Qed.

Lemma X4_witness :
  hasWinner demo_year_funded 0 = false
  ∧ is_ok (withdraw demo_year_funded demo_year_env 0) = true
  ∧ ∀ s' effs, withdraw demo_year_funded demo_year_env 0 = Ok (s', effs) →
      hasWinner s' 0 = true ∧ payments_to alice effs = [1050].
Proof.
  assert (hasWinner demo_year_funded 0 = false) as Hw by (vm_compute; reflexivity).
  assert (creationTime (vault_at demo_year_funded 0) + duration (vault_at demo_year_funded 0)
          ≤ block_timestamp demo_year_env) as Hdue by (vm_compute; discriminate).
  split_and!; [exact Hw | vm_compute; reflexivity |].
  intros s' effs H.
  destruct (X4_first_withdraw_after_maturity_settles demo_year_funded 30 demo_year_env 0
              s' effs demo_year_funded_reachable Hw Hdue H) as (Hset & Hin & -> & _).
  split; [exact Hset|].
  assert (winner (vault_at s' 0) = alice) as ->.
  { vm_compute in Hin. apply elem_of_cons in Hin as [Heq|Hin]; [exact Heq|].
    destruct (not_elem_of_nil _ Hin). }
  vm_compute. reflexivity.
Defined.

(** X5.  A withdrawal from a vault that is already settled pays the caller
    the claimable amount recorded at settlement: exactly the principal for
    every depositor but the winner, and at least the principal for the
    winner; it does not run the selection again, and it leaves the caller
    with no principal and no claimable amount. *)
Theorem X5_withdraw_after_settlement (s : State) (now : N) (e : Env) (id : N)
    (s' : State) (effs : list Effect) :
  reachable s now →
  hasWinner s id = true →
  withdraw s e id = Ok (s', effs) →
  effs = [payout_effect (token (vault_at s id)) (msg_sender e) (claimable s id (msg_sender e));
          Emit (Withdrawn id (msg_sender e) (claimable s id (msg_sender e)))]
  ∧ deposit_of (vault_at s id) (msg_sender e) ≤ claimable s id (msg_sender e)
  ∧ (msg_sender e ≠ winner (vault_at s id) →
     claimable s id (msg_sender e) = deposit_of (vault_at s id) (msg_sender e))
  ∧ claimable s' id (msg_sender e) = 0
  ∧ deposit_of (vault_at s' id) (msg_sender e) = 0
  ∧ winner (vault_at s' id) = winner (vault_at s id).
Proof.
  unfold hasWinner. intros Hreach Hset H.
  apply withdraw_Ok in H as (Hact & Hdep & s1 & effs1 & Hsettle & Hpay).
  destruct (settle_if_due_cases s e id s1 effs1 Hsettle)
    as [(-> & -> & _)|(Hf & _)]; [|congruence].
  destruct (reachable_settled s now Hreach id Hact Hset (msg_sender e)) as [Hle Heq].
  apply claim_and_pay_Ok in Hpay as (_ & (b & -> & _) & ->).
  destruct (after_withdraw_vault_any s id (msg_sender e)) as (ds' & Hv).
  change (vault_at (set_balance ?st ?b) id) with (vault_at st id).
  change (claimable (set_balance ?st ?b) id) with (claimable st id).
  rewrite Hv, after_withdraw_claimable, deposit_of_debit, !decide_True by done.
  assert (amountToClaim s id (msg_sender e) = claimable s id (msg_sender e)) as ->.
  { unfold amountToClaim.
    destruct (N.eqb_spec (claimable s id (msg_sender e)) 0); [lia | done]. }
  done.
Qed.

Lemma X5_witness :
  hasWinner demo_settled 0 = true
  ∧ is_ok (withdraw demo_settled (demo_env bob 2050 ReturnsTrue) 0) = true
  ∧ ∀ s' effs, withdraw demo_settled (demo_env bob 2050 ReturnsTrue) 0 = Ok (s', effs) →
      effs = [SendValue bob 50; Emit (Withdrawn 0 bob 50)].
Proof.
  assert (hasWinner demo_settled 0 = true) as Hw by (vm_compute; reflexivity).
  split_and!; [exact Hw | vm_compute; reflexivity |].
  intros s' effs H.
  destruct (X5_withdraw_after_settlement demo_settled 2000 (demo_env bob 2050 ReturnsTrue) 0
              s' effs demo_settled_reachable Hw H) as (-> & _).
  vm_compute. reflexivity.
Defined.




(** ** The settlement step of [withdraw] *)

Lemma selectWinner_overflow (s : State) (e : Env) (id : N) :
  winnerSelected (vault_at s id) = false →
  depositors (vault_at s id) ≠ [] →
  fails_only_by_overflow (_selectWinner s e id).
Proof.
  intros Hw Hne. unfold _selectWinner. rewrite Hw.
  change (negb false) with true. rewrite bind_require_true.
  assert ((0 <? length (depositors (vault_at s id)))%nat = true) as ->.
  { destruct (depositors (vault_at s id)); done. }
  rewrite bind_require_true.
  destruct (selectWinner_index s e id Hne) as [w Hidx]. rewrite Hidx.
  apply bind_overflow; [apply totalInterest_loop_overflow|]. intros t.
  apply bind_overflow; [apply setClaimable_loop_overflow | done].
Qed.

(** X7.  When a depositor of an active vault calls [withdraw], the
    settlement step cannot be refused: it never fails with "No depositors"
    or "Winner already selected" and never reads outside the depositors
    array.  The only way it can fail is the arithmetic panic of the interest
    computation, and then the whole withdrawal fails with that panic. *)
Theorem X7_settlement_fails_only_by_overflow (s : State) (now : N) (e : Env) (id : N) :
  reachable s now →
  active (vault_at s id) = true →
  0 < deposit_of (vault_at s id) (msg_sender e) →
  fails_only_by_overflow (settle_if_due s e id)
  ∧ (∀ c, settle_if_due s e id = Panic c →
          c = ARITHMETIC_PANIC ∧ withdraw s e id = Panic ARITHMETIC_PANIC).
Proof.
  intros Hreach Hact Hdep.
  pose proof (withdraw_caller_listed s now e id Hreach Hact Hdep) as Hin.
  assert (fails_only_by_overflow (settle_if_due s e id)) as Hov.
  { unfold settle_if_due.
    apply bind_overflow; [apply checked_add_overflow|]. intros endTime.
    destruct (winnerSelected (vault_at s id)) eqn:Hw.
    - by rewrite andb_false_r.
    - destruct (_ <=? _); simpl; [|done].
      apply selectWinner_overflow; [done|]. intros Hnil. rewrite Hnil in Hin.
      by apply elem_of_nil in Hin. }
  split; [done|].
  intros c Hc. rewrite Hc in Hov. simpl in Hov. subst c. split; [done|].
  rewrite withdraw_unfold, Hact. apply N.ltb_lt in Hdep. rewrite Hdep.
  rewrite !bind_require_true, Hc. done.
Qed.

Lemma X7_witness :
  fails_only_by_overflow (settle_if_due demo_year_funded demo_year_env 0).
Proof.
  assert (active (vault_at demo_year_funded 0) = true) as Hact by (vm_compute; reflexivity).
  assert (0 < deposit_of (vault_at demo_year_funded 0) (msg_sender demo_year_env)) as Hdep
    by (vm_compute; reflexivity).
  exact (proj1 (X7_settlement_fails_only_by_overflow demo_year_funded 30 demo_year_env 0
                  demo_year_funded_reachable Hact Hdep)).
Defined.

(** ** [createVault] and the administrator *)

(** X8.  A successful [createVault] comes from the administrator with a
    positive rate; it takes the next identifier, [vaultCount], and raises
    [vaultCount] by one.  The new vault holds the parameters given and the
    block timestamp, is active, and starts empty: no principal, no
    depositor, no winner, no claimable amount.  Every other vault is left as
    it was. *)
Theorem X8_createVault_opens_an_empty_vault (s : State) (now : N) (e : Env) (n : string)
    (t d r : N) (s' : State) (effs : list Effect) :
  reachable s now →
  createVault s e n t d r = Ok (s', effs) →
  msg_sender e = adminWallet s
  ∧ 0 < r
  ∧ vaultCount s' = vaultCount s + 1
  ∧ vault_at s' (vaultCount s)
    = mkVaultInfo n t 0 (block_timestamp e) d r true false 0 [] ∅
  ∧ (∀ a, claimable s' (vaultCount s) a = 0)
  ∧ (∀ id, id ≠ vaultCount s →
           vault_at s' id = vault_at s id ∧ ∀ a, claimable s' id a = claimable s id a)
  ∧ effs = [Emit (VaultCreated (vaultCount s) n t d r)].
Proof.
  intros Hreach H.
  destruct (reachable_inv s now Hreach (vaultCount s)) as [_ _ H3 _ _ _ _].
  destruct H3 as [Hempty Hclaim]; [lia|].
  assert (effs = [Emit (VaultCreated (vaultCount s) n t d r)]) as ->.
  { unfold createVault in H. inv_ok H. by injection H as _ <-. }
  apply createVault_Ok in H as (Hadmin & Hr & ->).
  rewrite vault_at_insert_eq, Hempty. simpl.
  split_and!; try done.
  intros id Hne. by rewrite vault_at_insert_ne.
Qed.

Lemma X8_witness :
  vault_at demo_token_open 0
  = mkVaultInfo "tokens" demo_token 0 10 1000 500 true false 0 [] ∅
  ∧ vaultCount demo_token_open = 1.
Proof.
  assert (reachable (constructor demo_admin) 0) as Hreach by apply reach_deploy.
  assert (createVault (constructor demo_admin) (demo_env demo_admin 10 ReturnsTrue)
            "tokens" demo_token 1000 500
          = Ok (demo_token_open, [Emit (VaultCreated 0 "tokens" demo_token 1000 500)])) as H
    by (vm_compute; reflexivity).
  destruct (X8_createVault_opens_an_empty_vault _ 0 _ _ _ _ _ _ _ Hreach H)
    as (_ & _ & Hcount & Hvault & _).
  split; [exact Hvault | exact Hcount].
Defined.





(** X10.  [setAdminWallet] succeeds only for the owner and a non-zero
    address; it changes nothing but the administrator.  From then on every
    administrator-only entry point refuses any other caller, the previous
    administrator included, with "Caller is not the admin", and accepts the
    new one: the new administrator can create a vault. *)
Theorem X10_setAdminWallet_hands_over (s : State) (e : Env) (a : address) (s' : State)
    (effs : list Effect) :
  setAdminWallet s e a = Ok (s', effs) →
  msg_sender e = owner s
  ∧ a ≠ 0
  ∧ s' = mkState (claimableAmounts s) (vaults s) (vaultCount s) a (owner s) (balance s)
  ∧ effs = [Emit (AdminWalletUpdated (adminWallet s) a)]
  ∧ (∀ e', msg_sender e' ≠ a →
       (∀ n t d r, createVault s' e' n t d r = Revert "Caller is not the admin")
       ∧ (∀ id, deleteVault s' e' id = Revert "Caller is not the admin")
       ∧ (∀ v, fundContract s' e' v = Revert "Caller is not the admin")
       ∧ (∀ t v, fundContractToken s' e' t v = Revert "Caller is not the admin"))
  ∧ (∀ e' n t d r, msg_sender e' = a → 0 < r → vaultCount s < MAX_UINT256 →
       is_ok (createVault s' e' n t d r) = true).
Proof.
  unfold setAdminWallet, onlyOwner. intros H. inv_ok H. injection H as <- <-.
  apply N.eqb_eq in E. apply negb_true_iff, N.eqb_neq in E0.
  split_and!; try done.
  - intros e' Hne. apply N.eqb_neq in Hne.
    unfold createVault, deleteVault, deleteVault_body, fundContract, fundContractToken,
      onlyAdmin. simpl.
    rewrite Hne. done.
  - intros e' n t d r Hadm Hr Hcount.
    unfold createVault, onlyAdmin. simpl.
    apply N.eqb_eq in Hadm. apply N.ltb_lt in Hr. rewrite Hadm, Hr. simpl.
    unfold checked_add.
    destruct (N.leb_spec (vaultCount s + 1) MAX_UINT256) as [_|Hgt]; [done | lia].
Qed.

Lemma X10_witness :
  is_ok (setAdminWallet demo_open (demo_env demo_admin 25 ReturnsTrue) bob) = true
  ∧ ∀ s' effs, setAdminWallet demo_open (demo_env demo_admin 25 ReturnsTrue) bob = Ok (s', effs) →
      deleteVault s' (demo_env demo_admin 30 ReturnsTrue) 0 = Revert "Caller is not the admin".
Proof.
  split; [vm_compute; reflexivity|].
  intros s' effs H.
  destruct (X10_setAdminWallet_hands_over _ _ _ _ _ H) as (_ & _ & _ & _ & Hothers & _).
  assert (msg_sender (demo_env demo_admin 30 ReturnsTrue) ≠ bob) as Hne
    by (vm_compute; discriminate).
  destruct (Hothers _ Hne) as (_ & Hdel & _). exact (Hdel 0).
Defined.

(** ** The views *)

Lemma native_deposit_is_ok (s : State) (e : Env) (id amt val : N) :
  active (vault_at s id) = true →
  token (vault_at s id) = 0 →
  creationTime (vault_at s id) + duration (vault_at s id) ≤ MAX_UINT256 →
  block_timestamp e < creationTime (vault_at s id) + duration (vault_at s id) →
  0 < val →
  deposit_of (vault_at s id) (msg_sender e) + val ≤ MAX_UINT256 →
  totalDeposits (vault_at s id) + val ≤ MAX_UINT256 →
  is_ok (deposit s e id amt val) = true.
Proof.
  intros Hact Htok Hend Hopen Hval Hdep Htot. unfold deposit.
  rewrite Hact, Htok, bind_require_true.
  assert (checked_add (creationTime (vault_at s id)) (duration (vault_at s id))
          = Ok (creationTime (vault_at s id) + duration (vault_at s id))) as ->
    by by apply checked_add_Ok.
  simpl. apply N.ltb_lt in Hopen, Hval. rewrite Hopen, Hval. simpl.
  assert (checked_add (deposit_of (vault_at s id) (msg_sender e)) val
          = Ok (deposit_of (vault_at s id) (msg_sender e) + val)) as ->
    by by apply checked_add_Ok.
  simpl.
  assert (checked_add (totalDeposits (vault_at s id)) val
          = Ok (totalDeposits (vault_at s id) + val)) as -> by by apply checked_add_Ok.
  done.
Qed.

(** X11.  [getVaultInfo] reports as time left the distance from the block
    timestamp to [creationTime + duration], and zero from maturity on; it
    fails, with the arithmetic panic, exactly when that sum does not fit in
    256 bits, in which case no deposit can ever be made.  For an active
    vault the figure tells whether the deposit window is open: with zero
    time left every deposit is refused with "Vault deposit period has
    ended", and with time left a positive native deposit that fits is
    accepted. *)
Theorem X11_getVaultInfo_time_left (s : State) (e : Env) (id : N) :
  (creationTime (vault_at s id) + duration (vault_at s id) ≤ MAX_UINT256 →
     ∃ info, getVaultInfo s e id = Ok info
       ∧ sum_timeLeft info
         = creationTime (vault_at s id) + duration (vault_at s id) - block_timestamp e
       ∧ (sum_timeLeft info = 0
          ↔ creationTime (vault_at s id) + duration (vault_at s id) ≤ block_timestamp e)
       ∧ sum_active info = active (vault_at s id)
       ∧ sum_totalDeposits info = totalDeposits (vault_at s id)
       ∧ sum_depositorCount info = N.of_nat (length (getVaultDepositors s id))
       ∧ (sum_active info = true → sum_timeLeft info = 0 →
          ∀ amt val, deposit s e id amt val = Revert "Vault deposit period has ended")
       ∧ (sum_active info = true → 0 < sum_timeLeft info →
          token (vault_at s id) = 0 →
          ∀ amt val, 0 < val →
            deposit_of (vault_at s id) (msg_sender e) + val ≤ MAX_UINT256 →
            totalDeposits (vault_at s id) + val ≤ MAX_UINT256 →
            is_ok (deposit s e id amt val) = true))
  ∧ (MAX_UINT256 < creationTime (vault_at s id) + duration (vault_at s id) →
     getVaultInfo s e id = Panic ARITHMETIC_PANIC
     ∧ ∀ amt val, is_ok (deposit s e id amt val) = false).
Proof.
  split.
  - intros Hend. unfold getVaultInfo.
    assert (checked_add (creationTime (vault_at s id)) (duration (vault_at s id))
            = Ok (creationTime (vault_at s id) + duration (vault_at s id))) as Hadd
      by by apply checked_add_Ok.
    rewrite Hadd. simpl. eexists. split; [reflexivity|]. simpl.
    destruct (N.leb_spec (creationTime (vault_at s id) + duration (vault_at s id))
                         (block_timestamp e)) as [Hdue|Hearly].
    + split_and!; try done; try lia.
      * intros Hact _ amt val. unfold deposit. rewrite Hact, Hadd. simpl.
        apply N.ltb_ge in Hdue. by rewrite Hdue.
    + split_and!; try done; try lia.
      intros Hact _ Htok amt val Hval Hdep Htot. by apply native_deposit_is_ok.
  - intros Hover. unfold getVaultInfo, deposit, checked_add.
    apply N.leb_gt in Hover. rewrite Hover. simpl. split; [done|].
    intros amt val. by destruct (active (vault_at s id)).
Qed.

Lemma X11_witness :
  (∃ info, getVaultInfo demo_open (demo_env bob 25 ReturnsTrue) 0 = Ok info
           ∧ sum_timeLeft info = 985)
  ∧ (∃ info, getVaultInfo demo_open (demo_env bob 2000 ReturnsTrue) 0 = Ok info
             ∧ sum_timeLeft info = 0
             ∧ ∀ amt val, deposit demo_open (demo_env bob 2000 ReturnsTrue) 0 amt val
                          = Revert "Vault deposit period has ended").
Proof.
  assert (creationTime (vault_at demo_open 0) + duration (vault_at demo_open 0) ≤ MAX_UINT256)
    as Hend by (vm_compute; discriminate).
  split.
  - destruct (X11_getVaultInfo_time_left demo_open (demo_env bob 25 ReturnsTrue) 0) as [Hok _].
    destruct (Hok Hend) as (info & Hinfo & Hleft & _).
    exists info. split; [exact Hinfo|]. rewrite Hleft. vm_compute. reflexivity.
  - destruct (X11_getVaultInfo_time_left demo_open (demo_env bob 2000 ReturnsTrue) 0) as [Hok _].
    destruct (Hok Hend) as (info & Hinfo & Hleft & _ & Hact & _ & _ & Hclosed & _).
    assert (sum_timeLeft info = 0) as Hzero by (rewrite Hleft; vm_compute; reflexivity).
    exists info. split_and!; [exact Hinfo | exact Hzero |].
    apply Hclosed; [|exact Hzero]. rewrite Hact. vm_compute. reflexivity.
Defined.

(** X12.  On every active vault the views agree with each other:
    [isDepositor] answers true exactly for the addresses [getVaultDepositors]
    lists, no address is listed twice, and the total [getVaultInfo] reports
    is the sum of the listed depositors' principals. *)
Theorem X12_views_agree_on_active_vaults (s : State) (now : N) (id : N) :
  reachable s now →
  active (vault_at s id) = true →
  (∀ a, isDepositor s id a = true ↔ a ∈ getVaultDepositors s id)
  ∧ NoDup (getVaultDepositors s id)
  ∧ totalDeposits (vault_at s id) = sum_deposits (vault_at s id) (getVaultDepositors s id)
  ∧ (∀ a, a ∈ getVaultDepositors s id →
          deposit_of (vault_at s id) a ≤ totalDeposits (vault_at s id)).
Proof.
  intros Hreach Hact. unfold isDepositor, getVaultDepositors.
  destruct (reachable_inv s now Hreach id) as [H1 _ _ _ _ _ _].
  destruct (H1 Hact) as [Hnd Hlisted Htot].
  split_and!; try done.
  - intros a. rewrite Hlisted. apply N.ltb_lt.
  - intros a Ha. rewrite Htot. by apply sum_deposits_elem.
Qed.

Lemma X12_witness :
  (isDepositor demo_open 0 alice = true ↔ alice ∈ getVaultDepositors demo_open 0)
  ∧ NoDup (getVaultDepositors demo_open 0).
Proof.
  assert (active (vault_at demo_open 0) = true) as Hact by (vm_compute; reflexivity).
  destruct (X12_views_agree_on_active_vaults demo_open 20 0 demo_open_reachable Hact)
    as (Hiff & Hnd & _).
  split; [exact (Hiff alice) | exact Hnd].
Defined.

(** ** [getDepositorBalance] and [deleteVault] *)

(** The calls made back into the contract cannot touch a closed vault:
    [deposit], [withdraw] and [deleteVault] refuse it, and [createVault]
    writes to a new identifier. *)
Lemma exec_frame_frozen (e : Env) (n : Reentry) (s s' : State) (effs : list Effect) (id : N) :
  closed id s → exec_frame e n s = Ok (s', effs) → vault_at s' id = vault_at s id.
Proof.
  intros [Hoff Hid] H.
  destruct (exec_frame_sound (λ st, vault_at st id = vault_at s id ∧ id < vaultCount st)
              (λ _ _ _, True) (λ _, True) (λ _, True) (λ id2 _, id2 ≠ id))
    with (e := e) (n := n) (s := s) (s' := s') (effs := effs) as [[? _] _].
  - done.
  - done.
  - done.
  - done.
  - intros st e' c st' effs' _ [Hv Hlt] Hflat Hc. split; [|done].
    destruct (exec_vault_cases st e' c st' effs' id Hflat Hc)
      as [Hcount [->|[(-> & _)|[(Hon & _)|(Hon & _)]]]].
    + split; [done | lia].
    + lia.
    + rewrite Hv in Hon. congruence.
    + rewrite Hv in Hon. congruence.
  - intros st e' id2 _ [Hv Hlt] _ Hact.
    assert (id2 ≠ id) as Hne by (intros ->; rewrite Hv in Hact; congruence).
    split_and!; [by rewrite vault_at_set_vault_ne | done..].
  - intros st id2 d [Hv Hlt] Hne.
    split_and!; [by rewrite vault_at_set_vault_ne | done..].
  - done.
  - done.
  - done.
  - done.
  - apply frames_ok_any.
  - done.
  - done.
  - done.
Qed.

Lemma run_frames_frozen (e : Env) (l : list Reentry) (st : State) (id : N) :
  closed id st →
  vault_at (run_frames e l st).1 id = vault_at st id ∧ closed id (run_frames e l st).1.
Proof.
  revert st. induction l as [|n l IH]; intros st Hclosed; cbn [run_frames]; [done|].
  fold (run_frames e).
  destruct (exec_frame e n st) as [[st' effs]| | |] eqn:E; [|by apply IH..].
  pose proof (exec_frame_closed e n st st' effs id E Hclosed) as Hclosed'.
  destruct (IH st' Hclosed') as [Hv ?]. simpl. split; [|done].
  rewrite Hv. by apply (exec_frame_frozen e n st st' effs).
Qed.

Lemma handed_over_app (tok a : address) (amount : N) (l1 l2 : list Effect) :
  handed_over tok a amount l1 → handed_over tok a amount (l1 ++ l2).
Proof.
  unfold handed_over. destruct (tok =? 0).
  - intros ?. apply elem_of_app. by left.
  - intros [returned ?]. exists returned. apply elem_of_app. by left.
Qed.

(** The loop of [deleteVault] from turn [i] on, when the calls made back
    leave the vault alone: every depositor still to come who holds a
    principal is handed the deletion payout, and all their principals are
    zero at the end. *)
Lemma deleteVault_loop_pays (reenter : Reenter_handler) (e : Env) (id : N) (gas i : nat)
    (s : State) (effs : list Effect) (s' : State) (effs' : list Effect) :
  (∀ k st, closed id st →
     vault_at (reenter k st).1 id = vault_at st id ∧ closed id (reenter k st).1) →
  closed id s →
  NoDup (drop i (depositors (vault_at s id))) →
  deleteVault_loop reenter e id gas i s effs = Ok (s', effs') →
  (∃ added, effs' = effs ++ added)
  ∧ (∀ a, deposit_of (vault_at s' id) a
          = if decide (a ∈ drop i (depositors (vault_at s id)))
            then 0 else deposit_of (vault_at s id) a)
  ∧ (∀ a, a ∈ drop i (depositors (vault_at s id)) →
          0 < deposit_of (vault_at s id) a →
          creationTime (vault_at s id) + duration (vault_at s id) ≤ MAX_UINT256
          ∧ (creationTime (vault_at s id) + duration (vault_at s id) ≤ block_timestamp e →
             interest_fits (deposit_of (vault_at s id) a) (interestRate (vault_at s id))
                           (duration (vault_at s id)))
          ∧ ∃ added, effs' = effs ++ added
                     ∧ handed_over (token (vault_at s id)) a
                                   (deletion_payout e (vault_at s id) a) added).
Proof.
  intros Hre. revert i s effs.
  induction gas as [|gas IH]; intros i s effs Hclosed Hnd H; [done|].
  pose proof H as Hturn. apply deleteVault_loop_turn in Hturn
    as [(Hnone & -> & ->)|(d & Hd & Hturn)].
  { apply lookup_ge_None_1 in Hnone. rewrite drop_ge by done.
    split_and!.
    - exists []. by rewrite app_nil_r.
    - intros a. by rewrite decide_False by apply not_elem_of_nil.
    - intros a Ha. destruct (not_elem_of_nil _ Ha). }
  rewrite (drop_S _ _ _ Hd) in Hnd |- *. apply NoDup_cons in Hnd as [Hfresh Hnd].
  destruct Hturn as [(Hzero & Hrec)|(total & s1 & Hpos & -> & Hpay)].
  - destruct (IH _ _ _ Hclosed Hnd Hrec) as (Hpre & Hdep & Hpaid). split_and!.
    + done.
    + intros a. rewrite Hdep. destruct (decide (a = d)) as [->|Hne].
      * rewrite decide_False by done. rewrite decide_True by apply list_elem_of_here. done.
      * destruct (decide (a ∈ drop (S i) (depositors (vault_at s id)))) as [Hin|Hout].
        -- rewrite decide_True; [done|]. by apply list_elem_of_further.
        -- rewrite decide_False; [done|]. rewrite elem_of_cons. intros [?|?]; done.
    + intros a Ha Hdepa. apply elem_of_cons in Ha as [->|Ha]; [lia|]. by apply Hpaid.
  - (* the turn pays [d] *)
    cbn [deleteVault_loop] in H. rewrite Hd in H.
    apply N.ltb_lt in Hpos as Hpos'. rewrite Hpos' in H. unfold matured in H. inv_ok H.
    cbn [creationTime duration interestRate token set_deposit] in *.
    inv_ok E. injection E as <-.
    assert (deposit_of (vault_at s id) d + x0 = deletion_payout e (vault_at s id) d
            ∧ (creationTime (vault_at s id) + duration (vault_at s id) ≤ block_timestamp e →
               interest_fits (deposit_of (vault_at s id) d) (interestRate (vault_at s id))
                             (duration (vault_at s id)))) as [Hamount Hfits].
    { unfold deletion_payout.
      destruct (N.leb_spec (creationTime (vault_at s id) + duration (vault_at s id))
                           (block_timestamp e)) as [Hdue|Hearly].
      - apply simpleInterest_Ok in E0 as [? ->]. done.
      - injection E0 as <-. split; [done | lia]. }
    set (v1 := set_deposit (vault_at s id) d 0) in *.
    assert (closed id (set_vault s id v1)) as Hclosed1 by by apply closed_set_deposit.
    assert (∃ s3 pay nested,
              vault_at s3 id = v1 ∧ closed id s3
              ∧ handed_over (token (vault_at s id)) d
                            (deposit_of (vault_at s id) d + x0) [pay]
              ∧ deleteVault_loop reenter e id gas (S i) s3 (effs ++ pay :: nested)
                = Ok (s', effs')) as (s3 & pay & nested & Hv3 & Hclosed3 & Hhanded & Hrec).
    { clear Hpay. unfold handed_over.
      destruct (N.eqb_spec (token (vault_at s id)) 0) as [Htok|Htok].
      - inv_ok H.
        destruct (Hre i (set_balance (set_vault s id v1)
                           (balance (set_vault s id v1) - (deposit_of (vault_at s id) d + x0))))
          as [Hv Hc]; [done|].
        eexists _, (SendValue d (deposit_of (vault_at s id) d + x0)), _.
        split_and!; [| exact Hc | | exact H].
        + rewrite Hv. apply vault_at_set_vault_eq.
        + apply list_elem_of_here.
      - inv_ok H.
        exists (set_vault s id v1),
               (TokenTransfer (token (vault_at s id)) d (deposit_of (vault_at s id) d + x0) x),
               [].
        split_and!; [| done | | exact H].
        + apply vault_at_set_vault_eq.
        + exists x. apply list_elem_of_here. }
    assert (depositors (vault_at s3 id) = depositors (vault_at s id)) as Hds
      by by rewrite Hv3.
    rewrite <- Hds in Hnd.
    destruct (IH _ _ _ Hclosed3 Hnd Hrec) as ([added ->] & Hdep & Hpaid).
    rewrite Hds, Hv3 in *.
    assert (∀ a, a ≠ d → deposit_of v1 a = deposit_of (vault_at s id) a) as Hother.
    { intros a Hne. unfold v1. rewrite deposit_of_set_deposit, decide_False; [done|].
      congruence. }
    split_and!.
    + exists (pay :: nested ++ added). by rewrite <- app_assoc.
    + intros a. rewrite Hdep. destruct (decide (a = d)) as [->|Hne].
      * rewrite decide_False by done. rewrite decide_True by apply list_elem_of_here.
        unfold v1. by rewrite deposit_of_set_deposit, decide_True.
      * rewrite (Hother a Hne).
        destruct (decide (a ∈ drop (S i) (depositors (vault_at s id)))) as [Hin|Hout].
        -- rewrite decide_True; [done|]. by apply list_elem_of_further.
        -- rewrite decide_False; [done|]. rewrite elem_of_cons. intros [?|?]; done.
    + intros a Ha Hdepa. apply elem_of_cons in Ha as [->|Ha].
      * split_and!; [done..|].
        exists (pay :: nested ++ added). split; [by rewrite <- app_assoc|].
        rewrite <- Hamount. by apply (handed_over_app _ _ _ [pay]).
      * assert (a ≠ d) as Hne by (intros ->; done).
        destruct (Hpaid a Ha) as (Hend & Hfit & added' & Heq & Hh);
          [by rewrite (Hother a Hne)|].
        unfold v1 in Hend, Hfit, Hh. cbn [creationTime duration interestRate token
                                            set_deposit] in Hend, Hfit, Hh.
        fold v1 in Hfit, Hh. rewrite (Hother a Hne) in Hfit.
        split_and!; [done..|].
        apply app_inv_head in Heq as <-.
        exists (pay :: nested ++ added). split; [by rewrite <- app_assoc|].
        assert (deletion_payout e v1 a = deletion_payout e (vault_at s id) a) as <-.
        { unfold deletion_payout, vault_interest, v1.
          cbn [creationTime duration interestRate set_deposit]. fold v1.
          by rewrite (Hother a Hne). }
        unfold handed_over in *. destruct (token (vault_at s id) =? 0).
        -- apply list_elem_of_further, elem_of_app. by right.
        -- destruct Hh as [r ?]. exists r. apply list_elem_of_further, elem_of_app. by right.
Qed.

(** X14.  [getDepositorBalance] tells a depositor what a deletion hands
    over: when [deleteVault] succeeds in some block, the view evaluated in
    that block returns, for every listed depositor, the principal and the
    interest (zero before maturity) whose sum is exactly the amount
    [deleteVault] sends to that depositor in a native vault, and the amount
    of the [transfer] call it makes for that depositor in a token vault
    (whatever the token answers).  After the deletion the view returns zero
    principal and zero interest for every address, whatever the depositors
    that were paid have done in between. *)
Theorem X14_depositor_balance_is_the_deletion_payout (s : State) (now : N) (e : Env)
    (id : N) (s' : State) (effs : list Effect) :
  reachable s now →
  deleteVault s e id = Ok (s', effs) →
  (∀ a, a ∈ getVaultDepositors s id →
        ∃ principal interest,
          getDepositorBalance s e id a = Ok (principal, interest)
          ∧ principal = deposit_of (vault_at s id) a
          ∧ (block_timestamp e < creationTime (vault_at s id) + duration (vault_at s id) →
             interest = 0)
          ∧ handed_over (token (vault_at s id)) a (principal + interest) effs)
  ∧ (∀ e' a, getDepositorBalance s' e' id a = Ok (0, 0)).
Proof.
  unfold getVaultDepositors. intros Hreach Hdel.
  destruct (reachable_inv s now Hreach id) as [H1 H2 _ _ _ _ _].
  unfold deleteVault in Hdel.
  apply deleteVault_body_Ok in Hdel as (_ & Hact & effs0 & Hloop & ->).
  destruct (H1 Hact) as [Hnd Hlisted _].
  set (s0 := set_vault s id (set_active (vault_at s id) false)) in *.
  assert (vault_at s0 id = set_active (vault_at s id) false) as Hv0
    by apply vault_at_set_vault_eq.
  assert (closed id s0) as Hclosed0 by (split; [by rewrite Hv0 | by apply H2]).
  apply deleteVault_loop_pays in Hloop as (_ & Hdep & Hpaid);
    [| intros k st; apply run_frames_frozen | done | by rewrite Hv0, drop_0].
  rewrite Hv0, drop_0 in Hdep, Hpaid.
  cbn [creationTime duration interestRate token depositors set_active] in Hdep, Hpaid.
  change (deposit_of (set_active (vault_at s id) false)) with (deposit_of (vault_at s id))
    in Hdep, Hpaid.
  split.
  - intros a Ha.
    assert (0 < deposit_of (vault_at s id) a) as Hpos by by apply Hlisted.
    destruct (Hpaid a Ha Hpos) as (Hend & Hfit & added & [= <-] & Hhanded).
    exists (deposit_of (vault_at s id) a),
           (if creationTime (vault_at s id) + duration (vault_at s id) <=? block_timestamp e
            then vault_interest (vault_at s id) a else 0).
    split_and!.
    + unfold getDepositorBalance, matured. apply N.ltb_lt in Hpos. rewrite Hpos.
      assert (checked_add (creationTime (vault_at s id)) (duration (vault_at s id))
              = Ok (creationTime (vault_at s id) + duration (vault_at s id))) as ->
        by by apply checked_add_Ok.
      simpl.
      destruct (N.leb_spec (creationTime (vault_at s id) + duration (vault_at s id))
                           (block_timestamp e)) as [Hdue|Hearly]; [|done].
      assert (simpleInterest (deposit_of (vault_at s id) a) (interestRate (vault_at s id))
                (duration (vault_at s id)) = Ok (vault_interest (vault_at s id) a)) as ->
        by (apply simpleInterest_Ok; split; [by apply Hfit | done]).
      done.
    + done.
    + intros Hearly. apply N.leb_gt in Hearly. by rewrite Hearly.
    + by apply handed_over_app.
  - intros e' a. unfold getDepositorBalance. rewrite Hdep.
    destruct (decide (a ∈ depositors (vault_at s id))) as [Hin|Hout]; [done|].
    assert (deposit_of (vault_at s id) a = 0) as ->; [|done].
    destruct (N.eq_0_gt_0_cases (deposit_of (vault_at s id) a)) as [?|Hpos]; [done|].
    by apply Hlisted in Hpos.
Qed.

Lemma X14_witness :
  getDepositorBalance demo_year_funded (demo_env demo_admin (20 + SECONDS_PER_YEAR) ReturnsTrue)
                      0 alice
  = Ok (1000, 50)
  ∧ ∀ e' a, getDepositorBalance demo_year_deleted e' 0 a = Ok (0, 0).
Proof.
  assert (deleteVault demo_year_funded
            (demo_env demo_admin (20 + SECONDS_PER_YEAR) ReturnsTrue) 0
          = Ok (demo_year_deleted, [SendValue alice 1050; Emit (VaultDeleted 0)])) as Hdel
    by (vm_compute; reflexivity).
  destruct (X14_depositor_balance_is_the_deletion_payout demo_year_funded 30 _ 0 _ _
              demo_year_funded_reachable Hdel) as [_ Hafter].
  split; [vm_compute; reflexivity | exact Hafter].
Defined.

(** ** Vaults do not interfere *)


Lemma withdraw_other_vault (s : State) (e : Env) (id id' : N) (s' : State)
    (effs : list Effect) :
  withdraw s e id = Ok (s', effs) → id ≠ id' → vault_at s' id' = vault_at s id'.
Proof.
  intros H Hne. apply withdraw_Ok in H as (_ & _ & s1 & effs1 & Hsettle & Hpay).
  apply claim_and_pay_Ok in Hpay as (_ & (b & -> & _) & _).
  change (vault_at (set_balance ?st ?b) id') with (vault_at st id').
  rewrite after_withdraw_other by done.
  by apply (settle_if_due_other s e id id' s1 effs1).
Qed.



Lemma step_parameters_kept (s : State) (e : Env) (c : Call) (id : N) :
  id < vaultCount s →
  id < vaultCount (step s e c)
  ∧ name (vault_at (step s e c) id) = name (vault_at s id)
  ∧ token (vault_at (step s e c) id) = token (vault_at s id)
  ∧ creationTime (vault_at (step s e c) id) = creationTime (vault_at s id)
  ∧ duration (vault_at (step s e c) id) = duration (vault_at s id)
  ∧ interestRate (vault_at (step s e c) id) = interestRate (vault_at s id).
Proof.
  intros Hid. destruct (step_evolves s e c) as [Hcount _ _ Hterms].
  split; [lia | by apply Hterms].
Qed.

(** X16.  The terms of a vault are fixed at creation: along any history its
    name, asset, creation time, duration and interest rate never change, and
    its identifier is never given to another vault ([vaultCount] never
    decreases). *)
Theorem X16_vault_terms_are_immutable (s : State) (tr : list (Env * Call)) (id : N) :
  id < vaultCount s →
  vaultCount s ≤ vaultCount (run s tr)
  ∧ name (vault_at (run s tr) id) = name (vault_at s id)
  ∧ token (vault_at (run s tr) id) = token (vault_at s id)
  ∧ creationTime (vault_at (run s tr) id) = creationTime (vault_at s id)
  ∧ duration (vault_at (run s tr) id) = duration (vault_at s id)
  ∧ interestRate (vault_at (run s tr) id) = interestRate (vault_at s id).
Proof.
  revert s. induction tr as [|[e c] tr IH]; intros s Hid; simpl; [split; [lia | done]|].
  destruct (step_parameters_kept s e c id Hid) as (Hid' & Hn & Ht & Hc & Hd & Hr).
  destruct (IH _ Hid') as (Hcount & -> & -> & -> & -> & ->).
  split_and!; try done.
  pose proof (ev_count _ _ (step_evolves s e c)). lia.
Qed.

Lemma X16_witness :
  duration (vault_at demo_settled_deleted 0) = 1000
  ∧ interestRate (vault_at demo_settled_deleted 0) = 500.
Proof.
  assert (0 < vaultCount demo_open) as Hid by (vm_compute; reflexivity).
  destruct (X16_vault_terms_are_immutable demo_open
              [ (demo_env demo_admin 1500 ReturnsTrue, FundContract 1000);
                (demo_env alice 2000 ReturnsTrue, Withdraw 0);
                (demo_env demo_admin 2100 ReturnsTrue, DeleteVault 0) ] 0 Hid)
    as (_ & _ & _ & _ & Hd & Hr).
  assert (run demo_open
            [ (demo_env demo_admin 1500 ReturnsTrue, FundContract 1000);
              (demo_env alice 2000 ReturnsTrue, Withdraw 0);
              (demo_env demo_admin 2100 ReturnsTrue, DeleteVault 0) ]
          = demo_settled_deleted) as Hrun by (vm_compute; reflexivity).
  assert (duration (vault_at demo_open 0) = 1000) as Hd0 by (vm_compute; reflexivity).
  assert (interestRate (vault_at demo_open 0) = 500) as Hr0 by (vm_compute; reflexivity).
  rewrite Hrun, Hd0 in Hd. rewrite Hrun, Hr0 in Hr.
  split; [exact Hd | exact Hr].
Defined.



(** ** [deleteVault] and token deposits *)

(** X18.  A vault is deleted once: after a successful [deleteVault] every
    later [deleteVault] of the same vault fails, in any block and after any
    history, so no depositor is paid out by deletion twice; for the
    administrator the failure is "Vault is not active". *)
Theorem X18_deleteVault_happens_once (s : State) (now : N) (e : Env) (id : N) (s' : State)
    (effs : list Effect) :
  reachable s now →
  deleteVault s e id = Ok (s', effs) →
  ∀ tr e',
    is_ok (deleteVault (run s' tr) e' id) = false
    ∧ (msg_sender e' = adminWallet (run s' tr) →
       deleteVault (run s' tr) e' id = Revert "Vault is not active").
Proof.
  intros Hreach Hdel tr e'.
  assert (created_inv s) as Hcreated
    by (intros id' ?; by apply (reachable_inv s now Hreach id')).
  destruct (deleteVault_closes s e id s' effs Hcreated Hdel) as [_ [Hoff Hid]].
  pose proof (run_inactive_kept _ tr id Hoff Hid) as Hoff'.
  unfold deleteVault, deleteVault_body, onlyAdmin. rewrite Hoff'.
  destruct (N.eqb_spec (msg_sender e') (adminWallet (run s' tr))) as [Heq|Hne]; simpl.
  - done.
  - split; [done | intros ?; done].
Qed.

Lemma X18_witness :
  deleteVault demo_deleted (demo_env demo_admin 40 ReturnsTrue) 0
  = Revert "Vault is not active".
Proof.
  assert (deleteVault demo_open (demo_env demo_admin 30 ReturnsTrue) 0
          = Ok (demo_deleted, [SendValue alice 100; SendValue bob 50; Emit (VaultDeleted 0)]))
    as Hdel by (vm_compute; reflexivity).
  destruct (X18_deleteVault_happens_once demo_open 20 _ 0 _ _ demo_open_reachable Hdel
              [] (demo_env demo_admin 40 ReturnsTrue)) as [_ Hadmin].
  apply Hadmin. vm_compute. reflexivity.
Defined.

(** X19.  In a token vault a deposit that goes through carried no native
    currency and credits exactly [_amount] to the caller and to
    [totalDeposits], with one [transferFrom] of [_amount] from the caller to
    the contract; the native balance does not move.  A token deposit that
    comes with native currency is refused with "Don't send ETH for token
    deposits" before the token is called. *)
Theorem X19_token_deposit_credits_amount (s : State) (e : Env) (id amt val : N) :
  token (vault_at s id) ≠ 0 →
  (∀ s' effs, deposit s e id amt val = Ok (s', effs) →
     val = 0
     ∧ 0 < amt
     ∧ deposit_of (vault_at s' id) (msg_sender e)
       = deposit_of (vault_at s id) (msg_sender e) + amt
     ∧ totalDeposits (vault_at s' id) = totalDeposits (vault_at s id) + amt
     ∧ balance s' = balance s
     ∧ ∃ returned,
         effs = [TokenTransferFrom (token (vault_at s id)) (msg_sender e) (address_this e)
                   amt returned;
                 Emit (Deposited id (msg_sender e) amt)])
  ∧ (active (vault_at s id) = true →
     block_timestamp e < creationTime (vault_at s id) + duration (vault_at s id) →
     creationTime (vault_at s id) + duration (vault_at s id) ≤ MAX_UINT256 →
     0 < amt → val ≠ 0 →
     deposit s e id amt val = Revert "Don't send ETH for token deposits").
Proof.
  intros Htok. apply N.eqb_neq in Htok. split.
  - intros s' effs H.
    pose proof H as H'. apply deposit_Ok in H' as (x & _ & _ & _ & _ & Hx & ->).
    rewrite Htok in Hx. subst x.
    change (vault_at (set_balance ?st ?b) id) with (vault_at st id).
    rewrite vault_at_set_vault_eq, deposit_of_credit, decide_True by done.
    unfold deposit in H. rewrite Htok in H. inv_ok H.
    destruct x as [x calls]. inv_ok E2. injection E2 as <- <-.
    apply N.ltb_lt in E3. apply N.eqb_eq in E4. subst val.
    inv_ok H. injection H as <-.
    split_and!; try done.
    + simpl. lia.
    + by exists x0.
  - intros Hact Hopen Hend Hamt Hval. unfold deposit.
    rewrite Hact, Htok, bind_require_true.
    assert (checked_add (creationTime (vault_at s id)) (duration (vault_at s id))
            = Ok (creationTime (vault_at s id) + duration (vault_at s id))) as ->
      by by apply checked_add_Ok.
    simpl. apply N.ltb_lt in Hopen, Hamt. apply N.eqb_neq in Hval.
    rewrite Hopen, Hamt, Hval. done.
Qed.

Lemma X19_witness :
  is_ok (deposit demo_token_open (demo_env alice 20 ReturnsTrue) 0 100 0) = true
  ∧ (∀ s' effs, deposit demo_token_open (demo_env alice 20 ReturnsTrue) 0 100 0 = Ok (s', effs) →
       deposit_of (vault_at s' 0) alice = 100 ∧ balance s' = 0)
  ∧ deposit demo_token_open (demo_env alice 20 ReturnsTrue) 0 100 7
    = Revert "Don't send ETH for token deposits".
Proof.
  assert (token (vault_at demo_token_open 0) ≠ 0) as Htok by (vm_compute; discriminate).
  split_and!; [vm_compute; reflexivity | |].
  - intros s' effs H.
    destruct (X19_token_deposit_credits_amount demo_token_open (demo_env alice 20 ReturnsTrue)
                0 100 0 Htok) as [Hcredit _].
    destruct (Hcredit s' effs H) as (_ & _ & Hd & _ & Hb & _).
    vm_compute in Hd, Hb. split; [exact Hd | exact Hb].
  - destruct (X19_token_deposit_credits_amount demo_token_open (demo_env alice 20 ReturnsTrue)
                0 100 7 Htok) as [_ Hrefused].
    apply Hrefused; vm_compute; (reflexivity || discriminate).
Defined.

(** ** Calls made back into the contract during [deleteVault] *)

(** X20.  [deleteVault] carries no reentrancy guard.  A depositor that is
    paid by [deleteVault(0)] can call [withdraw(1)] from its [receive]
    function: the call goes through inside the deletion, which then pays
    that depositor twice (the deletion payout and the withdrawal) and has
    changed the second vault as well.  What a call made back cannot do is
    touch a vault that is closed, the one being deleted included: whatever
    the call is, a closed vault is the same record afterwards. *)
Theorem X20_deleteVault_can_be_reentered :
  let s' := step demo_two_vaults demo_reentrant_env (DeleteVault 0) in
  (exec demo_two_vaults demo_reentrant_env (DeleteVault 0)
   = Ok (s', [SendValue alice 100; SendValue alice 50; Emit (Withdrawn 1 alice 50);
              Emit (VaultDeleted 0)])
   ∧ deposit_of (vault_at demo_two_vaults 1) alice = 50
   ∧ deposit_of (vault_at s' 1) alice = 0
   ∧ getVaultDepositors s' 1 = []
   ∧ active (vault_at s' 0) = false
   ∧ balance demo_two_vaults = 150 ∧ balance s' = 0)
  ∧ (∀ e n s s1 effs id,
       active (vault_at s id) = false → id < vaultCount s →
       exec_frame e n s = Ok (s1, effs) →
       vault_at s1 id = vault_at s id).
Proof.
  split; [by vm_compute|].
  intros e n s s1 effs id Hoff Hid H. by apply (exec_frame_frozen e n s s1 effs id).
Qed.

Lemma X20_witness :
  vault_at (step demo_two_vaults demo_reentrant_env (DeleteVault 0)) 0
  = vault_at (step (step demo_two_vaults demo_reentrant_env (DeleteVault 0))
                   (demo_env alice 40 ReturnsTrue) (Deposit 1 0 5)) 0.
Proof.
  destruct X20_deleteVault_can_be_reentered as [_ Hfrozen].
  assert (active (vault_at (step demo_two_vaults demo_reentrant_env (DeleteVault 0)) 0)
          = false) as Hoff by (vm_compute; reflexivity).
  assert (0 < vaultCount (step demo_two_vaults demo_reentrant_env (DeleteVault 0))) as Hid
    by (vm_compute; reflexivity).
  assert (exec_frame (demo_env alice 40 ReturnsTrue)
            (Reenter alice (Deposit 1 0 5) (λ _, []))
            (step demo_two_vaults demo_reentrant_env (DeleteVault 0))
          = Ok (step (step demo_two_vaults demo_reentrant_env (DeleteVault 0))
                     (demo_env alice 40 ReturnsTrue) (Deposit 1 0 5),
                [Emit (Deposited 1 alice 5)])) as H
    by (vm_compute; reflexivity).
  symmetry. exact (Hfrozen _ _ _ _ _ 0 Hoff Hid H).
Defined.
